(** * GraphRAG: extraction, graph linking, hybrid retrieval and the query
    orchestrator

    A shallow embedding of
      - src/database/neo4jClient.js      (knowledge graph store client),
      - src/database/mongodbClient.js    (chunk store client),
      - src/extraction/entityExtractor.js,
      - src/retrieval/hybridRetrieval.js,
      - src/retrieval/promptBuilder.js and src/query/queryEngine.js,
    followed by the properties proved about them.

    Conventions.  A JavaScript property that may be absent is an [option]
    ([None] is [undefined]).  Strings are sequences of code units, each an
    [ascii].  A value that a caller passes on unchecked where a number is
    meant is a [Value]; a number that [parseInt] has returned is a [Num].
    Asynchronous functions are run to completion one after the
    other, so a promise is the computation that produces its result; a
    rejected promise and a thrown exception are the same [Throw].  Console
    output is not modelled.  The two stores and the language model are outside
    the repository: their contents and their answers are fields of [World]. *)

From Stdlib Require Import String Ascii List Bool Arith NArith ZArith Lia.
From Stdlib Require Import DecimalString DecimalNat.
Import ListNotations.
Local Open Scope string_scope.
Local Open Scope list_scope.

Set Implicit Arguments.

(** ** JavaScript values as the code uses them *)

(** [${x}] in a template literal, for a string that may be absent. *)
Definition js_str (x : option string) : string :=
  match x with
  | Some s => s
  | None => "undefined"
  end.

(** [${n}] for a non-negative integer. *)
Definition js_num (n : nat) : string :=
  NilEmpty.string_of_uint (Nat.to_uint n).

Definition js_num_opt (x : option nat) : string :=
  match x with
  | Some n => js_num n
  | None => "undefined"
  end.

(** Truthiness of a string-valued property: absent and empty are falsy. *)
Definition truthy (x : option string) : bool :=
  match x with
  | Some EmptyString => false
  | Some _ => true
  | None => false
  end.

(** Truthiness of a number-valued property: absent and zero are falsy. *)
Definition truthy_num (x : option nat) : bool :=
  match x with
  | Some (S _) => true
  | _ => false
  end.

Definition option_eqb (x y : option string) : bool :=
  match x, y with
  | Some a, Some b => String.eqb a b
  | None, None => true
  | _, _ => false
  end.

(** [s.includes(sub)]. *)
Fixpoint includes (sub s : string) : bool :=
  if prefix sub s then true
  else match s with
       | EmptyString => false
       | String _ rest => includes sub rest
       end.

(** [c.toLowerCase()] on one code unit.  Below 256 the letters with a lower
    case of their own are A to Z (65 to 90) and, from U+00C0 to U+00DE, all
    but the multiplication sign U+00D7; the lower case is 32 further on. *)
Definition lower_unit (c : ascii) : ascii :=
  let n := nat_of_ascii c in
  if (Nat.leb 65 n && Nat.leb n 90)
     || (Nat.leb 192 n && Nat.leb n 222 && negb (Nat.eqb n 215))
  then ascii_of_nat (n + 32) else c.

Fixpoint toLowerCase (s : string) : string :=
  match s with
  | EmptyString => EmptyString
  | String c rest => String (lower_unit c) (toLowerCase rest)
  end.

(** A value that reaches the code unchecked where a number is meant: the
    body of a request holds any JSON value, and the functions pass their
    options on as they come.  The code does four things with such a value:
    it splices it into a template literal, compares it with zero, tests it
    for truthiness, and hands it to the chunk store.  A value is given here
    by how it is written, which tells it from every other value, and by what
    the first three make of it. *)
Record Value := {
  written : string;        (* the value as JSON text *)
  spliced : string;        (* [${v}] *)
  above_zero : bool;       (* [v > 0] *)
  truthy_value : bool      (* [v] as the left operand of [||] *)
}.

(** The number [n]. *)
Definition number (n : nat) : Value :=
  {| written := js_num n; spliced := js_num n;
     above_zero := Nat.ltb 0 n; truthy_value := Nat.ltb 0 n |}.

Definition value_eqb (u v : Value) : bool :=
  String.eqb (written u) (written v) && String.eqb (spliced u) (spliced v)
  && Bool.eqb (above_zero u) (above_zero v)
  && Bool.eqb (truthy_value u) (truthy_value v).

(** The number a value is, when it is a non-negative integer. *)
Definition count_of (v : Value) : option nat :=
  match NilEmpty.uint_of_string (written v) with
  | Some d => if value_eqb v (number (Nat.of_uint d)) then Some (Nat.of_uint d) else None
  | None => None
  end.

(** A number as [parseInt] returns it: an integer, or NaN. *)
Inductive Num :=
| NaN
| Int (z : Z).

(** [x < n] for an array length [n], and [x + y]. *)
Definition num_lt (x : Num) (n : nat) : bool :=
  match x with
  | NaN => false
  | Int z => Z.ltb z (Z.of_nat n)
  end.

Definition num_add (x y : Num) : Num :=
  match x, y with
  | Int a, Int b => Int (a + b)
  | _, _ => NaN
  end.

(** A bound of [Array.prototype.slice] on an array of length [len]: NaN
    counts as 0, a negative bound counts from the end, and the result is
    clamped to the array. *)
Definition slice_bound (len : nat) (x : Num) : nat :=
  match x with
  | NaN => 0
  | Int z => if Z.ltb z 0 then Z.to_nat (Z.max (Z.of_nat len + z) 0)
             else Nat.min (Z.to_nat z) len
  end.

(** [l.slice(from, to)]. *)
Definition slice {A} (l : list A) (from to : Num) : list A :=
  let k := slice_bound (length l) from in
  let final := slice_bound (length l) to in
  firstn (final - k) (skipn k l).

(** A JavaScript [Set] keeps insertion order; [Array.from] reads it back in
    that order. *)
Definition Set_has (x : option string) (s : list (option string)) : bool :=
  existsb (option_eqb x) s.

Definition Set_add (x : option string) (s : list (option string))
  : list (option string) :=
  if Set_has x s then s else s ++ [x].

(** ** Exceptions and the monad of the asynchronous code *)

Record exn := Error { message : string }.

Inductive Result (A : Type) :=
| Throw (e : exn)
| Ok (a : A).
Arguments Throw {A} e.
Arguments Ok {A} a.

(** Messages of the faults raised by the engine itself (V8 wording, without
    the value that V8 names in the second). *)
Definition TypeError_read (of_what prop : string) : exn :=
  Error ("Cannot read properties of " ++ of_what ++ " (reading '" ++ prop ++ "')").

Definition TypeError_create (prop : string) : exn :=
  Error ("Cannot create property '" ++ prop ++ "' on a primitive value").

(** ** Extractions (entityExtractor.js, neo4jClient.js) *)

Record Entity := {
  e_name : option string;
  e_type : option string
}.

Record Relationship := {
  r_from : option string;
  r_from_type : option string;
  r_type : option string;
  r_to : option string;
  r_to_type : option string
}.

Record Extraction := {
  entities : option (list Entity);
  relationships : option (list Relationship);
  error : option string
}.

(** ** The knowledge graph store (Neo4j) *)

Record Provenance := {
  p_chunk_id : string;
  p_doc_id : string;
  p_extracted_at : string
}.

(** A node with the properties this code reads and writes. *)
Record Node := {
  labels : list string;
  n_name : option string;
  n_chunk_id : option string;
  n_doc_id : option string;
  n_extracted_at : option string
}.

(** An edge between two nodes, given by their positions in [nodes]. *)
Record Edge := {
  e_src : nat;
  e_label : string;
  e_dst : nat;
  e_properties : Provenance
}.

Record Graph := {
  nodes : list Node;
  edges : list Edge
}.

(** The queries the client sends, one constructor for each query text in the
    source, with the values spliced into the text and the parameters bound
    to it. *)
Inductive Cypher :=
| MergeNode (label : string) (name : option string) (properties : Provenance)
    (* MERGE (p:<label> {name: $name}) SET p += $properties RETURN p *)
| MergeRelationship (fromLabel toLabel relLabel : string)
    (fromName toName : option string) (properties : Provenance)
    (* MERGE (from:`<fromLabel>` {name: $fromName})
       MERGE (to:`<toLabel>` {name: $toName})
       MERGE (from)-[r:`<relLabel>`]->(to) SET r += $properties RETURN r *)
| MatchRelated (entityName : option string) (depth : string) (limit : nat)
    (* MATCH path = (start {name: $entityName})-[*1..<depth>]-(related)
       RETURN path, related, labels(related) as labels LIMIT <limit>
       where <depth> is the text that was spliced in *)
| MatchNames.
    (* MATCH (n) WHERE n.name IS NOT NULL RETURN DISTINCT n.name as name *)

(** One record of a query result. *)
Inductive Row :=
| RowNode (p : Node)
| RowEdge (r : Provenance)
| RowRelated (related : Node) (path_length : nat)
| RowName (name : string).

Definition has_label (label : string) (n : Node) : bool :=
  existsb (String.eqb label) (labels n).

Definition node_matches (label : string) (name : option string) (n : Node) : bool :=
  has_label label n && option_eqb name (n_name n).

(** [SET p += $properties] with the three provenance keys. *)
Definition set_provenance (pr : Provenance) (n : Node) : Node :=
  {| labels := labels n;
     n_name := n_name n;
     n_chunk_id := Some (p_chunk_id pr);
     n_doc_id := Some (p_doc_id pr);
     n_extracted_at := Some (p_extracted_at pr) |}.

Definition bare_node (label : string) (name : option string) : Node :=
  {| labels := [label]; n_name := name;
     n_chunk_id := None; n_doc_id := None; n_extracted_at := None |}.

(** [MERGE (p:<label> {name: $name})]: the matching nodes, or one new node. *)
Definition merge_pattern (label : string) (name : option string) (g : Graph) : Graph :=
  if existsb (node_matches label name) (nodes g) then g
  else {| nodes := nodes g ++ [bare_node label name]; edges := edges g |}.

Definition merge_node (label : string) (name : option string) (pr : Provenance)
    (g : Graph) : Graph * list Row :=
  let g1 := merge_pattern label name g in
  let ns := map (fun n => if node_matches label name n then set_provenance pr n else n)
                (nodes g1) in
  ({| nodes := ns; edges := edges g1 |},
   map RowNode (filter (node_matches label name) ns)).

(** Positions of the nodes matching a pattern. *)
Fixpoint positions (p : Node -> bool) (ns : list Node) (i : nat) : list nat :=
  match ns with
  | [] => []
  | n :: rest => if p n then i :: positions p rest (S i) else positions p rest (S i)
  end.

Definition edge_matches (src : nat) (label : string) (dst : nat) (e : Edge) : bool :=
  Nat.eqb (e_src e) src && String.eqb (e_label e) label && Nat.eqb (e_dst e) dst.

(** [MERGE (from)-[r:<label>]->(to) SET r += $properties] for one pair. *)
Definition merge_edge (label : string) (pr : Provenance) (es : list Edge)
    (pair : nat * nat) : list Edge :=
  let '(src, dst) := pair in
  if existsb (edge_matches src label dst) es
  then map (fun e => if edge_matches src label dst e
                     then {| e_src := src; e_label := label; e_dst := dst;
                             e_properties := pr |}
                     else e) es
  else es ++ [{| e_src := src; e_label := label; e_dst := dst; e_properties := pr |}].

Definition merge_relationship (fromLabel toLabel relLabel : string)
    (fromName toName : option string) (pr : Provenance) (g : Graph)
  : Graph * list Row :=
  let g1 := merge_pattern fromLabel fromName g in
  let g2 := merge_pattern toLabel toName g1 in
  let froms := positions (node_matches fromLabel fromName) (nodes g2) 0 in
  let tos := positions (node_matches toLabel toName) (nodes g2) 0 in
  let pairs := list_prod froms tos in
  ({| nodes := nodes g2; edges := fold_left (merge_edge relLabel pr) pairs (edges g2) |},
   map (fun _ => RowEdge pr) pairs).

(** Edges at node [v] not yet on the path, each with the node at its other
    end (the pattern is undirected). *)
Fixpoint incident (es : list Edge) (i : nat) (v : nat) (used : list nat)
  : list (nat * nat) :=
  match es with
  | [] => []
  | e :: rest =>
      let more := incident rest (S i) v used in
      if existsb (Nat.eqb i) used then more
      else if Nat.eqb (e_src e) v then (i, e_dst e) :: more
      else if Nat.eqb (e_dst e) v then (i, e_src e) :: more
      else more
  end.

(** Paths of 1 to [hops] further relationships from [v], none used twice,
    depth first; each with its end node and its length. *)
Fixpoint expand (g : Graph) (hops : nat) (v : nat) (used : list nat) (len : nat)
  : list (nat * nat) :=
  match hops with
  | 0 => []
  | S h =>
      flat_map (fun '(i, u) => (u, S len) :: expand g h u (i :: used) (S len))
               (incident (edges g) 0 v used)
  end.

Definition related_row (g : Graph) (hit : nat * nat) : list Row :=
  match nth_error (nodes g) (fst hit) with
  | Some n => [RowRelated n (snd hit)]
  | None => []
  end.

(** The pattern with at most [depth] relationships, and [LIMIT limit]. *)
Definition match_related (entityName : option string) (depth limit : nat) (g : Graph)
  : list Row :=
  let starts := positions (fun n => option_eqb entityName (n_name n)) (nodes g) 0 in
  firstn limit
    (flat_map (fun s => flat_map (related_row g) (expand g depth s [] 0)) starts).

(** How the store reads the text that stands after [*1..] in the pattern. *)
Inductive Range :=
| UpTo (n : nat)     (* the numeral of n: at most n relationships *)
| NoBound.           (* no text: any number of relationships *)

(** Any other text makes of the query something else than this pattern. *)
Definition range_of (depth : string) : option Range :=
  if String.eqb depth EmptyString then Some NoBound
  else match NilEmpty.uint_of_string depth with
       | Some d => if String.eqb (js_num (Nat.of_uint d)) depth
                   then Some (UpTo (Nat.of_uint d)) else None
       | None => None
       end.

(** No relationship occurs twice on a path, so without a bound a path has at
    most as many relationships as the graph. *)
Definition max_hops (range : Range) (g : Graph) : nat :=
  match range with
  | UpTo n => n
  | NoBound => length (edges g)
  end.

Fixpoint distinct (seen l : list string) : list string :=
  match l with
  | [] => []
  | x :: rest =>
      if existsb (String.eqb x) seen then distinct seen rest
      else x :: distinct (x :: seen) rest
  end.

Definition match_names (g : Graph) : list Row :=
  map RowName
      (distinct [] (flat_map (fun n => match n_name n with
                                       | Some s => [s]
                                       | None => []
                                       end) (nodes g))).

(** What the store does with a traversal whose spliced text is neither empty
    nor a numeral, once it has accepted it: the graph it leaves, and the
    related node and the length of the path that the caller reads in each
    record, or the error that reading the records throws. *)
Definition Foreign : Type :=
  Cypher -> Graph -> Graph * Result (list (Node * nat)).

(** The graph after a query, and the records of its result.  A query of one
    of the four patterns is run as written; any other is the store's
    matter ([other]). *)
Definition execute (other : Foreign) (q : Cypher) (g : Graph)
  : Graph * Result (list Row) :=
  match q with
  | MergeNode label name pr =>
      (fst (merge_node label name pr g), Ok (snd (merge_node label name pr g)))
  | MergeRelationship fl tl rl fn tn pr =>
      (fst (merge_relationship fl tl rl fn tn pr g),
       Ok (snd (merge_relationship fl tl rl fn tn pr g)))
  | MatchRelated name depth limit =>
      match range_of depth with
      | Some range => (g, Ok (match_related name (max_hops range g) limit g))
      | None =>
          (fst (other q g),
           match snd (other q g) with
           | Ok hits => Ok (map (fun hit => RowRelated (fst hit) (snd hit)) hits)
           | Throw e => Throw e
           end)
      end
  | MatchNames => (g, Ok (match_names g))
  end.

(** ** The chunk store (MongoDB) and the language model (Ollama) *)

Record Chunk := {
  chunk_id : string;
  doc_id : string;
  source_title : option string;
  page_number : option nat;
  text : option string;
  extraction : option Extraction
}.

(** The vector of a text.  Its numbers are not represented: a vector is
    identified by the text it was computed from. *)
Inductive Embedding := EmbeddingOf (embedded : string).

(** The outcome of a call to a chat model: when it settles, in milliseconds,
    and with what. *)
Record Invocation := {
  elapsed : N;
  outcome : Result string
}.

(** ** The world the program runs in *)

(** config.js, [config.vectorSearch]: the two settings read at query time.
    config.js computes them once, as [parseInt(process.env.TOP_K_RESULTS) || 5]
    and [parseInt(process.env.GRAPH_TRAVERSAL_DEPTH) || 2]: integers, never
    NaN.  They are taken here as the counts they are meant to be; an
    environment that sets a negative number is not covered. *)
Record Config := {
  topK : nat;
  graphTraversalDepth : nat
}.

Record World := {
  config : Config;
  (* Neo4j: the server, and the module variable [driver] of neo4jClient.js *)
  neo4j_fault : option string;      (* [Some m]: unreachable, failing with m *)
  driver : bool;                    (* [driver] is not null *)
  graph : Graph;
  rejects : Cypher -> option string; (* [Some m]: the store refuses the query *)
  foreign : Foreign;                (* what it does with a text it accepts
                                       that is none of the patterns *)
  issued : list Cypher;             (* queries sent so far, oldest first *)
  (* MongoDB: the server, and [client] and [db] of mongodbClient.js *)
  mongo_fault : option string;
  client : bool;
  db : bool;
  collection : list Chunk;
  nearest : Embedding -> Value -> list Chunk -> Result (list Chunk);
                                    (* the [$vectorSearch] stage with
                                       [limit: k, numCandidates: k * 10]: the
                                       documents found, or the error with
                                       which the store refuses [k] *)
  (* Ollama *)
  embedQuery : string -> Result Embedding;
  extraction_model : nat -> string -> Invocation;
                                    (* [model.invoke] on the extraction model,
                                       as the race sees it: the promise of
                                       the client, its own timeout of 60 s
                                       included *)
  answer_model : nat -> string -> Invocation;
                                    (* the generation that [model.invoke] on
                                       the answer model waits for; the
                                       timeout of the client is applied by
                                       [client_invoke].  Both are given by
                                       the number of earlier calls and the
                                       prompt *)
  invocations : list string;        (* prompts sent so far, oldest first *)
  (* the clock *)
  now : string                      (* [new Date().toISOString()] *)
}.

Definition with_neo4j (d : bool) (g : Graph) (qs : list Cypher) (w : World) : World :=
  {| config := config w;
     neo4j_fault := neo4j_fault w; driver := d; graph := g;
     rejects := rejects w; foreign := foreign w; issued := qs;
     mongo_fault := mongo_fault w; client := client w; db := db w;
     collection := collection w; nearest := nearest w;
     embedQuery := embedQuery w; extraction_model := extraction_model w;
     answer_model := answer_model w; invocations := invocations w;
     now := now w |}.

Definition with_mongo (c d : bool) (w : World) : World :=
  {| config := config w;
     neo4j_fault := neo4j_fault w; driver := driver w; graph := graph w;
     rejects := rejects w; foreign := foreign w; issued := issued w;
     mongo_fault := mongo_fault w; client := c; db := d;
     collection := collection w; nearest := nearest w;
     embedQuery := embedQuery w; extraction_model := extraction_model w;
     answer_model := answer_model w; invocations := invocations w;
     now := now w |}.

Definition with_invocations (ps : list string) (w : World) : World :=
  {| config := config w;
     neo4j_fault := neo4j_fault w; driver := driver w; graph := graph w;
     rejects := rejects w; foreign := foreign w; issued := issued w;
     mongo_fault := mongo_fault w; client := client w; db := db w;
     collection := collection w; nearest := nearest w;
     embedQuery := embedQuery w; extraction_model := extraction_model w;
     answer_model := answer_model w; invocations := ps;
     now := now w |}.

(** A computation reads and changes the world and returns or throws. *)
Definition M (A : Type) : Type := World -> Result A * World.

Definition ret {A} (a : A) : M A := fun w => (Ok a, w).

Definition throw {A} (e : exn) : M A := fun w => (Throw e, w).

Definition bind {A B} (m : M A) (k : A -> M B) : M B :=
  fun w => match m w with
           | (Ok a, w1) => k a w1
           | (Throw e, w1) => (Throw e, w1)
           end.

Declare Scope js_scope.
Delimit Scope js_scope with js.
Notation "x <- m ;; k" := (bind m (fun x => k))
  (at level 61, m at next level, right associativity) : js_scope.
Notation "m ;; k" := (bind m (fun _ => k))
  (at level 61, right associativity) : js_scope.
Local Open Scope js_scope.

Definition lift {A} (r : Result A) : M A := fun w => (r, w).

(** [try { body } catch (error) { handler }]. *)
Definition try_catch {A} (body : M A) (handler : exn -> M A) : M A :=
  fun w => match body w with
           | (Throw e, w1) => handler e w1
           | (Ok a, w1) => (Ok a, w1)
           end.

(** [try { body } finally { cleanup }]. *)
Definition try_finally {A} (body : M A) (cleanup : M unit) : M A :=
  fun w => let '(r, w1) := body w in
           match cleanup w1 with
           | (Throw e, w2) => (Throw e, w2)
           | (Ok _, w2) => (r, w2)
           end.

(** ** neo4jClient.js *)

Definition connectNeo4j : M unit :=
  fun w =>
    if driver w then (Ok tt, w)
    else
      (* [driver] is assigned before the connection is verified *)
      let w1 := with_neo4j true (graph w) (issued w) w in
      match neo4j_fault w with
      | None => (Ok tt, w1)
      | Some m => (Throw (Error m), w1)
      end.

Definition closeNeo4j : M unit :=
  fun w =>
    if driver w then (Ok tt, with_neo4j false (graph w) (issued w) w)
    else (Ok tt, w).

Definition getSession : M unit :=
  fun w =>
    if driver w then (Ok tt, w)
    else (Throw (Error "Neo4j not connected. Call connectNeo4j() first."), w).

(** [session.run(query, parameters)], with the reading of the records that
    follows it: the query is sent; it fails when the server cannot be reached
    or refuses it, and is executed on the graph otherwise. *)
Definition session_run (q : Cypher) : M (list Row) :=
  fun w =>
    let log := issued w ++ [q] in
    match neo4j_fault w with
    | Some m => (Throw (Error m), with_neo4j (driver w) (graph w) log w)
    | None =>
        match rejects w q with
        | Some m => (Throw (Error m), with_neo4j (driver w) (graph w) log w)
        | None =>
            let '(g, records) := execute (foreign w) q (graph w) in
            (records, with_neo4j (driver w) g log w)
        end
    end.

Definition session_close : M unit := ret tt.

(** [result.records[0]?.get('p').properties]. *)
Definition first_node (rows : list Row) : option Node :=
  match rows with
  | RowNode p :: _ => Some p
  | _ => None
  end.

Definition first_edge (rows : list Row) : option Provenance :=
  match rows with
  | RowEdge r :: _ => Some r
  | _ => None
  end.

Definition createPersonNode (name : option string) (properties : Provenance)
  : M (option Node) :=
  getSession ;;
  try_finally
    (result <- session_run (MergeNode "Person" name properties) ;;
     ret (first_node result))
    session_close.

Definition createCompanyNode (name : option string) (properties : Provenance)
  : M (option Node) :=
  getSession ;;
  try_finally
    (result <- session_run (MergeNode "Company" name properties) ;;
     ret (first_node result))
    session_close.

Definition createProductNode (name : option string) (properties : Provenance)
  : M (option Node) :=
  getSession ;;
  try_finally
    (result <- session_run (MergeNode "Product" name properties) ;;
     ret (first_node result))
    session_close.

Definition createFieldNode (name : option string) (properties : Provenance)
  : M (option Node) :=
  getSession ;;
  try_finally
    (result <- session_run (MergeNode "Field" name properties) ;;
     ret (first_node result))
    session_close.

(** The class [a-zA-Z0-9_] of the regular expression. *)
Definition is_word_unit (c : ascii) : bool :=
  let n := nat_of_ascii c in
  (Nat.leb 97 n && Nat.leb n 122) || (Nat.leb 65 n && Nat.leb n 90)
  || (Nat.leb 48 n && Nat.leb n 57) || Nat.eqb n 95.

Definition underscore : ascii := "_"%char.

(** [s.replace(/[^a-zA-Z0-9_]/g, '_')]. *)
Fixpoint replace_non_word (s : string) : string :=
  match s with
  | EmptyString => EmptyString
  | String c rest =>
      String (if is_word_unit c then c else underscore) (replace_non_word rest)
  end.

(** [sanitizeLabel = (label) => label.replace(/[^a-zA-Z0-9_]/g, '_')]. *)
Definition sanitizeLabel (label : option string) : Result string :=
  match label with
  | Some s => Ok (replace_non_word s)
  | None => Throw (TypeError_read "undefined" "replace")
  end.

Definition createRelationship (fromType fromName relType toType toName : option string)
    (properties : Provenance) : M (option Provenance) :=
  getSession ;;
  try_finally
    (fromLabel <- lift (sanitizeLabel fromType) ;;
     toLabel <- lift (sanitizeLabel toType) ;;
     relLabel <- lift (sanitizeLabel relType) ;;
     result <- session_run
                 (MergeRelationship fromLabel toLabel relLabel fromName toName properties) ;;
     ret (first_edge result))
    session_close.

(** The object [results] of storeExtraction. *)
Record Counts := {
  n_entities : nat;
  n_relationships : nat
}.

(** The body of [for (const entity of extraction.entities)]: the [switch]
    compares [entity.type] with each case in turn and has no default. *)
Definition store_entity (props : Provenance) (entity : Entity) : M unit :=
  match e_type entity with
  | Some t =>
      if String.eqb t "Person" then createPersonNode (e_name entity) props ;; ret tt
      else if String.eqb t "Company" then createCompanyNode (e_name entity) props ;; ret tt
      else if String.eqb t "Product" then createProductNode (e_name entity) props ;; ret tt
      else if String.eqb t "Field" then createFieldNode (e_name entity) props ;; ret tt
      else ret tt
  | None => ret tt
  end.

Fixpoint store_entities (provenance : Provenance) (es : list Entity) (results : Counts)
  : M Counts :=
  match es with
  | [] => ret results
  | entity :: rest =>
      store_entity provenance entity ;;
      store_entities provenance rest
        {| n_entities := S (n_entities results);
           n_relationships := n_relationships results |}
  end.

Fixpoint store_relationships (provenance : Provenance) (rs : list Relationship)
    (results : Counts) : M Counts :=
  match rs with
  | [] => ret results
  | rel :: rest =>
      createRelationship (r_from_type rel) (r_from rel) (r_type rel)
                         (r_to_type rel) (r_to rel) provenance ;;
      store_relationships provenance rest
        {| n_entities := n_entities results;
           n_relationships := S (n_relationships results) |}
  end.

Definition storeExtraction (extraction : Extraction) (chunkId docId : string)
  : M Counts :=
  fun w =>
    let provenance :=
      {| p_chunk_id := chunkId; p_doc_id := docId; p_extracted_at := now w |} in
    let results := {| n_entities := 0; n_relationships := 0 |} in
    (results <- match entities extraction with
                | Some es => store_entities provenance es results
                | None => ret results
                end ;;
     match relationships extraction with
     | Some rs => store_relationships provenance rs results
     | None => ret results
     end) w.

(** One element of the array findRelatedEntities returns.  [path] is the
    length of the path object, which is all the callers read of it. *)
Record Related := {
  entity : Node;
  type : option string;
  path : nat
}.

Definition related_of_row (record : Row) : list Related :=
  match record with
  | RowRelated related len =>
      [{| entity := related; type := hd_error (labels related); path := len |}]
  | _ => []
  end.

(** [depth = 1] when no depth is passed; whatever is passed is spliced into
    the text of the query, which ends in [LIMIT 50]. *)
Definition findRelatedEntities (entityName : option string) (depth : option Value)
  : M (list Related) :=
  getSession ;;
  try_finally
    (result <- session_run (MatchRelated entityName
                              (spliced (match depth with
                                        | Some d => d
                                        | None => number 1
                                        end)) 50) ;;
     ret (flat_map related_of_row result))
    session_close.

(** ** entityExtractor.js: validateExtraction *)

Definition fixed_types : list string := ["Person"; "Company"; "Product"; "Field"].

Definition valid_entity (entity : Entity) : bool :=
  truthy (e_name entity) && truthy (e_type entity)
  && match e_type entity with
     | Some t => existsb (String.eqb t) fixed_types
     | None => false
     end.

Definition valid_relationship (rel : Relationship) : bool :=
  truthy (r_from rel) && truthy (r_to rel) && truthy (r_type rel)
  && truthy (r_from_type rel) && truthy (r_to_type rel).

Definition validateExtraction (extraction : option Extraction) : bool :=
  match extraction with
  | None => false
  | Some x =>
      match entities x, relationships x with
      | Some es, Some rs => forallb valid_entity es && forallb valid_relationship rs
      | _, _ => false
      end
  end.

(** ** mongodbClient.js *)

Definition connectMongoDB : M unit :=
  fun w =>
    if client w then (Ok tt, w)
    else
      (* [client] is assigned before [client.connect()]; [db] only after it *)
      match mongo_fault w with
      | None => (Ok tt, with_mongo true true w)
      | Some m => (Throw (Error m), with_mongo true (db w) w)
      end.

Definition closeMongoDB : M unit :=
  fun w =>
    if client w then (Ok tt, with_mongo false false w)
    else (Ok tt, w).

(** [getCollection()], through [getDatabase()]. *)
Definition getCollection : M (list Chunk) :=
  fun w =>
    if db w then (Ok (collection w), w)
    else (Throw (Error "Database not connected. Call connectMongoDB() first."), w).

(** A read of the collection reaches the server. *)
Definition cursor_toArray (docs : list Chunk) : M (list Chunk) :=
  fun w =>
    match mongo_fault w with
    | Some m => (Throw (Error m), w)
    | None => (Ok docs, w)
    end.

(** The [$project] stage: the extraction, if a document carries one, is not
    among the projected fields. *)
Definition project (c : Chunk) : Chunk :=
  {| chunk_id := chunk_id c; doc_id := doc_id c; source_title := source_title c;
     page_number := page_number c; text := text c; extraction := None |}.

(** [limit || config.vectorSearch.topK]. *)
Definition search_limit (limit : option Value) (w : World) : Value :=
  match limit with
  | Some v => if truthy_value v then v else number (topK (config w))
  | None => number (topK (config w))
  end.

(** The pipeline is sent with [limit: k] and [numCandidates: k * 10] as they
    are; it fails when the server cannot be reached or refuses them. *)
Definition vectorSearch (queryEmbedding : Embedding) (limit : option Value)
  : M (list Chunk) :=
  docs <- getCollection ;;
  fun w =>
    let k := search_limit limit w in
    (cursor_toArray docs ;;
     found <- lift (nearest w queryEmbedding k docs) ;;
     ret (map project found)) w.

(** [collection.find({ chunk_id: { $in: chunkIds } }).toArray()]: the
    documents of the collection whose identifier is listed, in the order the
    collection holds them. *)
Definition getChunksByIds (chunkIds : list string) : M (list Chunk) :=
  docs <- getCollection ;;
  cursor_toArray
    (filter (fun c => existsb (String.eqb (chunk_id c)) chunkIds) docs).

(** ** embeddingGenerator.js *)

Definition generateEmbedding (text : string) : M Embedding :=
  fun w => try_catch (lift (embedQuery w text)) (fun error => throw error) w.

(** ** hybridRetrieval.js *)

(** Method 1: the names of the entities the chunks carry. *)
Definition names_of_extraction (entityNames : list (option string)) (chunk : Chunk)
  : list (option string) :=
  match extraction chunk with
  | Some x =>
      match entities x with
      | Some es => fold_left (fun s entity => Set_add (e_name entity) s) es entityNames
      | None => entityNames
      end
  | None => entityNames
  end.

Definition row_name (record : Row) : list string :=
  match record with
  | RowName s => [s]
  | _ => []
  end.

(** Method 2, the two nested loops over chunks and known names.  The set is
    filled in place: when [chunk.text.toLowerCase()] throws on a chunk without
    text, the enclosing [catch] keeps what was added before. *)
Fixpoint names_in_texts (chunks : list Chunk) (allEntityNames : list string)
    (entityNames : list (option string)) : list (option string) :=
  match chunks with
  | [] => entityNames
  | chunk :: rest =>
      match text chunk with
      | None => entityNames
      | Some t =>
          let chunkText := toLowerCase t in
          names_in_texts rest allEntityNames
            (fold_left (fun s entityName =>
                          if includes (toLowerCase entityName) chunkText
                          then Set_add (Some entityName) s else s)
                       allEntityNames entityNames)
      end
  end.

Definition extractEntityNamesFromChunks (chunks : list Chunk)
  : M (list (option string)) :=
  let entityNames := fold_left names_of_extraction chunks [] in
  match entityNames, chunks with
  | [], _ :: _ =>
      try_catch
        (getSession ;;
         result <- session_run MatchNames ;;
         let allEntityNames := flat_map row_name result in
         ret (names_in_texts chunks allEntityNames entityNames))
        (fun _ => ret entityNames)
  | _, _ => ret entityNames
  end.

Record GraphEntity := {
  ge_name : option string;
  ge_type : option string;
  ge_chunk_id : option string;
  ge_doc_id : option string
}.

Record GraphPath := {
  gp_from : option string;
  gp_to : option string;
  gp_depth : nat
}.

(** The three local variables of expandViaGraph. *)
Record Expansion := {
  relatedEntities : list GraphEntity;
  paths : list GraphPath;
  seenEntities : list string
}.

(** The body of [for (const rel of related)]. *)
Definition record_related (entityName : option string) (st : Expansion) (rel : Related)
  : Expansion :=
  let entityKey := (js_str (type rel) ++ ":" ++ js_str (n_name (entity rel)))%string in
  let fresh := negb (existsb (String.eqb entityKey) (seenEntities st)) in
  {| relatedEntities :=
       if fresh
       then relatedEntities st ++
            [{| ge_name := n_name (entity rel); ge_type := type rel;
                ge_chunk_id := n_chunk_id (entity rel);
                ge_doc_id := n_doc_id (entity rel) |}]
       else relatedEntities st;
     (* a path object is truthy, so the path is always recorded *)
     paths := paths st ++
              [{| gp_from := entityName; gp_to := n_name (entity rel);
                  gp_depth := path rel |}];
     seenEntities :=
       if fresh then seenEntities st ++ [entityKey] else seenEntities st |}.

Fixpoint expand_each (entityNames : list (option string)) (depth : Value)
    (st : Expansion) : M Expansion :=
  match entityNames with
  | [] => ret st
  | entityName :: rest =>
      st1 <- try_catch
               (related <- findRelatedEntities entityName (Some depth) ;;
                ret (fold_left (record_related entityName) related st))
               (fun _ => ret st) ;;
      expand_each rest depth st1
  end.

Definition expandViaGraph (entityNames : list (option string)) (depth : option Value)
  : M Expansion :=
  expand_each entityNames (match depth with Some d => d | None => number 2 end)
    {| relatedEntities := []; paths := []; seenEntities := [] |}.

Record RetrievalOptions := {
  opt_topK : option Value;
  opt_graphDepth : option Value;
  opt_includeGraphPaths : option bool
}.

Record Retrieval := {
  query : string;
  vectorChunks : list Chunk;
  graphEntities : list GraphEntity;
  graphChunks : list Chunk;
  allChunks : list Chunk;
  graphPaths : list GraphPath
}.

(** Step 5, the set [relatedChunkIds]. *)
Definition collect_chunk_ids (es : list GraphEntity) : list string :=
  fold_left (fun s e =>
               match ge_chunk_id e with
               | Some id => if truthy (Some id)
                            then (if existsb (String.eqb id) s then s else s ++ [id])
                            else s
               | None => s
               end) es [].

Definition hybridRetrieval (query : string) (options : RetrievalOptions)
  : M Retrieval :=
  fun w =>
    let topK := match opt_topK options with
                | Some k => k
                | None => number (topK (config w))
                end in
    let graphDepth := match opt_graphDepth options with
                      | Some d => d
                      | None => number (graphTraversalDepth (config w))
                      end in
    let includeGraphPaths := match opt_includeGraphPaths options with
                             | Some b => b
                             | None => true
                             end in
    (queryEmbedding <- generateEmbedding query ;;
     vectorResults <- vectorSearch queryEmbedding (Some topK) ;;
     match vectorResults with
     | [] =>
         ret {| query := query; vectorChunks := []; graphEntities := [];
                graphChunks := []; allChunks := []; graphPaths := [] |}
     | _ :: _ =>
         entityNames <- extractEntityNamesFromChunks vectorResults ;;
         graphExpansion <- expandViaGraph entityNames (Some graphDepth) ;;
         let relatedChunkIds := collect_chunk_ids (relatedEntities graphExpansion) in
         graphChunks <- match relatedChunkIds with
                        | [] => ret []
                        | _ :: _ => getChunksByIds relatedChunkIds
                        end ;;
         let vectorChunkIds := map chunk_id vectorResults in
         let uniqueGraphChunks :=
           filter (fun c => negb (existsb (String.eqb (chunk_id c)) vectorChunkIds))
                  graphChunks in
         let allChunks := vectorResults ++ uniqueGraphChunks in
         ret {| query := query; vectorChunks := vectorResults;
                graphEntities := relatedEntities graphExpansion;
                graphChunks := uniqueGraphChunks;
                allChunks := allChunks;
                graphPaths := if includeGraphPaths then paths graphExpansion else [] |}
     end) w.

(** ** promptBuilder.js *)

Definition nl : string := String "010"%char EmptyString.

Definition formatGraphPath (p : GraphPath) : string :=
  (js_str (gp_from p) ++ " → " ++ js_str (gp_to p) ++ " (" ++ js_num (gp_depth p)
   ++ " hop" ++ (if Nat.ltb 1 (gp_depth p) then "s" else EmptyString) ++ ")")%string.

Definition formatGraphPaths (paths : list GraphPath) : list string :=
  map formatGraphPath paths.

Record PromptOptions := {
  includeChunkText : option bool;
  includeGraphPaths : option bool;
  includeProvenance : option bool;
  maxChunks : option nat;
  maxGraphPaths : option nat
}.

Definition default {A} (d : A) (x : option A) : A :=
  match x with
  | Some a => a
  | None => d
  end.

(** [list.forEach((x, i) => { prompt += line(x, i) })], from index [i]. *)
Fixpoint forEach_append {A} (line : A -> nat -> string) (l : list A) (i : nat)
    (prompt : string) : string :=
  match l with
  | [] => prompt
  | x :: rest => forEach_append line rest (S i) (prompt ++ line x i)%string
  end.

Definition constructGraphAwarePrompt (query : string) (retrievalResults : Retrieval)
    (options : PromptOptions) : string :=
  let includeChunkText := default true (includeChunkText options) in
  let includeGraphPaths := default true (includeGraphPaths options) in
  let includeProvenance := default false (includeProvenance options) in
  let maxChunks := default 3 (maxChunks options) in
  let maxGraphPaths := default 5 (maxGraphPaths options) in
  let selectedChunks := firstn maxChunks (allChunks retrievalResults) in
  let prompt := ("Answer using ONLY the information below. Be concise." ++ nl ++ nl)%string in
  let prompt :=
    match includeGraphPaths, graphPaths retrievalResults with
    | true, _ :: _ =>
        let formattedPaths :=
          formatGraphPaths (firstn maxGraphPaths (graphPaths retrievalResults)) in
        (forEach_append (fun path i => js_num (i + 1) ++ ". " ++ path ++ nl)
           formattedPaths 0 (prompt ++ "KNOWLEDGE GRAPH:" ++ nl) ++ nl)%string
    | _, _ => prompt
    end in
  let prompt :=
    if includeChunkText
    then
      forEach_append
        (fun chunk index =>
           let source := if truthy (source_title chunk)
                         then js_str (source_title chunk) else "Unknown" in
           let page := if truthy_num (page_number chunk)
                       then " (page " ++ js_num_opt (page_number chunk) ++ ")"
                       else EmptyString in
           let chunkType :=
             if existsb (fun gc => String.eqb (chunk_id gc) (chunk_id chunk))
                        (graphChunks retrievalResults)
             then " [From Graph]" else " [From Vector Search]" in
           "[Document " ++ js_num (index + 1) ++ "] " ++ source ++ page
           ++ (if includeProvenance then chunkType else EmptyString) ++ nl
           ++ js_str (text chunk) ++ nl ++ nl)%string
        selectedChunks 0 (prompt ++ "RETRIEVED DOCUMENTS:" ++ nl ++ nl)%string
    else prompt in
  (prompt ++ "QUESTION:" ++ nl ++ query ++ nl ++ nl ++ "ANSWER:")%string.

Record Citation := {
  c_source_title : option string;
  c_page_number : option nat;
  c_doc_id : string;
  c_chunk_id : string
}.

Definition citation_key (chunk : Chunk) : string :=
  (doc_id chunk ++ ":" ++ js_num_opt (page_number chunk))%string.

(** The loop of extractCitations, with its two local variables. *)
Fixpoint cite_each (chunks : list Chunk) (citations : list Citation) (seen : list string)
  : list Citation :=
  match chunks with
  | [] => citations
  | chunk :: rest =>
      let key := citation_key chunk in
      if negb (existsb (String.eqb key) seen)
      then cite_each rest
             (citations ++ [{| c_source_title := source_title chunk;
                               c_page_number := page_number chunk;
                               c_doc_id := doc_id chunk;
                               c_chunk_id := chunk_id chunk |}])
             (seen ++ [key])
      else cite_each rest citations seen
  end.

Definition extractCitations (chunks : list Chunk) : list Citation :=
  cite_each chunks [] [].

(** ** queryEngine.js *)

Record QueryOptions := {
  q_topK : option Value;
  q_graphDepth : option Value;
  q_verbose : option bool
}.

Record Answer := {
  a_query : string;
  answer : string;
  citations : list Citation;
  a_graphPaths : list GraphPath;
  retrievalResults : Retrieval
}.

(** createAnswerModel sets [timeout: 180000]: the client gives up on a call
    that has not settled after that many milliseconds, and [invoke] rejects
    with the client's error. *)
Definition answer_timeout : N := 180000.

Definition client_invoke (i : Invocation) (timeout : N) : Result string :=
  if N.ltb (elapsed i) timeout then outcome i
  else Throw (Error "The operation was aborted due to timeout").

(** [model.invoke(prompt)] on the answer model, then [response.content]. *)
Definition invoke_answer_model (prompt : string) : M string :=
  fun w =>
    (client_invoke (answer_model w (length (invocations w)) prompt) answer_timeout,
     with_invocations (invocations w ++ [prompt]) w).

Definition no_information : string :=
  "I could not find relevant information to answer your question.".

Definition fallback_answer : string :=
  "Unable to generate answer due to timeout. Try reducing graph depth or asking a simpler question.".

Definition queryGraphRAG (query : string) (options : QueryOptions) : M Answer :=
  fun w =>
    let topK := default (number (topK (config w))) (q_topK options) in
    let graphDepth :=
      default (number (graphTraversalDepth (config w))) (q_graphDepth options) in
    try_finally
      (try_catch
         (connectMongoDB ;;
          connectNeo4j ;;
          retrievalResults <-
            hybridRetrieval query
              {| opt_topK := Some topK; opt_graphDepth := Some graphDepth;
                 opt_includeGraphPaths := None |} ;;
          match allChunks retrievalResults with
          | [] =>
              ret {| a_query := query; answer := no_information; citations := [];
                     a_graphPaths := []; retrievalResults := retrievalResults |}
          | _ :: _ =>
              let prompt :=
                constructGraphAwarePrompt query retrievalResults
                  {| includeChunkText := None;
                     includeGraphPaths := Some (above_zero graphDepth);
                     includeProvenance := Some false;
                     maxChunks := Some 2;
                     maxGraphPaths := Some 3 |} in
              answer <- try_catch (invoke_answer_model prompt)
                                  (fun _ => ret fallback_answer) ;;
              let citations := extractCitations (allChunks retrievalResults) in
              ret {| a_query := query; answer := answer; citations := citations;
                     a_graphPaths := graphPaths retrievalResults;
                     retrievalResults := retrievalResults |}
          end)
         (fun error => throw error))
      (closeMongoDB ;; closeNeo4j) w.

(** ** entityExtractor.js *)

Definition dq : string := String "034"%char EmptyString.

(** ["key":"value"] inside the JSON sample of the prompt. *)
Definition json_pair (key value : string) : string :=
  (dq ++ key ++ dq ++ ":" ++ dq ++ value ++ dq)%string.

(** The template of createExtractionPrompt for a text. *)
Definition extraction_prompt (t : string) : string :=
  ("Extract entities and relationships from this text as JSON." ++ nl
   ++ nl
   ++ "Entity types: Person, Company, Product, Field" ++ nl
   ++ "Relationship types: CEO_OF, FOUNDED, WORKS_ON, INVESTED_IN, PARTNERED_WITH, DEVELOPED, RELATED_TO" ++ nl
   ++ nl
   ++ "TEXT:" ++ nl
   ++ substring 0 800 t ++ nl
   ++ nl
   ++ "Return JSON:" ++ nl
   ++ "{" ++ dq ++ "entities" ++ dq ++ ":[{" ++ json_pair "name" "string" ++ ","
   ++ json_pair "type" "Person|Company|Product|Field" ++ "}],"
   ++ dq ++ "relationships" ++ dq ++ ":[{" ++ json_pair "from" "name" ++ ","
   ++ json_pair "from_type" "type" ++ "," ++ json_pair "type" "rel_type" ++ ","
   ++ json_pair "to" "name" ++ "," ++ json_pair "to_type" "type" ++ "}]}" ++ nl
   ++ nl
   ++ "JSON:")%string.

(** [text.substring] throws when the text is absent. *)
Definition createExtractionPrompt (text : option string) : Result string :=
  match text with
  | None => Throw (TypeError_read "undefined" "substring")
  | Some t => Ok (extraction_prompt t)
  end.

(** The value of a property as the structure check reads it. *)
Inductive Slot (A : Type) :=
| Falsy                      (* absent, null, false, 0 or the empty string *)
| NotArray                   (* truthy, but not an array *)
| Items (items : list A).    (* an array *)
Arguments Falsy {A}.
Arguments NotArray {A}.
Arguments Items {A} items.

(** What [JSON.parse] returns, as far as the extractor inspects it. *)
Inductive Parsed :=
| PNull                      (* null: reading a property of it throws *)
| PPrimitive                 (* a boolean, a number or a string: it has none of
                                the properties, and module code is strict, so
                                assigning one throws *)
| PObject (ents : Slot Entity) (rels : Slot Relationship) (err : option string).
                             (* an object or an array, with its properties
                                [entities], [relationships] and [error] *)

(** [Promise.race([extractionPromise, timeoutPromise])]: the call wins when
    it settles before the timer fires. *)
Definition race (i : Invocation) (timeout : N) : Result string :=
  if N.ltb (elapsed i) timeout then outcome i
  else Throw (Error "Extraction timeout").

(** [model.invoke(prompt)] on the extraction model, raced against the timer. *)
Definition invoke_extraction_model (prompt : string) (timeout : N) : M string :=
  fun w =>
    (race (extraction_model w (length (invocations w)) prompt) timeout,
     with_invocations (invocations w ++ [prompt]) w).

(** [if (!x || !Array.isArray(x)) x = []]. *)
Definition array_or_empty {A} (x : Slot A) : list A :=
  match x with
  | Falsy => []
  | NotArray => []
  | Items l => l
  end.

Definition structure_check (parsed : Parsed) : Result Extraction :=
  match parsed with
  | PNull => Throw (TypeError_read "null" "entities")
  | PPrimitive => Throw (TypeError_create "entities")
  | PObject ents rels err =>
      Ok {| entities := Some (array_or_empty ents);
            relationships := Some (array_or_empty rels);
            error := err |}
  end.

Definition empty_extraction (error_message : string) : Extraction :=
  {| entities := Some []; relationships := Some []; error := Some error_message |}.

(** [{ ...chunk, extraction }]. *)
Definition with_extraction (chunk : Chunk) (x : Extraction) : Chunk :=
  {| chunk_id := chunk_id chunk; doc_id := doc_id chunk;
     source_title := source_title chunk; page_number := page_number chunk;
     text := text chunk; extraction := Some x |}.

Section Extractor.

(** [JSON.parse], a function of the engine. *)
Variable JSON_parse : string -> Result Parsed.

Definition extractEntitiesAndRelationships (text : option string) (timeout : option N)
  : M Extraction :=
  let timeout := default 45000%N timeout in
  prompt <- lift (createExtractionPrompt text) ;;
  try_catch
    (content <- invoke_extraction_model prompt timeout ;;
     extraction <- lift (JSON_parse content) ;;
     lift (structure_check extraction))
    (fun error => ret (empty_extraction (message error))).

(** The loop of extractFromChunks; the counters it keeps are only printed. *)
Fixpoint extract_each (chunks : list Chunk) (chunksWithExtractions : list Chunk)
  : M (list Chunk) :=
  match chunks with
  | [] => ret chunksWithExtractions
  | chunk :: rest =>
      pushed <- try_catch
                  (extraction <- extractEntitiesAndRelationships (text chunk) (Some 45000%N) ;;
                   ret (chunksWithExtractions ++ [with_extraction chunk extraction]))
                  (fun error =>
                     ret (chunksWithExtractions
                          ++ [with_extraction chunk (empty_extraction (message error))])) ;;
      extract_each rest pushed
  end.

Definition extractFromChunks (chunks : list Chunk) : M (list Chunk) :=
  extract_each chunks [].

End Extractor.

(** ** Derived notions used in the statements *)

(** Every code unit of [s] satisfies [p]. *)
Fixpoint all_units (p : ascii -> bool) (s : string) : bool :=
  match s with
  | EmptyString => true
  | String c rest => p c && all_units p rest
  end.

(** Two strings of the same length that agree wherever one of them has a
    word character. *)
Fixpoint same_word_units (s t : string) : bool :=
  match s, t with
  | EmptyString, EmptyString => true
  | String a s', String b t' =>
      (Ascii.eqb a b || (negb (is_word_unit a) && negb (is_word_unit b)))
      && same_word_units s' t'
  | _, _ => false
  end.

(** The world after the store has accepted and run the queries [qs]. *)
Definition sent (qs : list Cypher) (w : World) : World :=
  fold_left (fun w q => with_neo4j (driver w) (fst (execute (foreign w) q (graph w)))
                          (issued w ++ [q]) w) qs w.

(** The upsert storeExtraction issues for an entity: one for a type of the
    fixed set, none otherwise. *)
Definition entity_upsert (pr : Provenance) (entity : Entity) : list Cypher :=
  match e_type entity with
  | Some t => if existsb (String.eqb t) fixed_types
              then [MergeNode t (e_name entity) pr] else []
  | None => []
  end.

(** The upsert createRelationship issues for a relationship whose three type
    fields are strings. *)
Definition relationship_upsert (pr : Provenance) (rel : Relationship) : list Cypher :=
  match r_from_type rel, r_to_type rel, r_type rel with
  | Some ft, Some tl, Some rt =>
      [MergeRelationship (replace_non_word ft) (replace_non_word tl)
         (replace_non_word rt) (r_from rel) (r_to rel) pr]
  | _, _, _ => []
  end.

Definition typed_relationship (rel : Relationship) : bool :=
  match r_from_type rel, r_to_type rel, r_type rel with
  | Some _, Some _, Some _ => true
  | _, _, _ => false
  end.

Definition upserts (pr : Provenance) (x : Extraction) : list Cypher :=
  flat_map (entity_upsert pr) (default [] (entities x))
  ++ flat_map (relationship_upsert pr) (default [] (relationships x)).

(** Following the specification (4.1, 4.2): only the items that pass
    validation are upserted. *)
Definition validated_upserts (pr : Provenance) (x : Extraction) : list Cypher :=
  flat_map (entity_upsert pr) (filter valid_entity (default [] (entities x)))
  ++ flat_map (relationship_upsert pr)
       (filter valid_relationship (default [] (relationships x))).

(** ** Sample worlds *)

(** A store that refuses what Neo4j refuses in these queries: a missing name
    parameter, an empty label or relationship type, and a traversal whose
    spliced text is neither empty nor a numeral. *)
Definition strict_store (q : Cypher) : option string :=
  match q with
  | MergeNode _ None _ => Some "Expected parameter(s): name"
  | MergeRelationship fl tl rl fn tn _ =>
      match fn, tn with
      | Some _, Some _ =>
          if String.eqb fl EmptyString || String.eqb tl EmptyString
             || String.eqb rl EmptyString
          then Some "'' is not a valid token name"
          else None
      | _, _ => Some "Expected parameter(s): fromName, toName"
      end
  | MatchRelated None _ _ => Some "Expected parameter(s): entityName"
  | MatchRelated (Some _) depth _ =>
      match range_of depth with
      | Some _ => None
      | None => Some "Invalid input: expected an integer or ']'"
      end
  | _ => None
  end.

(** A store that runs nothing but the four patterns. *)
Definition no_foreign : Foreign := fun _ g => (g, Ok []).

(** A semantic index that returns the [k] best of [hits], and refuses what
    Atlas refuses: a limit that is not a positive integer, and more than
    10000 candidates. *)
Definition ranked (hits : list Chunk) (_ : Embedding) (k : Value) (_ : list Chunk)
  : Result (list Chunk) :=
  match count_of k with
  | Some (S n) =>
      if Nat.leb (S n) 1000 (* k * 10 <= 10000 *) then Ok (firstn (S n) hits)
      else Throw (Error "numCandidates must be less than or equal to 10000")
  | _ => Throw (Error "limit must be a positive integer")
  end.

(** An answer that arrives after two seconds. *)
Definition in_time (content : string) : nat -> string -> Invocation :=
  fun _ _ => {| elapsed := 2000; outcome := Ok content |}.

(** An answer that would arrive after two hundred seconds. *)
Definition too_late (content : string) : nat -> string -> Invocation :=
  fun _ _ => {| elapsed := 200000; outcome := Ok content |}.

Definition sample_world (g : Graph) (docs hits : list Chunk) : World :=
  {| config := {| topK := 5; graphTraversalDepth := 2 |};
     neo4j_fault := None; driver := true; graph := g;
     rejects := strict_store; foreign := no_foreign; issued := [];
     mongo_fault := None; client := true; db := true;
     collection := docs;
     nearest := ranked hits;
     embedQuery := fun t => Ok (EmbeddingOf t);
     extraction_model := fun _ _ => {| elapsed := 10; outcome := Ok "{}" |};
     answer_model := in_time "Sam Altman is the CEO of OpenAI.";
     invocations := [];
     now := "2024-01-01T00:00:00.000Z" |}.

Definition empty_graph : Graph := {| nodes := []; edges := [] |}.

Definition an_entity (name kind : string) : Entity :=
  {| e_name := Some name; e_type := Some kind |}.

Definition sample_provenance : Provenance :=
  {| p_chunk_id := "c1"; p_doc_id := "d1";
     p_extracted_at := "2024-01-01T00:00:00.000Z" |}.




(** An extraction with an entity of a type outside the fixed set. *)
Definition organization_extraction : Extraction :=
  {| entities := Some [an_entity "ACME" "Organization"];
     relationships := Some [];
     error := None |}.


(** A hub with sixty neighbours. *)
Definition hub_graph : Graph :=
  {| nodes := bare_node "Company" (Some "Hub")
              :: map (fun i => bare_node "Person" (Some ("N" ++ js_num i)%string))
                     (seq 1 60);
     edges := map (fun i => {| e_src := i; e_label := "WORKS_ON"; e_dst := 0;
                               e_properties := sample_provenance |})
                  (seq 1 60) |}.

Definition passage (id doc title : string) (page : nat) (body : string) : Chunk :=
  {| chunk_id := id; doc_id := doc; source_title := Some title;
     page_number := Some page; text := Some body; extraction := None |}.

Definition altman_passage : Chunk :=
  passage "v1" "doc-altman" "Sam_Altman" 1 "Sam Altman leads the company.".

Definition openai_passage : Chunk :=
  passage "c1" "doc-openai" "OpenAI" 3 "OpenAI develops ChatGPT.".

Definition microsoft_passage : Chunk :=
  passage "c2" "doc-microsoft" "Microsoft" 7 "Microsoft partnered with OpenAI.".

Definition linked_node (label name chunk doc : string) : Node :=
  {| labels := [label]; n_name := Some name; n_chunk_id := Some chunk;
     n_doc_id := Some doc; n_extracted_at := Some "2024-01-01T00:00:00.000Z" |}.

(** Sam Altman --CEO_OF--> OpenAI --PARTNERED_WITH--> Microsoft. *)
Definition altman_graph : Graph :=
  {| nodes := [linked_node "Person" "Sam Altman" "v1" "doc-altman";
               linked_node "Company" "OpenAI" "c1" "doc-openai";
               linked_node "Company" "Microsoft" "c2" "doc-microsoft"];
     edges := [{| e_src := 0; e_label := "CEO_OF"; e_dst := 1;
                  e_properties := sample_provenance |};
               {| e_src := 1; e_label := "PARTNERED_WITH"; e_dst := 2;
                  e_properties := sample_provenance |}] |}.

(** The collection holds the Microsoft passage before the OpenAI passage;
    the semantic search finds the passage about Sam Altman. *)
Definition altman_world : World :=
  sample_world altman_graph
    [altman_passage; microsoft_passage; openai_passage]
    [altman_passage].

Definition depth_options (d : nat) : RetrievalOptions :=
  {| opt_topK := Some (number 2); opt_graphDepth := Some (number d);
     opt_includeGraphPaths := None |}.

(** Following the specification (4.3, step 5): the passages of the graph
    expansion in the order in which the traversal discovered them. *)
Definition in_discovery_order (ids : list string) (docs : list Chunk) : list Chunk :=
  flat_map (fun id => filter (fun c => String.eqb (chunk_id c) id) docs) ids.

(** The test [vectorChunkIds.has(c.chunk_id)] of the merge step. *)
Definition among (cs : list Chunk) (c : Chunk) : bool :=
  existsb (String.eqb (chunk_id c)) (map chunk_id cs).

(** The pair a citation stands for. *)
Definition chunk_page (c : Chunk) : string * option nat :=
  (doc_id c, page_number c).

Definition cited_page (c : Citation) : string * option nat :=
  (c_doc_id c, c_page_number c).

(** The key extractCitations computes, as a function of the pair. *)
Definition page_key (p : string * option nat) : string :=
  (fst p ++ ":" ++ js_num_opt (snd p))%string.

Definition is_digit (c : ascii) : bool :=
  let n := nat_of_ascii c in Nat.leb 48 n && Nat.leb n 57.

Definition not_colon (c : ascii) : bool :=
  negb (Ascii.eqb c ":"%char).

(** Two passages of one page, then a passage of another page of the same
    document and a passage without a page. *)
Definition cited_passages : list Chunk :=
  [passage "c1" "doc-openai" "OpenAI" 3 "OpenAI develops ChatGPT.";
   passage "c7" "doc-openai" "OpenAI" 3 "OpenAI was founded in 2015.";
   passage "c8" "doc-openai" "OpenAI" 4 "OpenAI partnered with Microsoft.";
   {| chunk_id := "c9"; doc_id := "doc-openai"; source_title := None;
      page_number := None; text := Some "Undated note."; extraction := None |}].

(** What the [try] block of extractEntitiesAndRelationships makes of one
    invocation: the checked extraction, or the empty extraction that carries
    the message of whatever was thrown. *)
Definition extraction_of (JSON_parse : string -> Result Parsed) (i : Invocation)
    (timeout : N) : Extraction :=
  match race i timeout with
  | Throw e => empty_extraction (message e)
  | Ok content =>
      match JSON_parse content with
      | Throw e => empty_extraction (message e)
      | Ok parsed =>
          match structure_check parsed with
          | Throw e => empty_extraction (message e)
          | Ok x => x
          end
      end
  end.

Definition has_text (c : Chunk) : bool :=
  match text c with
  | Some _ => true
  | None => false
  end.

Definition prompt_of (c : Chunk) : list string :=
  match text c with
  | Some t => [extraction_prompt t]
  | None => []
  end.

(** The extraction extractFromChunks attaches to a chunk, when [calls]
    invocations of the model came before. *)
Definition attached (JSON_parse : string -> Result Parsed)
    (model : nat -> string -> Invocation) (calls : nat) (c : Chunk) : Extraction :=
  match text c with
  | Some t => extraction_of JSON_parse (model calls (extraction_prompt t)) 45000
  | None => empty_extraction (message (TypeError_read "undefined" "substring"))
  end.

(** The records extractFromChunks builds for the chunks, in order. *)
Fixpoint attached_all (JSON_parse : string -> Result Parsed)
    (model : nat -> string -> Invocation) (calls : nat) (chunks : list Chunk)
  : list Chunk :=
  match chunks with
  | [] => []
  | c :: rest =>
      with_extraction c (attached JSON_parse model calls c)
      :: attached_all JSON_parse model (calls + length (prompt_of c)) rest
  end.

(** The number of invocations extractFromChunks has made when it reaches the
    chunk at position [i]: one for each earlier chunk that has a text. *)
Definition calls_before (chunks : list Chunk) (i : nat) : nat :=
  length (flat_map prompt_of (firstn i chunks)).

(** A parser for the samples: it knows three well-formed texts. *)
Definition sample_parse (content : string) : Result Parsed :=
  if String.eqb content "{}" then Ok (PObject Falsy Falsy None)
  else if String.eqb content "null" then Ok PNull
  else if String.eqb content "5" then Ok PPrimitive
  else Throw (Error "Unexpected end of JSON input").

(** A model that is too slow on its second call and truncates its third
    answer. *)
Definition flaky_model (calls : nat) (prompt : string) : Invocation :=
  match calls with
  | 0 => {| elapsed := 1200; outcome := Ok "{}" |}
  | 1 => {| elapsed := 60000; outcome := Ok "{}" |}
  | 2 => {| elapsed := 900; outcome := Ok "{" |}
  | _ => {| elapsed := 700; outcome := Ok "null" |}
  end.

Definition flaky_world : World :=
  {| config := {| topK := 5; graphTraversalDepth := 2 |};
     neo4j_fault := None; driver := true; graph := empty_graph;
     rejects := strict_store; foreign := no_foreign; issued := [];
     mongo_fault := None; client := true; db := true;
     collection := []; nearest := ranked [];
     embedQuery := fun t => Ok (EmbeddingOf t);
     extraction_model := flaky_model;
     answer_model := too_late "Sam Altman is the CEO of OpenAI.";
     invocations := [];
     now := "2024-01-01T00:00:00.000Z" |}.

Definition textless_passage : Chunk :=
  {| chunk_id := "c0"; doc_id := "doc-openai"; source_title := None;
     page_number := None; text := None; extraction := None |}.

(** The corpus of [altman_world], not yet connected, with an answer model
    that does not complete in time. *)
Definition slow_world : World :=
  {| config := {| topK := 5; graphTraversalDepth := 2 |};
     neo4j_fault := None; driver := false; graph := altman_graph;
     rejects := strict_store; foreign := no_foreign; issued := [];
     mongo_fault := None; client := false; db := false;
     collection := [altman_passage; microsoft_passage; openai_passage];
     nearest := ranked [altman_passage];
     embedQuery := fun t => Ok (EmbeddingOf t);
     extraction_model := fun _ _ => {| elapsed := 10; outcome := Ok "{}" |};
     answer_model := too_late "Sam Altman is the CEO of OpenAI.";
     invocations := [];
     now := "2024-01-01T00:00:00.000Z" |}.

Definition default_query : QueryOptions :=
  {| q_topK := None; q_graphDepth := None; q_verbose := Some false |}.

(** The options queryGraphRAG passes to the prompt builder. *)
Definition answer_prompt_options (graphDepth : Value) : PromptOptions :=
  {| includeChunkText := None;
     includeGraphPaths := Some (above_zero graphDepth);
     includeProvenance := Some false;
     maxChunks := Some 2;
     maxGraphPaths := Some 3 |}.

(** The key under which expandViaGraph remembers a discovered entity. *)
Definition entity_key (e : GraphEntity) : string :=
  (js_str (ge_type e) ++ ":" ++ js_str (ge_name e))%string.

(** An extraction that passes validateExtraction. *)
Definition valid_extraction : Extraction :=
  {| entities := Some [an_entity "Sam Altman" "Person"; an_entity "OpenAI" "Company"];
     relationships :=
       Some [{| r_from := Some "Sam Altman"; r_from_type := Some "Person";
                r_type := Some "CEO_OF";
                r_to := Some "OpenAI"; r_to_type := Some "Company" |}];
     error := None |}.

(** The corpus of [altman_world] with a semantic index that finds nothing. *)
Definition silent_world : World :=
  sample_world altman_graph
    [altman_passage; microsoft_passage; openai_passage] [].

(** The corpus of [altman_world] behind a graph store that cannot be reached. *)
Definition unreachable_graph_world : World :=
  {| config := {| topK := 5; graphTraversalDepth := 2 |};
     neo4j_fault := Some "connect ECONNREFUSED 127.0.0.1:7687";
     driver := true; graph := altman_graph;
     rejects := strict_store; foreign := no_foreign; issued := [];
     mongo_fault := None; client := true; db := true;
     collection := [altman_passage; microsoft_passage; openai_passage];
     nearest := ranked [altman_passage];
     embedQuery := fun t => Ok (EmbeddingOf t);
     extraction_model := fun _ _ => {| elapsed := 10; outcome := Ok "{}" |};
     answer_model := in_time "Sam Altman is the CEO of OpenAI.";
     invocations := [];
     now := "2024-01-01T00:00:00.000Z" |}.

(** The scenario of the specification: two passages that mention Sam Altman
    are the semantic matches. *)
Definition altman_interview : Chunk :=
  passage "v2" "doc-altman" "Sam_Altman" 2 "In an interview Sam Altman spoke about AI.".

Definition scenario_world : World :=
  sample_world altman_graph
    [altman_passage; altman_interview; openai_passage; microsoft_passage]
    [altman_passage; altman_interview].

(** ** Notions used in the further properties *)

(** The world after the queries [qs] were sent and left the graph as it was. *)
Definition logged (qs : list Cypher) (w : World) : World :=
  with_neo4j (driver w) (graph w) (issued w ++ qs) w.

(** The text is empty or a numeral: spliced into the traversal, it gives a
    query of the pattern. *)
Definition plain (depth : string) : bool :=
  match range_of depth with
  | Some _ => true
  | None => false
  end.

(** The queries that only read the graph: the listing of the names, and the
    traversals of the pattern. *)
Definition is_read (q : Cypher) : bool :=
  match q with
  | MatchRelated _ depth _ => plain depth
  | MatchNames => true
  | _ => false
  end.

(** [w'] differs from [w] by read queries added to the log, and by nothing
    else. *)
Definition reads (w w' : World) : Prop :=
  exists qs, w' = logged qs w /\ forallb is_read qs = true.

(** [w'] differs from [w] in the connection variables, the query log and the
    invocation log at most: the contents of both stores are the same. *)
Definition same_contents (w w' : World) : Prop :=
  graph w' = graph w /\ collection w' = collection w.

(** [w'] has the chunk store connection of [w]. *)
Definition same_client (w w' : World) : Prop :=
  client w' = client w /\ db w' = db w /\ mongo_fault w' = mongo_fault w.

(** A computation whose final world is always related to its initial one. *)
Definition respects {A} (R : World -> World -> Prop) (m : M A) : Prop :=
  forall w, R w (snd (m w)).


(** Relationship [e] joins [v] and [u], in one direction or the other. *)
Definition hop (e : Edge) (v u : nat) : Prop :=
  (e_src e = v /\ e_dst e = u) \/ (e_dst e = v /\ e_src e = u).

(** [k] relationships of the graph, one after the other, lead from the node
    at position [v] to the node at position [u]. *)
Inductive joined (g : Graph) : nat -> nat -> nat -> Prop :=
| joined_hop v u e :
    In e (edges g) -> hop e v u -> joined g v u 1
| joined_more v x u k e :
    In e (edges g) -> hop e v x -> joined g x u k -> joined g v u (S k).

(** The same between a node named [from] and a node named [to]. *)
Definition joins (g : Graph) (from to : option string) (k : nat) : Prop :=
  exists s ns t nt,
    nth_error (nodes g) s = Some ns /\ n_name ns = from
    /\ nth_error (nodes g) t = Some nt /\ n_name nt = to
    /\ joined g s t k.

(** The entity is one of the nodes of the graph, with its first label. *)
Definition of_node (g : Graph) (e : GraphEntity) : Prop :=
  exists n,
    In n (nodes g)
    /\ ge_name e = n_name n /\ ge_type e = hd_error (labels n)
    /\ ge_chunk_id e = n_chunk_id n /\ ge_doc_id e = n_doc_id n.

(** What expandViaGraph has collected is in the graph, within [d] hops. *)
Definition expansion_sound (g : Graph) (d : nat) (st : Expansion) : Prop :=
  (forall p, In p (paths st) ->
     joins g (gp_from p) (gp_to p) (gp_depth p) /\ 1 <= gp_depth p <= d)
  /\ (forall e, In e (relatedEntities st) -> of_node g e).

(** The names of the nodes that have one. *)
Definition node_names (g : Graph) : list string :=
  flat_map (fun n => match n_name n with Some s => [s] | None => [] end) (nodes g).

(** The name occurs in the text of one of the passages, letter case apart. *)
Definition mentioned_in (chunks : list Chunk) (s : string) : Prop :=
  exists c t,
    In c chunks /\ text c = Some t
    /\ includes (toLowerCase s) (toLowerCase t) = true.


(** The names collected from the texts: no name twice, each one of the known
    names, each occurring in a passage. *)
Definition resolved (known : list string) (chunks : list Chunk)
    (names : list (option string)) : Prop :=
  NoDup names
  /\ forall name, In name names ->
       exists s, name = Some s /\ In s known /\ mentioned_in chunks s.


(** What identifies a node for MERGE: its labels and its name; and a
    relationship: its end nodes and its type. *)
Definition node_key (n : Node) : list string * option string :=
  (labels n, n_name n).

Definition edge_key (e : Edge) : nat * string * nat :=
  (e_src e, e_label e, e_dst e).

(** The graph after the store has run the queries [qs]. *)
Definition run (other : Foreign) (qs : list Cypher) (g : Graph) : Graph :=
  fold_left (fun g q => fst (execute other q g)) qs g.

Definition is_upsert (q : Cypher) : bool :=
  match q with
  | MergeNode _ _ _ => true
  | MergeRelationship _ _ _ _ _ _ => true
  | _ => false
  end.

(** The query with another provenance. *)
Definition restamp (pr : Provenance) (q : Cypher) : Cypher :=
  match q with
  | MergeNode label name _ => MergeNode label name pr
  | MergeRelationship fl tl rl fn tn _ => MergeRelationship fl tl rl fn tn pr
  | _ => q
  end.

Definition present (label : string) (name : option string) (g : Graph) : bool :=
  existsb (node_matches label name) (nodes g).

Definition linked (label : string) (es : list Edge) (pair : nat * nat) : bool :=
  existsb (edge_matches (fst pair) label (snd pair)) es.

(** Everything the upsert [q] would create is in the graph already. *)
Definition settled (q : Cypher) (g : Graph) : bool :=
  match q with
  | MergeNode label name _ => present label name g
  | MergeRelationship fl tl rl fn tn _ =>
      present fl fn g && present tl tn g
      && forallb (linked rl (edges g))
           (list_prod (positions (node_matches fl fn) (nodes g) 0)
                      (positions (node_matches tl tn) (nodes g) 0))
  | _ => true
  end.

Definition provenance_of (n : Node) : option string * option string * option string :=
  (n_chunk_id n, n_doc_id n, n_extracted_at n).

Definition stamp_of (pr : Provenance) : option string * option string * option string :=
  (Some (p_chunk_id pr), Some (p_doc_id pr), Some (p_extracted_at pr)).

(** There are nodes with this label and name, and all of them carry the
    provenance [pr]. *)
Definition stamped (label : string) (name : option string) (pr : Provenance)
    (g : Graph) : Prop :=
  present label name g = true
  /\ forall n, In n (nodes g) -> node_matches label name n = true ->
               provenance_of n = stamp_of pr.


(** The query is an upsert, and stamps nodes with [pr] if it stamps nodes at
    all. *)
Definition stamps_with (pr : Provenance) (q : Cypher) : Prop :=
  match q with
  | MergeNode _ _ pr' => pr' = pr
  | MergeRelationship _ _ _ _ _ _ => True
  | _ => False
  end.


(** ** neo4jClient.js: getGraphStats *)

Record GraphStats := {
  gs_nodes : nat;
  gs_relationships : nat;
  gs_nodeTypes : nat
}.

(** The one record of
    [MATCH (n) OPTIONAL MATCH ()-[r]->()
     RETURN count(DISTINCT n), count(DISTINCT r), count(DISTINCT labels(n))]:
    with no node there is no row to count in, and the three counts are 0. *)
Definition graph_stats (g : Graph) : GraphStats :=
  {| gs_nodes := length (nodes g);
     gs_relationships := match nodes g with
                         | [] => 0
                         | _ :: _ => length (edges g)
                         end;
     gs_nodeTypes :=
       length (nodup (list_eq_dec string_dec) (map labels (nodes g))) |}.

(** The query has no parameter and writes nothing.  It is not one of the
    queries of [Cypher], which the store may refuse and the log [issued]
    records: it fails only when the server cannot be reached. *)
Definition getGraphStats : M GraphStats :=
  getSession ;;
  try_finally
    (fun w =>
       match neo4j_fault w with
       | Some m => (Throw (Error m), w)
       | None => (Ok (graph_stats (graph w)), w)
       end)
    session_close.

(** ** extractionPipeline.js *)

(** The options.  The script passes what [parseInt] has made of its
    arguments for the limit and for the batch size. *)
Record PipelineOptions := {
  po_limit : option Num;
  po_docId : option string;
  po_batchSize : option Num
}.

Record PipelineStats := {
  chunks_processed : nat;
  entities_extracted : nat;
  relationships_extracted : nat;
  graph_nodes : nat;
  graph_relationships : nat
}.

Record PipelineResult := {
  success : bool;
  stats : option PipelineStats
}.

(** [collection.find(docId ? { doc_id: docId } : {}).limit(limit || 0)]:
    NaN and 0 are falsy, a limit of 0 is no limit, and a negative limit asks
    for as many documents in a single batch, which holds 101 documents when
    no batch size is set. *)
Definition find_limited (docId : option string) (limit : option Num)
    (docs : list Chunk) : list Chunk :=
  let found :=
    if truthy docId
    then filter (fun c => option_eqb (Some (doc_id c)) docId) docs
    else docs in
  match limit with
  | Some (Int (Zpos n)) => firstn (Pos.to_nat n) found
  | Some (Int (Zneg n)) => firstn (Nat.min (Pos.to_nat n) 101) found
  | _ => found
  end.

(** [x?.length > 0]. *)
Definition length_positive {A} (x : option (list A)) : bool :=
  match x with
  | Some (_ :: _) => true
  | _ => false
  end.

(** [chunk.extraction && (chunk.extraction.entities?.length > 0
     || chunk.extraction.relationships?.length > 0)]. *)
Definition worth_storing (chunk : Chunk) : bool :=
  match extraction chunk with
  | Some x => length_positive (entities x) || length_positive (relationships x)
  | None => false
  end.

(** [for (const chunk of extractedChunks)], with the two running totals. *)
Fixpoint store_each (extractedChunks : list Chunk) (totals : Counts) : M Counts :=
  match extractedChunks with
  | [] => ret totals
  | chunk :: rest =>
      match extraction chunk with
      | Some x =>
          if worth_storing chunk
          then
            result <- storeExtraction x (chunk_id chunk) (doc_id chunk) ;;
            store_each rest
              {| n_entities := n_entities totals + n_entities result;
                 n_relationships := n_relationships totals + n_relationships result |}
          else store_each rest totals
      | None => store_each rest totals
      end
  end.

Section Pipeline.

Variable JSON_parse : string -> Result Parsed.

(** [for (let i = 0; i < chunks.length; i += batchSize)], run for at most
    [fuel] iterations: [None] when the loop has not ended by then. *)
Fixpoint process_batches (fuel : nat) (chunks : list Chunk) (batchSize i : Num)
    (totals : Counts) : M (option Counts) :=
  match fuel with
  | 0 => ret None
  | S fuel' =>
      if num_lt i (length chunks)
      then
        let batch := slice chunks i (num_add i batchSize) in
        extractedChunks <- extractFromChunks JSON_parse batch ;;
        totals' <- store_each extractedChunks totals ;;
        process_batches fuel' chunks batchSize (num_add i batchSize) totals'
      else ret (Some totals)
  end.

(** The [try] block of extractEntitiesFromChunks. *)
Definition pipeline_body (fuel : nat) (options : PipelineOptions)
  : M (option PipelineResult) :=
  let batchSize := default (Int 10) (po_batchSize options) in
  connectMongoDB ;;
  connectNeo4j ;;
  collection <- getCollection ;;
  chunks <- cursor_toArray
              (find_limited (po_docId options) (po_limit options) collection) ;;
  match chunks with
  | [] => ret (Some {| success := false; stats := None |})
  | _ :: _ =>
      totals <- process_batches fuel chunks batchSize (Int 0)
                  {| n_entities := 0; n_relationships := 0 |} ;;
      match totals with
      | None => ret None
      | Some totals =>
          graphStats <- getGraphStats ;;
          ret (Some {| success := true;
                       stats :=
                         Some {| chunks_processed := length chunks;
                                 entities_extracted := n_entities totals;
                                 relationships_extracted := n_relationships totals;
                                 graph_nodes := gs_nodes graphStats;
                                 graph_relationships := gs_relationships graphStats |} |})
      end
  end.

(** extractEntitiesFromChunks: [None] when the batch loop has not ended
    within [fuel] iterations (nothing after the loop has run then, the
    [finally] block included); otherwise what the call returns or throws,
    after the [catch] that rethrows and the [finally] that closes both
    connections. *)
Definition extractEntitiesFromChunks (fuel : nat) (options : PipelineOptions)
  : World -> option (Result PipelineResult) * World :=
  fun w =>
    let '(r, w1) := pipeline_body fuel options w in
    match r with
    | Ok None => (None, w1)
    | Ok (Some result) =>
        let '(r2, w2) := try_finally (ret result) (closeMongoDB ;; closeNeo4j) w1 in
        (Some r2, w2)
    | Throw error =>
        let '(r2, w2) :=
          try_finally (try_catch (throw error) (fun error => throw error))
                      (closeMongoDB ;; closeNeo4j) w1 in
        (Some r2, w2)
    end.

Definition extractFromDocument (fuel : nat) (docId : option string) :=
  extractEntitiesFromChunks fuel
    {| po_limit := None; po_docId := docId; po_batchSize := None |}.

Definition extractFromSample (fuel : nat) (limit : option Num) :=
  extractEntitiesFromChunks fuel
    {| po_limit := Some (default (Int 10) limit); po_docId := None;
       po_batchSize := Some (Int 5) |}.

End Pipeline.

(** Both stores connected, nothing else changed. *)
Definition after_connecting (w : World) : World :=
  with_neo4j true (graph w) (issued w) (with_mongo true true w).

(** The two worlds differ in the log of invocations at most. *)
Definition same_but_invocations (w1 w2 : World) : Prop :=
  with_invocations [] w1 = with_invocations [] w2.

(** The computation neither reads nor writes the log of invocations. *)
Definition ignores_invocations {A} (m : M A) : Prop :=
  forall ps w, m (with_invocations ps w) = (fst (m w), with_invocations ps (snd (m w))).


(** The extraction model is the same in both worlds. *)
Definition same_extractor (w w' : World) : Prop :=
  extraction_model w' = extraction_model w.

(** What a computation returns or throws, for a loop that may not have
    ended. *)
Definition ended {A} (r : Result A) : Result (option A) :=
  match r with
  | Throw e => Throw e
  | Ok a => Ok (Some a)
  end.




(** The answer of a model that has found one entity, and a parser that
    reads it. *)
Definition altman_json : string :=
  ("{" ++ dq ++ "entities" ++ dq ++ ":[{" ++ json_pair "name" "Sam Altman" ++ ","
   ++ json_pair "type" "Person" ++ "}]," ++ dq ++ "relationships" ++ dq ++ ":[]}")%string.

Definition altman_parse (content : string) : Result Parsed :=
  if String.eqb content altman_json
  then Ok (PObject (Items [an_entity "Sam Altman" "Person"]) (Items []) None)
  else sample_parse content.

(** Three passages to extract from, an empty graph, no connection yet; the
    model finds Sam Altman in every passage. *)
Definition reader_world : World :=
  {| config := {| topK := 5; graphTraversalDepth := 2 |};
     neo4j_fault := None; driver := false; graph := empty_graph;
     rejects := strict_store; foreign := no_foreign; issued := [];
     mongo_fault := None; client := false; db := false;
     collection := [altman_passage; microsoft_passage; openai_passage];
     nearest := ranked [altman_passage];
     embedQuery := fun t => Ok (EmbeddingOf t);
     extraction_model := fun _ _ => {| elapsed := 10; outcome := Ok altman_json |};
     answer_model := in_time "Sam Altman is the CEO of OpenAI.";
     invocations := [];
     now := "2024-01-01T00:00:00.000Z" |}.

(** The same, with a model that needs a minute for every answer. *)
Definition stalled_world : World :=
  {| config := {| topK := 5; graphTraversalDepth := 2 |};
     neo4j_fault := None; driver := false; graph := empty_graph;
     rejects := strict_store; foreign := no_foreign; issued := [];
     mongo_fault := None; client := false; db := false;
     collection := [altman_passage; microsoft_passage; openai_passage];
     nearest := ranked [altman_passage];
     embedQuery := fun t => Ok (EmbeddingOf t);
     extraction_model := fun _ _ => {| elapsed := 60000; outcome := Ok altman_json |};
     answer_model := in_time "Sam Altman is the CEO of OpenAI.";
     invocations := [];
     now := "2024-01-01T00:00:00.000Z" |}.

Definition all_chunks (batchSize : Z) : PipelineOptions :=
  {| po_limit := None; po_docId := None; po_batchSize := Some (Int batchSize) |}.


(** ** api-server.js *)

(** The body of a request, as the handler destructures it: the query, a
    string when it is there, and whatever values the body holds under
    [topK] and [graphDepth]. *)
Record QueryBody := {
  b_query : option string;
  b_topK : option Value;
  b_graphDepth : option Value
}.

Record QueryStats := {
  s_vectorChunks : nat;
  s_graphChunks : nat;
  s_totalChunks : nat;
  s_graphPathCount : nat
}.

Record QueryData := {
  d_query : string;
  d_answer : string;
  d_citations : list Citation;
  d_graphPaths : list GraphPath;
  d_stats : QueryStats
}.

Inductive Response :=
| Success (data : QueryData)   (* res.json({ success: true, data }) *)
| BadRequest (error : string)  (* res.status(400).json({ error }) *)
| Failure (error : string).    (* res.status(500).json({ success: false, error }) *)

(** [ensureConnected()]; the module variable [connected] is passed in and
    returned. *)
Definition ensureConnected (connected : bool) : M bool :=
  if connected then ret connected
  else connectMongoDB ;; connectNeo4j ;; ret true.

(** [error.message || 'Internal server error']. *)
Definition message_or_default (error : exn) : string :=
  if truthy (Some (message error)) then message error
  else "Internal server error".

(** The handler of POST /api/query: the response it sends and the value of
    [connected] when it is done.  An error thrown by ensureConnected leaves
    [connected] as it was. *)
Definition post_query (body : QueryBody) (connected : bool)
  : World -> (Response * bool) * World :=
  fun w =>
    let '(r, w1) := ensureConnected connected w in
    match r with
    | Throw error => ((Failure (message_or_default error), connected), w1)
    | Ok connected =>
        let topK := default (number 2) (b_topK body) in
        let graphDepth := default (number 1) (b_graphDepth body) in
        match b_query body with
        | Some (String _ _ as query) =>
            let '(r, w2) :=
              queryGraphRAG query
                {| q_topK := Some topK; q_graphDepth := Some graphDepth;
                   q_verbose := Some true |} w1 in
            match r with
            | Throw error => ((Failure (message_or_default error), connected), w2)
            | Ok result =>
                ((Success
                    {| d_query := a_query result;
                       d_answer := answer result;
                       d_citations := citations result;
                       d_graphPaths := a_graphPaths result;
                       d_stats :=
                         {| s_vectorChunks :=
                              length (vectorChunks (retrievalResults result));
                            s_graphChunks :=
                              length (graphChunks (retrievalResults result));
                            s_totalChunks :=
                              length (allChunks (retrievalResults result));
                            s_graphPathCount := length (a_graphPaths result) |} |},
                  connected), w2)
            end
        | _ => ((BadRequest "Query is required", connected), w1)
        end
    end.

(** The chunk store has become reachable. *)
Definition repaired (w : World) : World :=
  {| config := config w;
     neo4j_fault := neo4j_fault w; driver := driver w; graph := graph w;
     rejects := rejects w; foreign := foreign w; issued := issued w;
     mongo_fault := None; client := client w; db := db w;
     collection := collection w; nearest := nearest w;
     embedQuery := embedQuery w; extraction_model := extraction_model w;
     answer_model := answer_model w; invocations := invocations w;
     now := now w |}.


(** The sample corpus behind a chunk store that cannot be reached; nothing is
    connected yet. *)
Definition offline_world : World :=
  {| config := {| topK := 5; graphTraversalDepth := 2 |};
     neo4j_fault := None; driver := false; graph := altman_graph;
     rejects := strict_store; foreign := no_foreign; issued := [];
     mongo_fault := Some "connect ECONNREFUSED 127.0.0.1:27017";
     client := false; db := false;
     collection := [altman_passage; microsoft_passage; openai_passage];
     nearest := ranked [altman_passage];
     embedQuery := fun t => Ok (EmbeddingOf t);
     extraction_model := fun _ _ => {| elapsed := 10; outcome := Ok "{}" |};
     answer_model := in_time "Sam Altman is the CEO of OpenAI.";
     invocations := [];
     now := "2024-01-01T00:00:00.000Z" |}.

Definition altman_request : QueryBody :=
  {| b_query := Some "How is Sam Altman related to Microsoft?";
     b_topK := None; b_graphDepth := Some (number 2) |}.


(** Evidence without graph part, for the samples of the prompt. *)
Definition evidence (q : string) (chunks : list Chunk) : Retrieval :=
  {| query := q; vectorChunks := chunks; graphEntities := [];
     graphChunks := []; allChunks := chunks; graphPaths := [] |}.


(** [w'] has the chunk store of [w]: the same client and the same collection. *)
Definition same_chunk_store (w w' : World) : Prop :=
  client w' = client w /\ collection w' = collection w.


(** Every node with this label and name is as MERGE created it: it has this
    one label and no provenance. *)
Definition unstamped (label : string) (name : option string) (g : Graph) : Prop :=
  forall n, In n (nodes g) -> node_matches label name n = true ->
            n = bare_node label name.

(** The query is an upsert, of no node with this label and name. *)
Definition upserts_other_node (label : string) (name : option string) (q : Cypher)
  : Prop :=
  match q with
  | MergeNode label' name' _ => ~ (label' = label /\ name' = name)
  | MergeRelationship _ _ _ _ _ _ => True
  | _ => False
  end.


(** ** queryEngine.js: queryVectorOnly *)

(** [queryGraphRAG(query, { ...options, graphDepth: 0 })]. *)
Definition queryVectorOnly (query : string) (options : QueryOptions) : M Answer :=
  queryGraphRAG query
    {| q_topK := q_topK options; q_graphDepth := Some (number 0);
       q_verbose := q_verbose options |}.

(** ** mongodbClient.js: getChunksByDocId, deleteDocumentChunks *)

Definition with_collection (docs : list Chunk) (w : World) : World :=
  {| config := config w;
     neo4j_fault := neo4j_fault w; driver := driver w; graph := graph w;
     rejects := rejects w; foreign := foreign w; issued := issued w;
     mongo_fault := mongo_fault w; client := client w; db := db w;
     collection := docs; nearest := nearest w;
     embedQuery := embedQuery w; extraction_model := extraction_model w;
     answer_model := answer_model w; invocations := invocations w;
     now := now w |}.

(** [collection.find({ doc_id: docId }).toArray()]. *)
Definition getChunksByDocId (docId : string) : M (list Chunk) :=
  docs <- getCollection ;;
  cursor_toArray (filter (fun c => String.eqb (doc_id c) docId) docs).

(** [collection.deleteMany({ doc_id: docId })]; the result is read here for
    its [deletedCount]. *)
Definition deleteDocumentChunks (docId : string) : M nat :=
  docs <- getCollection ;;
  fun w =>
    match mongo_fault w with
    | Some m => (Throw (Error m), w)
    | None =>
        (Ok (length (filter (fun c => String.eqb (doc_id c) docId) docs)),
         with_collection
           (filter (fun c => negb (String.eqb (doc_id c) docId)) (collection w)) w)
    end.

(** The value, when there is one, is spliced as nothing or as a numeral. *)
Definition plain_depth (depth : option Value) : bool :=
  match depth with
  | Some v => plain (spliced v)
  | None => true
  end.

(** [w'] differs from [w] by queries added to the log and by what they have
    made of the graph, and by nothing else. *)
Definition queried (w w' : World) : Prop :=
  exists g qs, w' = with_neo4j (driver w) g (issued w ++ qs) w.

(** The embedding of the query is obtained, and the chunk store accepts the
    search for it with the limit [limit]. *)
Definition searchable (q : string) (limit : option Value) (w : World) : Prop :=
  exists emb found,
    embedQuery w q = Ok emb
    /\ nearest w emb (search_limit limit w) (collection w) = Ok found.

(** [w'] holds the chunks of [w]. *)
Definition same_collection (w w' : World) : Prop :=
  collection w' = collection w.

(** The batch size is a positive integer. *)
Definition positive_size (x : Num) : Prop :=
  match x with
  | Int z => (0 < z)%Z
  | NaN => False
  end.

(** A school whose name starts with a capital E acute (code unit 201); the
    node has the name in lower case (code unit 233). *)
Definition ecole_name : string := String (ascii_of_nat 233) "cole normale".

Definition ecole_passage : Chunk :=
  passage "e1" "doc-ecole" "Ecole" 1
    (String (ascii_of_nat 201) "COLE NORMALE was founded in 1794.").

Definition ecole_world : World :=
  sample_world
    {| nodes := [linked_node "Company" ecole_name "e1" "doc-ecole"]; edges := [] |}
    [ecole_passage] [ecole_passage].

(** * Properties *)

(** ** Sanitized labels (createRelationship) *)

Lemma underscore_is_word : is_word_unit underscore = true.
Proof. reflexivity. Qed.

Lemma replace_non_word_word_only (s : string) :
  all_units is_word_unit (replace_non_word s) = true.
Proof.
  induction s as [|c s IH]; simpl; [reflexivity|].
  rewrite IH, andb_true_r.
  destruct (is_word_unit c) eqn:Hc; [exact Hc | exact underscore_is_word].
Qed.

Lemma replace_non_word_length (s : string) :
  String.length (replace_non_word s) = String.length s.
Proof. induction s as [|c s IH]; simpl; congruence. Qed.

Lemma replace_non_word_get (s : string) (i : nat) :
  String.get i (replace_non_word s)
  = option_map (fun c => if is_word_unit c then c else underscore) (String.get i s).
Proof.
  revert i; induction s as [|c s IH]; intros [|i]; simpl; auto.
Qed.

Lemma replace_non_word_same (s t : string) :
  same_word_units s t = true -> replace_non_word s = replace_non_word t.
Proof.
  revert t; induction s as [|a s IH]; intros [|b t]; simpl; try discriminate; auto.
  intros H. apply andb_true_iff in H as [Hab Hst].
  rewrite (IH _ Hst). f_equal.
  apply orb_true_iff in Hab as [Heq | Hout].
  - apply Ascii.eqb_eq in Heq. now subst.
  - apply andb_true_iff in Hout as [Ha Hb].
    apply negb_true_iff in Ha, Hb. now rewrite Ha, Hb.
Qed.

Lemma session_run_issued (q : Cypher) (w : World) :
  issued (snd (session_run q w)) = issued w ++ [q].
Proof.
  unfold session_run.
  destruct (neo4j_fault w); [reflexivity|].
  destruct (rejects w q); [reflexivity|].
  destruct (execute (foreign w) q (graph w)); reflexivity.
Qed.

Lemma createRelationship_connected (ft rt tl : string) (fn tn : option string)
    (pr : Provenance) (w : World) :
  driver w = true ->
  issued (snd (createRelationship (Some ft) fn (Some rt) (Some tl) tn pr w))
  = issued w ++ [MergeRelationship (replace_non_word ft) (replace_non_word tl)
                   (replace_non_word rt) fn tn pr].
Proof.
  intros Hd.
  unfold createRelationship, bind, try_finally, getSession, lift, session_close, ret.
  cbn [sanitizeLabel]. rewrite Hd.
  match goal with |- context [session_run ?q w] =>
    pose proof (session_run_issued q w) as Hq;
    destruct (session_run q w) as [[e|rows] w1]; exact Hq
  end.
Qed.

(** C9.  Whatever type strings createRelationship is given, the query it
    sends carries, for the two node labels and the relationship type, the
    given strings with every code unit outside [a-zA-Z0-9_] replaced by an
    underscore: the labels have the length of the given strings, consist of
    word characters only, and two type strings that differ only in characters
    outside the class give the same label. *)
Theorem createRelationship_sanitizes_labels :
  forall (fromType relType toType : string) (fromName toName : option string)
         (properties : Provenance) (w : World),
    driver w = true ->
    exists fromLabel toLabel relLabel,
      issued (snd (createRelationship (Some fromType) fromName (Some relType)
                     (Some toType) toName properties w))
      = issued w ++ [MergeRelationship fromLabel toLabel relLabel fromName toName properties]
      /\ fromLabel = replace_non_word fromType
      /\ toLabel = replace_non_word toType
      /\ relLabel = replace_non_word relType
      /\ (forall s,
            all_units is_word_unit (replace_non_word s) = true
            /\ String.length (replace_non_word s) = String.length s
            /\ (forall i, String.get i (replace_non_word s)
                          = option_map (fun c => if is_word_unit c then c else underscore)
                                       (String.get i s))
            /\ (forall t, same_word_units s t = true
                          -> replace_non_word s = replace_non_word t)).
Proof.
  intros ft rt tl fn tn pr w Hd.
  exists (replace_non_word ft), (replace_non_word tl), (replace_non_word rt).
  split; [now apply createRelationship_connected|].
  repeat split; auto using replace_non_word_word_only, replace_non_word_length,
    replace_non_word_get, replace_non_word_same.
Qed.

(** Three type strings with a backquote, a blank and braces. *)
Lemma createRelationship_sanitizes_labels_witness :
  exists fromLabel toLabel relLabel,
    issued (snd (createRelationship (Some "Per`son") (Some "Sam Altman")
                   (Some "CEO OF") (Some "Company{}") (Some "OpenAI")
                   {| p_chunk_id := "c1"; p_doc_id := "d1";
                      p_extracted_at := "2024-01-01T00:00:00.000Z" |}
                   (sample_world empty_graph [] [])))
    = [MergeRelationship fromLabel toLabel relLabel (Some "Sam Altman") (Some "OpenAI")
         {| p_chunk_id := "c1"; p_doc_id := "d1";
            p_extracted_at := "2024-01-01T00:00:00.000Z" |}]
    /\ fromLabel = "Per_son" /\ toLabel = "Company__" /\ relLabel = "CEO_OF".
Proof.
  destruct (createRelationship_sanitizes_labels "Per`son" "CEO OF" "Company{}"
              (Some "Sam Altman") (Some "OpenAI")
              {| p_chunk_id := "c1"; p_doc_id := "d1";
                 p_extracted_at := "2024-01-01T00:00:00.000Z" |}
              (sample_world empty_graph [] []) eq_refl)
    as (fl & tl & rl & Hq & Hf & Ht & Hr & _).
  exists fl, tl, rl. subst fl tl rl. split; [exact Hq | repeat split].
Defined.

(** ** What storeExtraction sends to the graph store *)

Lemma sent_app (qs1 qs2 : list Cypher) (w : World) :
  sent (qs1 ++ qs2) w = sent qs2 (sent qs1 w).
Proof. unfold sent. apply fold_left_app. Qed.

Lemma sent_frame (qs : list Cypher) (w : World) :
  driver (sent qs w) = driver w
  /\ neo4j_fault (sent qs w) = neo4j_fault w
  /\ rejects (sent qs w) = rejects w
  /\ now (sent qs w) = now w
  /\ issued (sent qs w) = issued w ++ qs.
Proof.
  revert w; induction qs as [|q qs IH]; intros w.
  - cbn. now rewrite app_nil_r.
  - change (sent (q :: qs) w)
      with (sent qs (with_neo4j (driver w) (fst (execute (foreign w) q (graph w)))
                       (issued w ++ [q]) w)).
    destruct (IH (with_neo4j (driver w) (fst (execute (foreign w) q (graph w)))
                    (issued w ++ [q]) w)) as (Hd & Hf & Hr & Hn & Hi).
    rewrite Hd, Hf, Hr, Hn, Hi. cbn. now rewrite <- app_assoc.
Qed.

Lemma session_run_accepted (q : Cypher) (w : World) :
  neo4j_fault w = None -> rejects w q = None ->
  session_run q w = (snd (execute (foreign w) q (graph w)), sent [q] w).
Proof.
  intros Hf Hr. unfold session_run, sent. cbn [fold_left]. rewrite Hf, Hr.
  destruct (execute (foreign w) q (graph w)); reflexivity.
Qed.

(** The four node upserts differ in the label only. *)
Lemma create_node_accepted (label : string) (name : option string) (pr : Provenance)
    (w : World) :
  driver w = true -> neo4j_fault w = None ->
  rejects w (MergeNode label name pr) = None ->
  forall create,
    create = (getSession ;;
              try_finally (result <- session_run (MergeNode label name pr) ;;
                           ret (first_node result)) session_close) ->
    (create ;; ret tt) w = (Ok tt, sent [MergeNode label name pr] w).
Proof.
  intros Hd Hf Hr create ->.
  unfold bind, try_finally, getSession, session_close, ret.
  rewrite Hd, (session_run_accepted _ _ Hf Hr). reflexivity.
Qed.

Lemma store_entity_accepted (pr : Provenance) (e : Entity) (w : World) :
  driver w = true -> neo4j_fault w = None ->
  (forall q, In q (entity_upsert pr e) -> rejects w q = None) ->
  store_entity pr e w = (Ok tt, sent (entity_upsert pr e) w).
Proof.
  intros Hd Hf Hr. unfold store_entity, entity_upsert in *.
  destruct (e_type e) as [t|]; [|reflexivity].
  cbn [existsb fixed_types] in *.
  destruct (String.eqb t "Person") eqn:EPerson.
  { apply String.eqb_eq in EPerson. subst t.
    apply create_node_accepted; auto. apply Hr. now left. }
  destruct (String.eqb t "Company") eqn:ECompany.
  { apply String.eqb_eq in ECompany. subst t.
    apply create_node_accepted; auto. apply Hr. now left. }
  destruct (String.eqb t "Product") eqn:EProduct.
  { apply String.eqb_eq in EProduct. subst t.
    apply create_node_accepted; auto. apply Hr. now left. }
  destruct (String.eqb t "Field") eqn:EField.
  { apply String.eqb_eq in EField. subst t.
    apply create_node_accepted; auto. apply Hr. now left. }
  reflexivity.
Qed.

Lemma store_entities_accepted (pr : Provenance) (es : list Entity) :
  forall (results : Counts) (w : World),
    driver w = true -> neo4j_fault w = None ->
    (forall q, In q (flat_map (entity_upsert pr) es) -> rejects w q = None) ->
    store_entities pr es results w
    = (Ok {| n_entities := n_entities results + length es;
             n_relationships := n_relationships results |},
       sent (flat_map (entity_upsert pr) es) w).
Proof.
  induction es as [|e es IH]; intros results w Hd Hf Hr.
  - cbn. rewrite Nat.add_0_r. now destruct results.
  - cbn [store_entities flat_map]. unfold bind.
    rewrite store_entity_accepted; auto.
    2:{ intros q Hq. apply Hr. cbn. apply in_or_app. now left. }
    destruct (sent_frame (entity_upsert pr e) w) as (Hd' & Hf' & Hr' & _).
    rewrite IH, sent_app.
    + cbn [n_entities n_relationships length]. now rewrite Nat.add_succ_r.
    + congruence.
    + congruence.
    + intros q Hq. rewrite Hr'. apply Hr. cbn. apply in_or_app. now right.
Qed.

Lemma createRelationship_accepted (pr : Provenance) (rel : Relationship) (w : World) :
  driver w = true -> neo4j_fault w = None ->
  typed_relationship rel = true ->
  (forall q, In q (relationship_upsert pr rel) -> rejects w q = None) ->
  exists r,
    createRelationship (r_from_type rel) (r_from rel) (r_type rel)
      (r_to_type rel) (r_to rel) pr w
    = (Ok r, sent (relationship_upsert pr rel) w).
Proof.
  intros Hd Hf Ht Hr. unfold typed_relationship, relationship_upsert in *.
  destruct (r_from_type rel) as [ft|]; [|discriminate].
  destruct (r_to_type rel) as [tl|]; [|discriminate].
  destruct (r_type rel) as [rt|]; [|discriminate].
  unfold createRelationship, bind, try_finally, getSession, lift, session_close, ret.
  cbn [sanitizeLabel]. rewrite Hd.
  rewrite (session_run_accepted _ _ Hf (Hr _ (or_introl eq_refl))).
  eexists. reflexivity.
Qed.

Lemma store_relationships_accepted (pr : Provenance) (rs : list Relationship) :
  forall (results : Counts) (w : World),
    driver w = true -> neo4j_fault w = None ->
    forallb typed_relationship rs = true ->
    (forall q, In q (flat_map (relationship_upsert pr) rs) -> rejects w q = None) ->
    store_relationships pr rs results w
    = (Ok {| n_entities := n_entities results;
             n_relationships := n_relationships results + length rs |},
       sent (flat_map (relationship_upsert pr) rs) w).
Proof.
  induction rs as [|rel rs IH]; intros results w Hd Hf Ht Hr.
  - cbn. rewrite Nat.add_0_r. now destruct results.
  - cbn [forallb] in Ht. apply andb_true_iff in Ht as [Ht1 Ht2].
    cbn [store_relationships flat_map]. unfold bind.
    destruct (createRelationship_accepted pr rel w Hd Hf Ht1) as [r ->].
    { intros q Hq. apply Hr. cbn. apply in_or_app. now left. }
    destruct (sent_frame (relationship_upsert pr rel) w) as (Hd' & Hf' & Hr' & _).
    rewrite IH, sent_app; auto; try congruence.
    + cbn [n_entities n_relationships length]. now rewrite Nat.add_succ_r.
    + intros q Hq. rewrite Hr'. apply Hr. cbn. apply in_or_app. now right.
Qed.

(** The run of storeExtraction when the store accepts what it is sent. *)
Lemma storeExtraction_accepted (x : Extraction) (chunkId docId : string) (w : World) :
  let pr := {| p_chunk_id := chunkId; p_doc_id := docId; p_extracted_at := now w |} in
  driver w = true ->
  neo4j_fault w = None ->
  forallb typed_relationship (default [] (relationships x)) = true ->
  (forall q, In q (upserts pr x) -> rejects w q = None) ->
  storeExtraction x chunkId docId w
  = (Ok {| n_entities := length (default [] (entities x));
           n_relationships := length (default [] (relationships x)) |},
     sent (upserts pr x) w).
Proof.
  intros pr Hd Hf Ht Hr.
  unfold storeExtraction, upserts, bind in *. fold pr.
  set (es := default [] (entities x)) in *.
  set (rs := default [] (relationships x)) in *.
  assert (He : match entities x with
               | Some es0 => store_entities pr es0 {| n_entities := 0; n_relationships := 0 |}
               | None => ret {| n_entities := 0; n_relationships := 0 |}
               end w
               = (Ok {| n_entities := length es; n_relationships := 0 |},
                  sent (flat_map (entity_upsert pr) es) w)).
  { subst es. destruct (entities x) as [es0|]; cbn [default].
    - rewrite store_entities_accepted; auto.
      intros q Hq. apply Hr, in_or_app. now left.
    - reflexivity. }
  rewrite He.
  destruct (sent_frame (flat_map (entity_upsert pr) es) w) as (Hd' & Hf' & Hr' & _).
  rewrite sent_app.
  subst rs. destruct (relationships x) as [rs0|]; cbn [default] in *.
  - rewrite store_relationships_accepted; auto; try congruence.
    intros q Hq. rewrite Hr'. apply Hr, in_or_app. now right.
  - reflexivity.
Qed.




(** C8 at the failing input: for an entity of a type outside the fixed set
    storeExtraction reports one stored entity, although it sent no query and
    left the graph as it was. *)
Lemma storeExtraction_counts_unstored_entity :
  fst (storeExtraction organization_extraction "c1" "d1"
         (sample_world empty_graph [] []))
  = Ok {| n_entities := 1; n_relationships := 0 |}
  /\ issued (snd (storeExtraction organization_extraction "c1" "d1"
                    (sample_world empty_graph [] []))) = []
  /\ graph (snd (storeExtraction organization_extraction "c1" "d1"
                   (sample_world empty_graph [] []))) = empty_graph.
Proof. repeat split. Qed.

(** ** The text spliced into the traversal *)

Lemma js_num_not_empty (n : nat) : js_num n <> EmptyString.
Proof.
  unfold js_num. intros H.
  pose proof (NilEmpty.usu (Nat.to_uint n)) as Hn. rewrite H in Hn.
  cbn in Hn. injection Hn as Hn.
  pose proof (Unsigned.of_to n) as Hof. rewrite <- Hn in Hof. cbn in Hof.
  subst n. discriminate Hn.
Qed.

(** The numeral of [n] is read as the bound [n], no text as no bound, and
    nothing else is read as a range. *)
Lemma range_of_numeral (n : nat) : range_of (js_num n) = Some (UpTo n).
Proof.
  unfold range_of.
  destruct (String.eqb (js_num n) EmptyString) eqn:E.
  - apply String.eqb_eq in E. now apply js_num_not_empty in E.
  - unfold js_num at 1. rewrite NilEmpty.usu, Unsigned.of_to, String.eqb_refl.
    reflexivity.
Qed.

Lemma range_of_inv (depth : string) (range : Range) :
  range_of depth = Some range ->
  (depth = EmptyString /\ range = NoBound)
  \/ (exists n, depth = js_num n /\ range = UpTo n).
Proof.
  unfold range_of.
  destruct (String.eqb depth EmptyString) eqn:E.
  - intros [= <-]. apply String.eqb_eq in E. now left.
  - destruct (NilEmpty.uint_of_string depth) as [d|]; [|discriminate].
    destruct (String.eqb (js_num (Nat.of_uint d)) depth) eqn:Ed; [|discriminate].
    intros [= <-]. apply String.eqb_eq in Ed. right. now exists (Nat.of_uint d).
Qed.

Lemma plain_iff (depth : string) :
  plain depth = true <-> depth = EmptyString \/ exists n, depth = js_num n.
Proof.
  unfold plain. split.
  - destruct (range_of depth) as [range|] eqn:E; [|discriminate]. intros _.
    destruct (@range_of_inv _ _ E) as [[-> _]|(n & -> & _)]; [now left|right; now exists n].
  - intros [->|[n ->]]; [reflexivity|]. now rewrite range_of_numeral.
Qed.

Lemma plain_number (n : nat) : plain (spliced (number n)) = true.
Proof. unfold plain. cbn [spliced number]. now rewrite range_of_numeral. Qed.

Lemma execute_plain (other : Foreign) (name : option string) (depth : string)
    (limit : nat) (range : Range) (g : Graph) :
  range_of depth = Some range ->
  execute other (MatchRelated name depth limit) g
  = (g, Ok (match_related name (max_hops range g) limit g)).
Proof. intros H. cbn [execute]. now rewrite H. Qed.

(** ** The traversal cap (findRelatedEntities, expandViaGraph) *)




(** What findRelatedEntities returns is read off the records of one
    traversal of the graph as it is, or it throws. *)
Lemma findRelatedEntities_cases (name : option string) (depth : option Value)
    (range : Range) (w : World) :
  range_of (spliced (default (number 1) depth)) = Some range ->
  (exists e, fst (findRelatedEntities name depth w) = Throw e)
  \/ fst (findRelatedEntities name depth w)
     = Ok (flat_map related_of_row
             (match_related name (max_hops range (graph w)) 50 (graph w))).
Proof.
  intros Hrange.
  unfold findRelatedEntities, bind, try_finally, getSession, session_close, ret,
    session_run.
  destruct (driver w); [|left; eexists; reflexivity].
  destruct (neo4j_fault w); [left; eexists; reflexivity|].
  destruct (rejects w _); [left; eexists; reflexivity|].
  right.
  replace (spliced match depth with Some d => d | None => number 1 end)
    with (spliced (default (number 1) depth)) by now destruct depth.
  now rewrite (@execute_plain _ _ _ _ _ _ Hrange).
Qed.



(** Every traversal stands in its own [try], so the loop always ends. *)
Lemma expand_each_returns (names : list (option string)) (depth : Value) :
  forall st w, exists st' w', expand_each names depth st w = (Ok st', w').
Proof.
  induction names as [|name names IH]; intros st w.
  - exists st, w. reflexivity.
  - cbn [expand_each]. unfold bind at 1, try_catch, bind.
    destruct (findRelatedEntities name (Some depth) w) as [[e|related] w1];
      unfold ret; apply IH.
Qed.




Example hub_contributes_fifty :
  exists st w',
    expandViaGraph [Some "Hub"] (Some (number 1)) (sample_world hub_graph [] [])
    = (Ok st, w')
    /\ length (relatedEntities st) = 50
    /\ length (paths st) = 50.
Proof. eexists. eexists. vm_compute. repeat split. Qed.

(** ** Vector-only mode (graphDepth = 0) *)

Lemma match_related_zero (name : option string) (limit : nat) (g : Graph) :
  match_related name 0 limit g = [].
Proof.
  unfold match_related. cbn [expand flat_map].
  induction (positions _ (nodes g) 0) as [|s starts IH]; [apply firstn_nil|].
  cbn [flat_map app]. exact IH.
Qed.

Lemma expand_each_zero (names : list (option string)) :
  forall st w, exists w', expand_each names (number 0) st w = (Ok st, w').
Proof.
  induction names as [|name names IH]; intros st w.
  - exists w. reflexivity.
  - cbn [expand_each]. unfold bind at 1, try_catch, bind.
    destruct (@findRelatedEntities_cases name (Some (number 0)) (UpTo 0) w
                (range_of_numeral 0)) as [[e He] | He];
      destruct (findRelatedEntities name (Some (number 0)) w) as [[e'|related] w1];
      cbn [fst max_hops] in He; try discriminate; unfold ret.
    + apply IH.
    + rewrite match_related_zero in He. injection He as ->. cbn [fold_left]. apply IH.
Qed.

Lemma extractEntityNamesFromChunks_returns (chunks : list Chunk) (w : World) :
  exists names w', extractEntityNamesFromChunks chunks w = (Ok names, w').
Proof.
  unfold extractEntityNamesFromChunks.
  destruct (fold_left names_of_extraction chunks []) as [|n ns];
    [destruct chunks as [|c cs]|]; try (eexists; eexists; reflexivity).
  unfold try_catch, bind, ret.
  destruct (getSession w) as [[e|[]] w1]; [eexists; eexists; reflexivity|].
  destruct (session_run MatchNames w1) as [[e|rows] w2];
    eexists; eexists; reflexivity.
Qed.

(** C3.  With graphDepth = 0, whenever the semantic search returns,
    hybridRetrieval returns its result as the evidence set, passage for
    passage and in the same order, with no graph passage and an empty list of
    relationship paths. *)
Theorem hybridRetrieval_depth_zero :
  forall (q : string) (options : RetrievalOptions) (w w1 w2 : World)
         (queryEmbedding : Embedding) (vectorResults : list Chunk),
    opt_graphDepth options = Some (number 0) ->
    generateEmbedding q w = (Ok queryEmbedding, w1) ->
    vectorSearch queryEmbedding
      (Some (default (number (topK (config w))) (opt_topK options))) w1
    = (Ok vectorResults, w2) ->
    exists r w',
      hybridRetrieval q options w = (Ok r, w')
      /\ allChunks r = vectorResults
      /\ vectorChunks r = vectorResults
      /\ graphChunks r = []
      /\ graphPaths r = [].
Proof.
  intros q options w w1 w2 emb vres Hdepth Hemb Hsearch.
  unfold hybridRetrieval. rewrite Hdepth.
  unfold bind at 1. rewrite Hemb.
  unfold bind at 1. unfold default in Hsearch. rewrite Hsearch.
  destruct vres as [|c vres].
  - eexists. eexists. unfold ret. repeat split.
  - unfold bind at 1.
    destruct (extractEntityNamesFromChunks_returns (c :: vres) w2)
      as (names & w3 & ->).
    unfold bind at 1. unfold expandViaGraph.
    destruct (expand_each_zero names
                {| relatedEntities := []; paths := []; seenEntities := [] |} w3)
      as (w4 & ->).
    cbn [relatedEntities paths collect_chunk_ids fold_left].
    unfold bind, ret. eexists. eexists. split; [reflexivity|].
    cbn [allChunks vectorChunks graphChunks graphPaths filter].
    rewrite app_nil_r. repeat split.
    now destruct (opt_includeGraphPaths options) as [[]|].
Qed.

(** Depth 0 on the sample corpus. *)
Lemma hybridRetrieval_depth_zero_witness :
  exists r w',
    hybridRetrieval "How is Sam Altman related to Microsoft?" (depth_options 0)
      altman_world = (Ok r, w')
    /\ allChunks r = [altman_passage]
    /\ vectorChunks r = [altman_passage]
    /\ graphChunks r = []
    /\ graphPaths r = [].
Proof.
  apply (@hybridRetrieval_depth_zero
           "How is Sam Altman related to Microsoft?" (depth_options 0)
           altman_world altman_world altman_world
           (EmbeddingOf "How is Sam Altman related to Microsoft?")
           [altman_passage]);
    reflexivity.
Defined.

(** ** The merge step of hybridRetrieval *)

Ltac bind_inv H x w1 E :=
  unfold bind at 1 in H;
  match type of H with
  | (match ?m with pair _ _ => _ end) = _ =>
      destruct m as [[?|x] w1] eqn:E; [discriminate H|]
  end.

Lemma session_run_collection (q : Cypher) (w : World) :
  collection (snd (session_run q w)) = collection w.
Proof.
  unfold session_run.
  destruct (neo4j_fault w); [reflexivity|].
  destruct (rejects w q); [reflexivity|].
  destruct (execute (foreign w) q (graph w)); reflexivity.
Qed.

Lemma extractEntityNamesFromChunks_collection (chunks : list Chunk) (w : World) :
  collection (snd (extractEntityNamesFromChunks chunks w)) = collection w.
Proof.
  unfold extractEntityNamesFromChunks.
  destruct (fold_left names_of_extraction chunks []) as [|n ns];
    [destruct chunks as [|c cs]|]; try reflexivity.
  unfold try_catch, bind, ret, getSession.
  destruct (driver w); [|reflexivity].
  pose proof (session_run_collection MatchNames w) as H.
  destruct (session_run MatchNames w) as [[e|rows] w2]; exact H.
Qed.

Lemma findRelatedEntities_collection (name : option string) (depth : option Value)
    (w : World) :
  collection (snd (findRelatedEntities name depth w)) = collection w.
Proof.
  unfold findRelatedEntities, bind, try_finally, getSession, session_close, ret.
  destruct (driver w); [|reflexivity].
  match goal with |- context [session_run ?q w] =>
    pose proof (session_run_collection q w) as H;
    destruct (session_run q w) as [[e|rows] w1]; exact H
  end.
Qed.

Lemma expand_each_collection (names : list (option string)) (depth : Value) :
  forall st w, collection (snd (expand_each names depth st w)) = collection w.
Proof.
  induction names as [|name names IH]; intros st w; [reflexivity|].
  cbn [expand_each]. unfold bind at 1, try_catch, bind.
  pose proof (findRelatedEntities_collection name (Some depth) w) as H.
  destruct (findRelatedEntities name (Some depth) w) as [[e|related] w1];
    cbn [snd] in H; unfold ret; rewrite IH; exact H.
Qed.

Lemma generateEmbedding_world (q : string) (w w1 : World) (r : Result Embedding) :
  generateEmbedding q w = (r, w1) -> w1 = w.
Proof.
  unfold generateEmbedding, try_catch, lift, throw.
  destruct (embedQuery w q); intros H; now inversion H.
Qed.

Lemma vectorSearch_world (emb : Embedding) (limit : option Value) (w w1 : World)
    (r : Result (list Chunk)) :
  vectorSearch emb limit w = (r, w1) -> w1 = w.
Proof.
  unfold vectorSearch, bind, getCollection, cursor_toArray, lift, ret.
  destruct (db w); [|intros H; now inversion H].
  destruct (mongo_fault w); [intros H; now inversion H|].
  destruct (nearest w emb _ _); intros H; now inversion H.
Qed.

Lemma getChunksByIds_returns (ids : list string) (w w1 : World) (docs : list Chunk) :
  getChunksByIds ids w = (Ok docs, w1) ->
  docs = filter (fun c => existsb (String.eqb (chunk_id c)) ids) (collection w).
Proof.
  unfold getChunksByIds, bind, getCollection, cursor_toArray.
  destruct (db w); [|discriminate].
  destruct (mongo_fault w); [discriminate|].
  intros H. now inversion H.
Qed.

Lemma collect_chunk_ids_from (es : list GraphEntity) :
  forall acc id,
    In id (fold_left (fun s e =>
               match ge_chunk_id e with
               | Some id => if truthy (Some id)
                            then (if existsb (String.eqb id) s then s else s ++ [id])
                            else s
               | None => s
               end) es acc) ->
    In id acc \/ exists e, In e es /\ ge_chunk_id e = Some id.
Proof.
  induction es as [|e es IH]; intros acc id H; cbn [fold_left] in H; [now left|].
  apply IH in H as [H | (e' & He' & Hid)].
  - destruct (ge_chunk_id e) as [i|] eqn:Ei; [|now left].
    destruct (truthy (Some i)); [|now left].
    destruct (existsb (String.eqb i) acc); [now left|].
    apply in_app_or in H as [H|[<-|[]]]; [now left|].
    right. exists e. split; [now left | exact Ei].
  - right. exists e'. split; [now right | exact Hid].
Qed.

Lemma among_spec (cs : list Chunk) (c : Chunk) :
  among cs c = true <-> In (chunk_id c) (map chunk_id cs).
Proof.
  unfold among. rewrite existsb_exists. split.
  - intros (id & Hin & Heq). apply String.eqb_eq in Heq. congruence.
  - intros H. exists (chunk_id c). split; [exact H | apply String.eqb_refl].
Qed.

(** Selecting passages keeps their identifiers distinct. *)
Lemma distinct_ids_filter (keep : Chunk -> bool) (cs : list Chunk) :
  NoDup (map chunk_id cs) -> NoDup (map chunk_id (filter keep cs)).
Proof.
  intros Hcs. induction cs as [|c cs IH]; cbn [map filter] in *; [constructor|].
  apply NoDup_cons_iff in Hcs as [Hfresh Hrest].
  destruct (keep c); cbn [map]; [|now apply IH].
  apply NoDup_cons_iff. split; [|now apply IH].
  contradict Hfresh. apply in_map_iff in Hfresh as (d & Hd & Hin).
  apply filter_In in Hin as [Hin _]. apply in_map_iff. now exists d.
Qed.

Lemma filter_none {A} (p : A -> bool) (l : list A) :
  (forall x, p x = false) -> filter p l = [].
Proof.
  intros Hp. induction l as [|a l IH]; cbn [filter]; [reflexivity|].
  now rewrite Hp.
Qed.

(** The shape of every result of hybridRetrieval. *)
Lemma hybridRetrieval_shape (q : string) (options : RetrievalOptions)
    (w w' : World) (r : Retrieval) :
  hybridRetrieval q options w = (Ok r, w') ->
  (exists queryEmbedding,
      generateEmbedding q w = (Ok queryEmbedding, w)
      /\ vectorSearch queryEmbedding
           (Some (default (number (topK (config w))) (opt_topK options))) w
         = (Ok (vectorChunks r), w))
  /\ allChunks r = vectorChunks r ++ graphChunks r
  /\ graphChunks r
     = filter (fun c => negb (among (vectorChunks r) c))
         (filter (fun c => existsb (String.eqb (chunk_id c))
                             (collect_chunk_ids (graphEntities r)))
                 (collection w)).
Proof.
  intros H. unfold hybridRetrieval in H.
  bind_inv H emb w1 Eemb.
  pose proof (generateEmbedding_world _ _ Eemb) as ->.
  bind_inv H vres w2 Esearch.
  pose proof (vectorSearch_world _ _ _ Esearch) as ->.
  destruct vres as [|c vres].
  - unfold ret in H. inversion H; subst; clear H. cbn.
    split; [exists emb; split; first [reflexivity | eassumption]|].
    split; [reflexivity|].
    now rewrite (filter_none (fun c => existsb (String.eqb (chunk_id c)) [])).
  - bind_inv H names w3 Enames.
    pose proof (extractEntityNamesFromChunks_collection (c :: vres) w) as C3.
    rewrite Enames in C3. cbn [snd] in C3.
    bind_inv H expansion w4 Eexp.
    pose proof (expand_each_collection names
                  (match Some (default (number (graphTraversalDepth (config w)))
                                 (opt_graphDepth options))
                   with Some d => d | None => number 2 end)
                  {| relatedEntities := []; paths := []; seenEntities := [] |} w3) as C4.
    unfold expandViaGraph, default in Eexp, C4. rewrite Eexp in C4. cbn [snd] in C4.
    bind_inv H fetched w5 Efetch.
    unfold ret in H. inversion H; subst; clear H.
    cbn [vectorChunks graphChunks allChunks graphEntities].
    split; [exists emb; split; first [reflexivity | eassumption]|].
    split; [reflexivity|].
    unfold among. f_equal.
    destruct (collect_chunk_ids (relatedEntities expansion)) as [|i ids] eqn:Eids.
    + unfold ret in Efetch. inversion Efetch; subst.
      now rewrite (filter_none (fun c => existsb (String.eqb (chunk_id c)) [])).
    + apply getChunksByIds_returns in Efetch. rewrite Efetch. congruence.
Qed.

(** C2, as the code has it.  The evidence set is the semantic result, in its
    order, followed by the passages the chunk store returns for the
    identifiers carried by the discovered entities that are not among the
    semantic ones, in the order in which the collection holds them.  So every
    passage of the set comes from the semantic result or from the graph
    lookup, no graph passage repeats a semantic one, and the set has no two
    passages with one identifier when the semantic result and the collection
    have none. *)
Theorem hybridRetrieval_merges_in_store_order :
  forall (q : string) (options : RetrievalOptions) (w w' : World) (r : Retrieval),
    hybridRetrieval q options w = (Ok r, w') ->
    (exists queryEmbedding,
        generateEmbedding q w = (Ok queryEmbedding, w)
        /\ vectorSearch queryEmbedding
             (Some (default (number (topK (config w))) (opt_topK options))) w
           = (Ok (vectorChunks r), w))
    /\ allChunks r = vectorChunks r ++ graphChunks r
    /\ graphChunks r
       = filter (fun c => negb (among (vectorChunks r) c))
           (filter (fun c => existsb (String.eqb (chunk_id c))
                               (collect_chunk_ids (graphEntities r)))
                   (collection w))
    /\ (forall c, In c (graphChunks r) ->
          In c (collection w)
          /\ ~ In (chunk_id c) (map chunk_id (vectorChunks r))
          /\ exists e, In e (graphEntities r) /\ ge_chunk_id e = Some (chunk_id c))
    /\ (NoDup (map chunk_id (vectorChunks r)) ->
        NoDup (map chunk_id (collection w)) ->
        NoDup (map chunk_id (allChunks r))).
Proof.
  intros q options w w' r H.
  destruct (hybridRetrieval_shape _ _ _ H) as (Hsem & Hall & Hgraph).
  split; [exact Hsem|]. split; [exact Hall|]. split; [exact Hgraph|].
  assert (Hin : forall c, In c (graphChunks r) ->
            In c (collection w)
            /\ ~ In (chunk_id c) (map chunk_id (vectorChunks r))
            /\ exists e, In e (graphEntities r) /\ ge_chunk_id e = Some (chunk_id c)).
  { intros c Hc. rewrite Hgraph in Hc.
    apply filter_In in Hc as [Hc Hnot]. apply filter_In in Hc as [Hc Hid].
    split; [exact Hc|]. split.
    - apply negb_true_iff in Hnot. intros Habs. apply among_spec in Habs. congruence.
    - apply existsb_exists in Hid as (id & Hid & Heq).
      apply String.eqb_eq in Heq. rewrite Heq.
      destruct (collect_chunk_ids_from _ _ _ Hid) as [[]|He]. exact He. }
  split; [exact Hin|].
  intros Hv Hc. rewrite Hall, map_app. apply NoDup_app.
  - exact Hv.
  - rewrite Hgraph. now do 2 apply distinct_ids_filter.
  - intros id Hid Hgr. apply in_map_iff in Hgr as (c & <- & Hgr).
    now apply (Hin c Hgr).
Qed.

(** Depth 2 on the sample corpus: one semantic passage, then the two graph
    passages as the collection holds them. *)
Lemma hybridRetrieval_merges_in_store_order_witness :
  exists r w',
    hybridRetrieval "How is Sam Altman related to Microsoft?" (depth_options 2)
      altman_world = (Ok r, w')
    /\ allChunks r = vectorChunks r ++ graphChunks r
    /\ map chunk_id (allChunks r) = ["v1"; "c2"; "c1"]
    /\ NoDup (map chunk_id (allChunks r)).
Proof.
  eexists. eexists. split; [lazy; reflexivity|].
  match goal with |- allChunks ?r = _ /\ _ =>
    destruct (@hybridRetrieval_merges_in_store_order
                "How is Sam Altman related to Microsoft?" (depth_options 2)
                altman_world _ r eq_refl) as (_ & Hall & _ & _ & Hnodup)
  end.
  split; [exact Hall|]. split; [reflexivity|].
  apply Hnodup.
  - cbn. repeat constructor; cbn; intuition discriminate.
  - cbn. repeat constructor; cbn; intuition discriminate.
Defined.

(** C2, as stated, fails on the order of the graph passages.  The traversal
    from Sam Altman discovers OpenAI (passage c1) before Microsoft (passage
    c2); the collection holds c2 before c1, and the evidence set lists them
    as the collection does. *)
Lemma hybridRetrieval_not_in_discovery_order :
  exists r w',
    hybridRetrieval "How is Sam Altman related to Microsoft?" (depth_options 2)
      altman_world = (Ok r, w')
    /\ NoDup (map chunk_id (collection altman_world))
    /\ map ge_chunk_id (graphEntities r) = [Some "c1"; Some "c2"]
    /\ in_discovery_order (collect_chunk_ids (graphEntities r))
         (collection altman_world)
       = [openai_passage; microsoft_passage]
    /\ graphChunks r = [microsoft_passage; openai_passage]
    /\ allChunks r <> vectorChunks r
                      ++ filter (fun c => negb (among (vectorChunks r) c))
                           (in_discovery_order (collect_chunk_ids (graphEntities r))
                              (collection altman_world)).
Proof.
  eexists. eexists. split; [lazy; reflexivity|].
  split; [cbn; repeat constructor; cbn; intuition discriminate|].
  repeat split. discriminate.
Qed.

(** ** Citations (extractCitations) *)

Lemma string_of_uint_digits (d : Decimal.uint) :
  all_units is_digit (NilEmpty.string_of_uint d) = true.
Proof. induction d; cbn; auto. Qed.

Lemma js_num_inj (n m : nat) : js_num n = js_num m -> n = m.
Proof.
  unfold js_num. intros H. apply Unsigned.to_uint_inj.
  pose proof (NilEmpty.usu (Nat.to_uint n)) as Hn.
  pose proof (NilEmpty.usu (Nat.to_uint m)) as Hm.
  rewrite H in Hn. congruence.
Qed.

Lemma js_num_not_undefined (n : nat) : js_num n <> "undefined".
Proof.
  intros H. pose proof (string_of_uint_digits (Nat.to_uint n)) as Hd.
  unfold js_num in H. rewrite H in Hd. discriminate.
Qed.

Lemma js_num_opt_inj (x y : option nat) : js_num_opt x = js_num_opt y -> x = y.
Proof.
  destruct x as [n|], y as [m|]; cbn; intros H.
  - f_equal. now apply js_num_inj.
  - now apply js_num_not_undefined in H.
  - symmetry in H. now apply js_num_not_undefined in H.
  - reflexivity.
Qed.

Lemma all_units_weaken (p q : ascii -> bool) (s : string) :
  (forall c, p c = true -> q c = true) ->
  all_units p s = true -> all_units q s = true.
Proof.
  intros Hpq. induction s as [|c s IH]; cbn; [reflexivity|].
  intros H. apply andb_true_iff in H as [Hc Hs].
  now rewrite (Hpq _ Hc), IH.
Qed.

Lemma js_num_opt_no_colon (x : option nat) :
  all_units not_colon (js_num_opt x) = true.
Proof.
  destruct x as [n|]; [|reflexivity].
  apply all_units_weaken with (p := is_digit); [|apply string_of_uint_digits].
  intros c Hc. unfold not_colon. apply negb_true_iff. apply Ascii.eqb_neq.
  intros ->. discriminate.
Qed.

Lemma colon_inside (d s : string) :
  all_units not_colon (d ++ String ":" s)%string = false.
Proof.
  induction d as [|c d IH]; cbn in *; [reflexivity|].
  rewrite IH. apply andb_false_r.
Qed.

(** The text before the last colon and the text after it are read back from
    the key. *)
Lemma colon_split (d1 d2 s1 s2 : string) :
  all_units not_colon s1 = true -> all_units not_colon s2 = true ->
  (d1 ++ ":" ++ s1)%string = (d2 ++ ":" ++ s2)%string ->
  d1 = d2 /\ s1 = s2.
Proof.
  change (":" ++ s1)%string with (String ":" s1).
  change (":" ++ s2)%string with (String ":" s2).
  revert d2; induction d1 as [|a d1 IH]; intros [|b d2] H1 H2 H; cbn [append] in H.
  - split; [reflexivity | congruence].
  - injection H as <- H. rewrite H, colon_inside in H1. discriminate.
  - injection H as -> H. rewrite <- H, colon_inside in H2. discriminate.
  - injection H as <- H. destruct (IH d2 H1 H2 H) as [-> ->]. now split.
Qed.

Lemma page_key_inj (p q : string * option nat) :
  page_key p = page_key q -> p = q.
Proof.
  destruct p as [d1 n1], q as [d2 n2]. unfold page_key. cbn [fst snd]. intros H.
  apply colon_split in H as [-> H]; auto using js_num_opt_no_colon.
  f_equal. now apply js_num_opt_inj.
Qed.

Lemma seen_has (key : string) (seen : list string) :
  existsb (String.eqb key) seen = true <-> In key seen.
Proof.
  rewrite existsb_exists. split.
  - intros (k & Hin & Heq). apply String.eqb_eq in Heq. now subst.
  - intros H. exists key. split; [exact H | apply String.eqb_refl].
Qed.

(** The loop keeps [seen] equal to the keys of [citations], without
    repetition, and adds the key of every chunk it passes. *)
Lemma cite_each_keys (chunks : list Chunk) :
  forall citations seen,
    seen = map (fun c => page_key (cited_page c)) citations ->
    NoDup seen ->
    NoDup (map (fun c => page_key (cited_page c)) (cite_each chunks citations seen))
    /\ forall k,
         In k (map (fun c => page_key (cited_page c)) (cite_each chunks citations seen))
         <-> In k seen \/ In k (map citation_key chunks).
Proof.
  induction chunks as [|chunk chunks IH]; intros citations seen Hseen Hnd.
  - cbn [cite_each map In]. rewrite <- Hseen. split; [exact Hnd | intuition].
  - cbn [cite_each map].
    destruct (existsb (String.eqb (citation_key chunk)) seen) eqn:Ehas; cbn [negb].
    + destruct (IH citations seen Hseen Hnd) as [Hnd' Hin'].
      split; [exact Hnd'|]. intros k. rewrite Hin'. cbn [In].
      apply seen_has in Ehas. intuition (subst; auto).
    + assert (Hnew : ~ In (citation_key chunk) seen).
      { intros Habs. apply seen_has in Habs. congruence. }
      destruct (IH (citations ++ [{| c_source_title := source_title chunk;
                                     c_page_number := page_number chunk;
                                     c_doc_id := doc_id chunk;
                                     c_chunk_id := chunk_id chunk |}])
                   (seen ++ [citation_key chunk])) as [Hnd' Hin'].
      * rewrite map_app, Hseen. reflexivity.
      * apply NoDup_app; [exact Hnd | repeat constructor; intros [] |].
        intros a Ha [<-|[]]. contradiction.
      * split; [exact Hnd'|]. intros k. rewrite Hin', in_app_iff. cbn [In].
        intuition.
Qed.

Lemma NoDup_map_key {A} (f : A -> string * option nat) (l : list A) :
  NoDup (map (fun a => page_key (f a)) l) -> NoDup (map f l).
Proof.
  induction l as [|a l IH]; cbn [map]; intros H; [constructor|].
  inversion H as [|? ? Hnot Hrest]; subst. constructor; [|now apply IH].
  intros Hin. apply Hnot. apply in_map_iff in Hin as (x & Hx & Hin).
  apply in_map_iff. exists x. split; [now rewrite Hx | exact Hin].
Qed.

(** C5.  The citations stand for pairwise distinct (document, page) pairs,
    and a pair is cited exactly when some passage of the list has it: one
    citation for each distinct pair, however many passages share it. *)
Theorem extractCitations_one_per_page :
  forall (chunks : list Chunk),
    NoDup (map cited_page (extractCitations chunks))
    /\ (forall p, In p (map cited_page (extractCitations chunks))
                  <-> In p (map chunk_page chunks)).
Proof.
  intros chunks. unfold extractCitations.
  destruct (@cite_each_keys chunks [] [] eq_refl (NoDup_nil _)) as [Hnd Hin].
  split; [now apply NoDup_map_key|].
  intros p. split; intros H.
  - apply in_map_iff in H as (c & <- & Hc).
    destruct (proj1 (Hin (page_key (cited_page c)))) as [[]|Hk].
    { apply in_map_iff. now exists c. }
    apply in_map_iff in Hk as (chunk & Hkey & Hchunk).
    apply in_map_iff. exists chunk. split; [|exact Hchunk].
    now apply page_key_inj.
  - apply in_map_iff in H as (chunk & <- & Hchunk).
    assert (Hk : In (citation_key chunk)
                    (map (fun c => page_key (cited_page c)) (cite_each chunks [] []))).
    { apply Hin. right. apply in_map_iff. now exists chunk. }
    apply in_map_iff in Hk as (c & Hkey & Hc).
    apply in_map_iff. exists c. split; [|exact Hc].
    now apply page_key_inj.
Qed.

(** Two passages of page 3 give one citation, taken from the first. *)
Example citations_of_shared_page :
  extractCitations cited_passages
  = [{| c_source_title := Some "OpenAI"; c_page_number := Some 3;
        c_doc_id := "doc-openai"; c_chunk_id := "c1" |};
     {| c_source_title := Some "OpenAI"; c_page_number := Some 4;
        c_doc_id := "doc-openai"; c_chunk_id := "c8" |};
     {| c_source_title := None; c_page_number := None;
        c_doc_id := "doc-openai"; c_chunk_id := "c9" |}].
Proof. reflexivity. Qed.

(** ** The extractor (extractEntitiesAndRelationships, extractFromChunks) *)

Section ExtractorProperties.

Variable JSON_parse : string -> Result Parsed.

Lemma extractEntitiesAndRelationships_run (t : string) (timeout : option N) (w : World) :
  extractEntitiesAndRelationships JSON_parse (Some t) timeout w
  = (Ok (extraction_of JSON_parse
           (extraction_model w (length (invocations w)) (extraction_prompt t))
           (default 45000%N timeout)),
     with_invocations (invocations w ++ [extraction_prompt t]) w).
Proof.
  unfold extractEntitiesAndRelationships, extraction_of, bind, try_catch, lift,
    invoke_extraction_model, ret.
  cbn [createExtractionPrompt].
  destruct (race _ _) as [e|content]; [reflexivity|].
  destruct (JSON_parse content) as [e|parsed]; [reflexivity|].
  destruct (structure_check parsed); reflexivity.
Qed.

Lemma extraction_of_arrays (i : Invocation) (timeout : N) :
  exists es rs,
    entities (extraction_of JSON_parse i timeout) = Some es
    /\ relationships (extraction_of JSON_parse i timeout) = Some rs.
Proof.
  unfold extraction_of.
  destruct (race i timeout) as [e|content]; [eexists; eexists; split; reflexivity|].
  destruct (JSON_parse content) as [e|parsed]; [eexists; eexists; split; reflexivity|].
  destruct parsed; cbn; eexists; eexists; split; reflexivity.
Qed.

Lemma extraction_of_timeout (i : Invocation) (timeout : N) :
  N.ltb (elapsed i) timeout = false ->
  extraction_of JSON_parse i timeout = empty_extraction "Extraction timeout".
Proof. intros H. unfold extraction_of, race. now rewrite H. Qed.

Lemma extraction_of_rejected (i : Invocation) (timeout : N) (e : exn) :
  N.ltb (elapsed i) timeout = true -> outcome i = Throw e ->
  extraction_of JSON_parse i timeout = empty_extraction (message e).
Proof. intros H Ho. unfold extraction_of, race. now rewrite H, Ho. Qed.

Lemma extraction_of_unparsable (i : Invocation) (timeout : N) (content : string) (e : exn) :
  N.ltb (elapsed i) timeout = true -> outcome i = Ok content ->
  JSON_parse content = Throw e ->
  extraction_of JSON_parse i timeout = empty_extraction (message e).
Proof. intros H Ho Hp. unfold extraction_of, race. now rewrite H, Ho, Hp. Qed.

(** C4.  On every text extractEntitiesAndRelationships returns; what it
    returns has arrays for entities and relationships; and when the timer
    wins the race, when the generation call fails, or when its output does
    not parse as JSON, both arrays are empty and the error field carries the
    message of the fault: the text 'Extraction timeout' for the timer, the
    message of the error thrown otherwise. *)
Theorem extractEntitiesAndRelationships_never_throws :
  forall (t : string) (timeout : option N) (w : World),
    let i := extraction_model w (length (invocations w)) (extraction_prompt t) in
    let limit := default 45000%N timeout in
    exists x w',
      extractEntitiesAndRelationships JSON_parse (Some t) timeout w = (Ok x, w')
      /\ (exists es rs, entities x = Some es /\ relationships x = Some rs)
      /\ (N.ltb (elapsed i) limit = false ->
          x = {| entities := Some []; relationships := Some [];
                 error := Some "Extraction timeout" |})
      /\ (forall e, N.ltb (elapsed i) limit = true -> outcome i = Throw e ->
                    x = {| entities := Some []; relationships := Some [];
                           error := Some (message e) |})
      /\ (forall content e,
             N.ltb (elapsed i) limit = true -> outcome i = Ok content ->
             JSON_parse content = Throw e ->
             x = {| entities := Some []; relationships := Some [];
                    error := Some (message e) |}).
Proof.
  intros t timeout w i limit.
  eexists. eexists. split; [apply extractEntitiesAndRelationships_run|].
  fold i limit.
  split; [apply extraction_of_arrays|].
  split; [intros H; now rewrite (extraction_of_timeout _ _ H)|].
  split.
  - intros e H Ho. now rewrite (extraction_of_rejected _ _ H Ho).
  - intros content e H Ho Hp. now rewrite (extraction_of_unparsable _ _ H Ho Hp).
Qed.

Lemma extract_each_run (chunks : list Chunk) :
  forall acc w,
    exists w',
      extract_each JSON_parse chunks acc w
      = (Ok (acc ++ attached_all JSON_parse (extraction_model w)
                      (length (invocations w)) chunks), w')
      /\ invocations w' = invocations w ++ flat_map prompt_of chunks.
Proof.
  induction chunks as [|c chunks IH]; intros acc w.
  - exists w. cbn. now rewrite !app_nil_r.
  - cbn [extract_each attached_all flat_map]. unfold bind at 1, try_catch.
    unfold attached, prompt_of. destruct (text c) as [t|] eqn:Et.
    + unfold bind at 1. rewrite extractEntitiesAndRelationships_run. unfold ret.
      cbn [default].
      destruct (IH (acc ++ [with_extraction c
                              (extraction_of JSON_parse
                                 (extraction_model w (length (invocations w))
                                    (extraction_prompt t)) 45000)])
                   (with_invocations (invocations w ++ [extraction_prompt t]) w))
        as (w' & Hrun & Hinv).
      exists w'. cbn [extraction_model invocations with_invocations] in Hrun, Hinv.
      rewrite length_app in Hrun. cbn [length] in *.
      rewrite Hrun, Hinv, <- !app_assoc. split; reflexivity.
    + unfold bind at 1, extractEntitiesAndRelationships, bind, lift.
      cbn [createExtractionPrompt]. unfold ret.
      destruct (IH (acc ++ [with_extraction c
                              (empty_extraction
                                 (message (TypeError_read "undefined" "substring")))]) w)
        as (w' & Hrun & Hinv).
      exists w'. cbn [length]. rewrite Nat.add_0_r, Hrun, Hinv, <- !app_assoc.
      split; reflexivity.
Qed.

Lemma attached_all_nth (model : nat -> string -> Invocation) (chunks : list Chunk) :
  forall calls i c,
    nth_error chunks i = Some c ->
    nth_error (attached_all JSON_parse model calls chunks) i
    = Some (with_extraction c
              (attached JSON_parse model (calls + calls_before chunks i) c)).
Proof.
  induction chunks as [|c0 chunks IH]; intros calls [|i] c H; cbn in H; try discriminate.
  - injection H as ->. cbn [attached_all nth_error]. unfold calls_before.
    cbn [firstn flat_map length]. now rewrite Nat.add_0_r.
  - cbn [attached_all nth_error]. rewrite (IH _ _ _ H). unfold calls_before.
    cbn [firstn flat_map]. now rewrite length_app, Nat.add_assoc.
Qed.

Lemma attached_all_length (model : nat -> string -> Invocation) (chunks : list Chunk) :
  forall calls, length (attached_all JSON_parse model calls chunks) = length chunks.
Proof.
  induction chunks as [|c chunks IH]; intros calls; cbn [attached_all length];
    [reflexivity | now rewrite IH].
Qed.

(** C10.  extractFromChunks returns, for N chunks, N records; the record at
    each position has the fields of the chunk at that position and, as its
    extraction, a value whose entities and relationships are arrays; when
    processing the chunk fails (it has no text, the call times out or fails,
    its output does not parse) both arrays are empty and the error field
    carries the message of the fault; and the chunks after a failure are
    processed all the same: every chunk that has a text is sent to the model,
    in order. *)
Theorem extractFromChunks_one_record_per_chunk :
  forall (chunks : list Chunk) (w : World),
    exists out w',
      extractFromChunks JSON_parse chunks w = (Ok out, w')
      /\ length out = length chunks
      /\ invocations w' = invocations w ++ flat_map prompt_of chunks
      /\ forall i c,
           nth_error chunks i = Some c ->
           exists x es rs,
             nth_error out i
             = Some {| chunk_id := chunk_id c; doc_id := doc_id c;
                       source_title := source_title c;
                       page_number := page_number c;
                       text := text c; extraction := Some x |}
             /\ entities x = Some es /\ relationships x = Some rs
             /\ (text c = None ->
                 x = {| entities := Some []; relationships := Some [];
                        error :=
                          Some "Cannot read properties of undefined (reading 'substring')" |})
             /\ (forall t,
                    text c = Some t ->
                    let inv :=
                      extraction_model w (length (invocations w) + calls_before chunks i)
                        (extraction_prompt t) in
                    (N.ltb (elapsed inv) 45000 = false ->
                     x = {| entities := Some []; relationships := Some [];
                            error := Some "Extraction timeout" |})
                    /\ (forall e, N.ltb (elapsed inv) 45000 = true ->
                                  outcome inv = Throw e ->
                                  x = {| entities := Some []; relationships := Some [];
                                         error := Some (message e) |})
                    /\ (forall content e,
                           N.ltb (elapsed inv) 45000 = true ->
                           outcome inv = Ok content ->
                           JSON_parse content = Throw e ->
                           x = {| entities := Some []; relationships := Some [];
                                  error := Some (message e) |})).
Proof.
  intros chunks w. unfold extractFromChunks.
  destruct (extract_each_run chunks [] w) as (w' & Hrun & Hinv).
  cbn [app] in Hrun.
  exists (attached_all JSON_parse (extraction_model w) (length (invocations w)) chunks), w'.
  split; [exact Hrun|]. split; [apply attached_all_length|]. split; [exact Hinv|].
  intros i c Hc.
  rewrite (attached_all_nth (extraction_model w) chunks (length (invocations w)) i Hc).
  unfold attached. destruct (text c) as [t|] eqn:Et.
  - destruct (extraction_of_arrays
                (extraction_model w (length (invocations w) + calls_before chunks i)
                   (extraction_prompt t)) 45000) as (es & rs & He & Hr).
    eexists. exists es, rs.
    split; [unfold with_extraction; rewrite Et; reflexivity|]. split; [exact He|].
    split; [exact Hr|]. split; [discriminate|].
    intros t' Ht'. injection Ht' as <-. cbv zeta.
    split; [intros H; now rewrite (extraction_of_timeout _ _ H)|].
    split.
    + intros e H Ho. now rewrite (extraction_of_rejected _ _ H Ho).
    + intros content e H Ho Hp. now rewrite (extraction_of_unparsable _ _ H Ho Hp).
  - eexists. exists [], [].
    split; [unfold with_extraction; rewrite Et; reflexivity|].
    split; [reflexivity|]. split; [reflexivity|]. split; [reflexivity|].
    intros t Ht. discriminate Ht.
Qed.

End ExtractorProperties.

(** A call that settles after 1200 ms against a timeout of 1000 ms. *)
Lemma extractEntitiesAndRelationships_never_throws_witness :
  exists x w',
    extractEntitiesAndRelationships sample_parse (Some "OpenAI develops ChatGPT.")
      (Some 1000%N) flaky_world = (Ok x, w')
    /\ x = {| entities := Some []; relationships := Some [];
              error := Some "Extraction timeout" |}.
Proof.
  destruct (extractEntitiesAndRelationships_never_throws sample_parse
              "OpenAI develops ChatGPT." (Some 1000%N) flaky_world)
    as (x & w' & Hrun & _ & Htimeout & _).
  exists x, w'. split; [exact Hrun | apply Htimeout; reflexivity].
Defined.

(** Four chunks: the first is extracted, the second times out, the third
    gets truncated output, the fourth has no text, and a fifth is still sent
    to the model, whose answer [null] fails the structure check. *)
Example batch_survives_failures :
  exists out w',
    extractFromChunks sample_parse
      [openai_passage; microsoft_passage; altman_passage; textless_passage;
       openai_passage] flaky_world
    = (Ok out, w')
    /\ map text out
       = map text [openai_passage; microsoft_passage; altman_passage;
                   textless_passage; openai_passage]
    /\ map extraction out
       = [Some {| entities := Some []; relationships := Some []; error := None |};
          Some {| entities := Some []; relationships := Some [];
                  error := Some "Extraction timeout" |};
          Some {| entities := Some []; relationships := Some [];
                  error := Some "Unexpected end of JSON input" |};
          Some {| entities := Some []; relationships := Some [];
                  error :=
                    Some "Cannot read properties of undefined (reading 'substring')" |};
          Some {| entities := Some []; relationships := Some [];
                  error :=
                    Some "Cannot read properties of null (reading 'entities')" |}]
    /\ length (invocations w') = 4.
Proof. eexists. eexists. split; [lazy; reflexivity | repeat split]. Qed.

(** ** The orchestrator (queryGraphRAG) *)

Lemma close_both (w : World) :
  exists w',
    (closeMongoDB ;; closeNeo4j) w = (Ok tt, w')
    /\ invocations w' = invocations w.
Proof.
  unfold bind, closeMongoDB, closeNeo4j.
  destruct (client w); cbn [driver with_mongo];
    destruct (driver w); eexists; split; reflexivity.
Qed.

Lemma client_invoke_late (i : Invocation) (timeout : N) :
  N.ltb (elapsed i) timeout = false -> exists e, client_invoke i timeout = Throw e.
Proof. intros H. unfold client_invoke. rewrite H. eexists. reflexivity. Qed.

(** C6.  When the stores are reached and retrieval returns a non-empty
    evidence set, and the generation call has not settled when the timeout of
    the answer model, 180000 ms, expires, the orchestrator has called the
    model that once, and returns a response whose answer is the fixed
    fallback string and whose citations and graph paths are those of the
    evidence set already retrieved. *)
Theorem queryGraphRAG_generation_timeout :
  forall (q : string) (options : QueryOptions) (w w0 w1 : World) (r : Retrieval),
    let topK := default (number (topK (config w))) (q_topK options) in
    let graphDepth :=
      default (number (graphTraversalDepth (config w))) (q_graphDepth options) in
    let prompt :=
      constructGraphAwarePrompt q r
        {| includeChunkText := None;
           includeGraphPaths := Some (above_zero graphDepth);
           includeProvenance := Some false;
           maxChunks := Some 2;
           maxGraphPaths := Some 3 |} in
    (connectMongoDB ;; connectNeo4j) w = (Ok tt, w0) ->
    hybridRetrieval q {| opt_topK := Some topK; opt_graphDepth := Some graphDepth;
                         opt_includeGraphPaths := None |} w0 = (Ok r, w1) ->
    allChunks r <> [] ->
    N.ltb (elapsed (answer_model w1 (length (invocations w1)) prompt)) 180000 = false ->
    exists a w',
      queryGraphRAG q options w = (Ok a, w')
      /\ a_query a = q
      /\ answer a
         = "Unable to generate answer due to timeout. Try reducing graph depth or asking a simpler question."
      /\ citations a = extractCitations (allChunks r)
      /\ a_graphPaths a = graphPaths r
      /\ retrievalResults a = r
      /\ invocations w' = invocations w1 ++ [prompt].
Proof.
  intros q options w w0 w1 r topK graphDepth prompt Hconnect Hretrieve Hsome Hlate.
  unfold queryGraphRAG, try_finally, try_catch.
  unfold bind at 1 in Hconnect. unfold bind at 1.
  destruct (connectMongoDB w) as [[e1|[]] wa]; [discriminate|].
  unfold bind at 1.
  rewrite Hconnect. unfold bind at 1. fold topK graphDepth. rewrite Hretrieve.
  destruct (allChunks r) as [|c cs] eqn:Eall; [contradiction|].
  unfold bind at 1, invoke_answer_model.
  rewrite <- Eall. fold prompt.
  destruct (@client_invoke_late _ answer_timeout Hlate) as [e ->]. unfold ret.
  destruct (close_both (with_invocations (invocations w1 ++ [prompt]) w1))
    as (w' & -> & Hinv).
  eexists. eexists. split; [reflexivity|].
  cbn [a_query answer citations a_graphPaths retrievalResults].
  repeat split. exact Hinv.
Qed.

(** The sample corpus with an answer model that needs two hundred seconds. *)
Lemma queryGraphRAG_generation_timeout_witness :
  exists a w',
    queryGraphRAG "How is Sam Altman related to Microsoft?" default_query slow_world
    = (Ok a, w')
    /\ answer a
       = "Unable to generate answer due to timeout. Try reducing graph depth or asking a simpler question."
    /\ map c_chunk_id (citations a) = ["v1"; "c2"; "c1"]
    /\ map gp_to (a_graphPaths a) = [Some "OpenAI"; Some "Microsoft"]
    /\ length (invocations w') = 1.
Proof.
  destruct (@queryGraphRAG_generation_timeout
              "How is Sam Altman related to Microsoft?" default_query slow_world
              (with_neo4j true altman_graph [] (with_mongo true true slow_world))
              (snd (hybridRetrieval "How is Sam Altman related to Microsoft?"
                      {| opt_topK := Some (number 5); opt_graphDepth := Some (number 2);
                         opt_includeGraphPaths := None |}
                      (with_neo4j true altman_graph []
                         (with_mongo true true slow_world))))
              (match fst (hybridRetrieval "How is Sam Altman related to Microsoft?"
                            {| opt_topK := Some (number 5);
                               opt_graphDepth := Some (number 2);
                               opt_includeGraphPaths := None |}
                            (with_neo4j true altman_graph []
                               (with_mongo true true slow_world))) with
               | Ok r => r
               | Throw _ => {| query := EmptyString; vectorChunks := [];
                               graphEntities := []; graphChunks := [];
                               allChunks := []; graphPaths := [] |}
               end))
    as (a & w' & Hrun & _ & Hanswer & Hcite & Hpaths & _ & Hinv).
  - reflexivity.
  - vm_compute. reflexivity.
  - vm_compute. discriminate.
  - reflexivity.
  - exists a, w'. split; [exact Hrun|]. split; [exact Hanswer|].
    rewrite Hcite, Hpaths, Hinv. repeat split.
Defined.

(** ** Further properties of the retrieval and of the orchestrator *)

Lemma record_related_keys (name : option string) (st : Expansion) (rel : Related) :
  seenEntities st = map entity_key (relatedEntities st) ->
  NoDup (seenEntities st) ->
  seenEntities (record_related name st rel)
  = map entity_key (relatedEntities (record_related name st rel))
  /\ NoDup (seenEntities (record_related name st rel)).
Proof.
  intros Hkeys Hnd. unfold record_related. cbn [seenEntities relatedEntities].
  destruct (existsb _ (seenEntities st)) eqn:Eseen; cbn [negb]; [now split|].
  split.
  - rewrite map_app, Hkeys. reflexivity.
  - apply NoDup_app; [exact Hnd | repeat constructor; intros [] |].
    intros k Hk [<-|[]].
    assert (Habs : existsb
                     (String.eqb (js_str (type rel) ++ ":" ++ js_str (n_name (entity rel))))
                     (seenEntities st) = true)
      by (apply seen_has; exact Hk).
    congruence.
Qed.

Lemma fold_record_related_keys (name : option string) (related : list Related) :
  forall st,
    seenEntities st = map entity_key (relatedEntities st) ->
    NoDup (seenEntities st) ->
    seenEntities (fold_left (record_related name) related st)
    = map entity_key (relatedEntities (fold_left (record_related name) related st))
    /\ NoDup (seenEntities (fold_left (record_related name) related st)).
Proof.
  induction related as [|rel related IH]; intros st Hkeys Hnd; [now split|].
  cbn [fold_left].
  destruct (record_related_keys name st rel Hkeys Hnd) as [Hk Hn].
  now apply IH.
Qed.

Lemma expand_each_keys (names : list (option string)) (depth : Value) :
  forall st w st' w',
    seenEntities st = map entity_key (relatedEntities st) ->
    NoDup (seenEntities st) ->
    expand_each names depth st w = (Ok st', w') ->
    seenEntities st' = map entity_key (relatedEntities st')
    /\ NoDup (seenEntities st').
Proof.
  induction names as [|name names IH]; intros st w st' w' Hkeys Hnd Hrun.
  - cbn in Hrun. unfold ret in Hrun. injection Hrun as <- _. now split.
  - cbn [expand_each] in Hrun. unfold bind at 1, try_catch, bind in Hrun.
    destruct (findRelatedEntities name (Some depth) w) as [[e|related] w1];
      unfold ret in Hrun.
    + now apply (IH st w1 st' w').
    + destruct (fold_record_related_keys name related st Hkeys Hnd) as [Hk Hn].
      exact (IH _ w1 st' w' Hk Hn Hrun).
Qed.

(** Entities reached from different starting entities are recorded once:
    expandViaGraph always returns, and the entities it returns have pairwise
    distinct keys [type:name]. *)
Theorem expandViaGraph_records_each_key_once :
  forall (entityNames : list (option string)) (depth : option Value) (w : World),
    exists st w',
      expandViaGraph entityNames depth w = (Ok st, w')
      /\ NoDup (map entity_key (relatedEntities st)).
Proof.
  intros names depth w.
  destruct (expand_each_returns names
              (match depth with Some d => d | None => number 2 end)
              {| relatedEntities := []; paths := []; seenEntities := [] |} w)
    as (st & w' & Hrun).
  exists st, w'. split; [exact Hrun|].
  destruct (@expand_each_keys names _
              {| relatedEntities := []; paths := []; seenEntities := [] |}
              w st w' eq_refl (NoDup_nil _) Hrun) as [Hkeys Hnd].
  now rewrite <- Hkeys.
Qed.

(** A graph lookup that fails is skipped: when the graph store cannot be
    reached, the expansion is empty and the evidence set is the semantic
    result. *)
Theorem hybridRetrieval_survives_graph_failure :
  forall (q : string) (options : RetrievalOptions) (w w1 w2 : World) (m : string)
         (queryEmbedding : Embedding) (vectorResults : list Chunk),
    neo4j_fault w = Some m ->
    generateEmbedding q w = (Ok queryEmbedding, w1) ->
    vectorSearch queryEmbedding
      (Some (default (number (topK (config w))) (opt_topK options))) w1
    = (Ok vectorResults, w2) ->
    exists r w',
      hybridRetrieval q options w = (Ok r, w')
      /\ allChunks r = vectorResults
      /\ graphEntities r = []
      /\ graphPaths r = [].
Proof.
  intros q options w w1 w2 m emb vres Hfault Hemb Hsearch.
  pose proof (generateEmbedding_world _ _ Hemb) as ->.
  pose proof (vectorSearch_world _ _ _ Hsearch) as ->.
  unfold hybridRetrieval.
  unfold bind at 1. rewrite Hemb.
  unfold bind at 1. unfold default in Hsearch. rewrite Hsearch.
  destruct vres as [|c vres].
  - eexists. eexists. unfold ret. repeat split.
  - assert (Hdown : forall names depth st w0,
              neo4j_fault w0 = Some m ->
              exists w0', expand_each names depth st w0 = (Ok st, w0')).
    { induction names as [|name names IH]; intros depth st w0 Hf.
      - exists w0. reflexivity.
      - cbn [expand_each]. unfold bind at 1, try_catch, bind.
        unfold findRelatedEntities, bind, try_finally, getSession, session_close,
          ret, session_run.
        destruct (driver w0); rewrite ?Hf; apply IH; exact Hf. }
    assert (Hnames : exists names w3,
              extractEntityNamesFromChunks (c :: vres) w = (Ok names, w3)
              /\ neo4j_fault w3 = Some m).
    { unfold extractEntityNamesFromChunks.
      destruct (fold_left names_of_extraction (c :: vres) []) as [|n ns].
      - unfold try_catch, bind, ret, getSession, session_run.
        destruct (driver w); rewrite ?Hfault; eexists; eexists; split;
          try reflexivity; exact Hfault.
      - eexists. eexists. split; [reflexivity | exact Hfault]. }
    destruct Hnames as (names & w3 & Hnames & Hf3).
    unfold bind at 1. rewrite Hnames.
    unfold bind at 1. unfold expandViaGraph.
    destruct (Hdown names
                (match opt_graphDepth options with
                 | Some d => d
                 | None => number (graphTraversalDepth (config w))
                 end)
                {| relatedEntities := []; paths := []; seenEntities := [] |} w3 Hf3)
      as (w4 & ->).
    cbn [relatedEntities paths collect_chunk_ids fold_left].
    unfold bind, ret. eexists. eexists. split; [reflexivity|].
    cbn [allChunks graphEntities graphPaths filter].
    rewrite app_nil_r. repeat split.
    now destruct (opt_includeGraphPaths options) as [[]|].
Qed.

(** The sample corpus behind an unreachable graph store. *)
Lemma hybridRetrieval_survives_graph_failure_witness :
  exists r w',
    hybridRetrieval "How is Sam Altman related to Microsoft?" (depth_options 2)
      unreachable_graph_world = (Ok r, w')
    /\ allChunks r = [altman_passage]
    /\ graphEntities r = []
    /\ graphPaths r = [].
Proof.
  apply (@hybridRetrieval_survives_graph_failure
           "How is Sam Altman related to Microsoft?" (depth_options 2)
           unreachable_graph_world unreachable_graph_world unreachable_graph_world
           "connect ECONNREFUSED 127.0.0.1:7687"
           (EmbeddingOf "How is Sam Altman related to Microsoft?")
           [altman_passage]);
    reflexivity.
Defined.

(** When retrieval finds no passage the orchestrator answers with the fixed
    sentence, with no citation and no graph path, and does not call the
    model. *)
Theorem queryGraphRAG_empty_evidence :
  forall (q : string) (options : QueryOptions) (w w0 w1 : World) (r : Retrieval),
    (connectMongoDB ;; connectNeo4j) w = (Ok tt, w0) ->
    hybridRetrieval q
      {| opt_topK := Some (default (number (topK (config w))) (q_topK options));
         opt_graphDepth :=
           Some (default (number (graphTraversalDepth (config w))) (q_graphDepth options));
         opt_includeGraphPaths := None |} w0 = (Ok r, w1) ->
    allChunks r = [] ->
    exists a w',
      queryGraphRAG q options w = (Ok a, w')
      /\ a_query a = q
      /\ answer a = "I could not find relevant information to answer your question."
      /\ citations a = []
      /\ a_graphPaths a = []
      /\ invocations w' = invocations w1.
Proof.
  intros q options w w0 w1 r Hconnect Hretrieve Hnone.
  unfold queryGraphRAG, try_finally, try_catch.
  unfold bind at 1 in Hconnect. unfold bind at 1.
  destruct (connectMongoDB w) as [[e1|[]] wa]; [discriminate|].
  unfold bind at 1.
  rewrite Hconnect. unfold bind at 1. rewrite Hretrieve, Hnone. unfold ret.
  destruct (close_both w1) as (w' & -> & Hinv).
  eexists. eexists. split; [reflexivity|].
  cbn [a_query answer citations a_graphPaths]. repeat split. exact Hinv.
Qed.

(** A query for which the semantic index finds nothing. *)
Lemma queryGraphRAG_empty_evidence_witness :
  exists a w',
    queryGraphRAG "Who founded Anthropic?" default_query silent_world = (Ok a, w')
    /\ answer a = "I could not find relevant information to answer your question."
    /\ citations a = []
    /\ a_graphPaths a = []
    /\ invocations w' = [].
Proof.
  destruct (@queryGraphRAG_empty_evidence
              "Who founded Anthropic?" default_query silent_world silent_world
              silent_world
              {| query := "Who founded Anthropic?"; vectorChunks := [];
                 graphEntities := []; graphChunks := []; allChunks := [];
                 graphPaths := [] |})
    as (a & w' & Hrun & _ & Hanswer & Hcite & Hpaths & Hinv);
    try reflexivity.
  exists a, w'. repeat split; assumption.
Defined.

Lemma filter_all {A} (p : A -> bool) (l : list A) :
  forallb p l = true -> filter p l = l.
Proof.
  induction l as [|a l IH]; cbn; [reflexivity|].
  intros H. apply andb_true_iff in H as [Ha Hl]. now rewrite Ha, IH.
Qed.

Lemma valid_relationships_typed (rs : list Relationship) :
  forallb valid_relationship rs = true -> forallb typed_relationship rs = true.
Proof.
  induction rs as [|rel rs IH]; cbn [forallb]; [reflexivity|].
  intros H. apply andb_true_iff in H as [Hrel Hrs]. rewrite (IH Hrs), andb_true_r.
  unfold valid_relationship, typed_relationship in *.
  destruct (r_from_type rel), (r_to_type rel), (r_type rel); cbn in Hrel;
    rewrite ?andb_false_r in Hrel; try discriminate; reflexivity.
Qed.

Lemma valid_entities_upserted (pr : Provenance) (es : list Entity) :
  forallb valid_entity es = true ->
  length (flat_map (entity_upsert pr) es) = length es.
Proof.
  induction es as [|e es IH]; cbn [forallb flat_map length]; [reflexivity|].
  intros H. apply andb_true_iff in H as [He Hes].
  rewrite length_app, (IH Hes). unfold valid_entity, entity_upsert in *.
  destruct (e_type e) as [t|]; [|now rewrite andb_false_r in He].
  apply andb_true_iff in He as [_ ->]. reflexivity.
Qed.

Lemma typed_relationships_upserted (pr : Provenance) (rs : list Relationship) :
  forallb typed_relationship rs = true ->
  length (flat_map (relationship_upsert pr) rs) = length rs.
Proof.
  induction rs as [|rel rs IH]; cbn [forallb flat_map length]; [reflexivity|].
  intros H. apply andb_true_iff in H as [Hrel Hrs].
  rewrite length_app, (IH Hrs). unfold typed_relationship, relationship_upsert in *.
  destruct (r_from_type rel), (r_to_type rel), (r_type rel); try discriminate.
  reflexivity.
Qed.

(** On an extraction that passes validateExtraction, storeExtraction sends
    the upserts the specification asks for, one for each entity and one for
    each relationship, and the counts it returns are the numbers of these
    upserts. *)
Theorem validated_extraction_stored_as_specified :
  forall (x : Extraction) (chunkId docId : string) (w : World),
    let pr := {| p_chunk_id := chunkId; p_doc_id := docId; p_extracted_at := now w |} in
    validateExtraction (Some x) = true ->
    driver w = true ->
    neo4j_fault w = None ->
    (forall q, In q (validated_upserts pr x) -> rejects w q = None) ->
    exists counts,
      storeExtraction x chunkId docId w = (Ok counts, sent (validated_upserts pr x) w)
      /\ issued (sent (validated_upserts pr x) w) = issued w ++ validated_upserts pr x
      /\ length (validated_upserts pr x) = n_entities counts + n_relationships counts.
Proof.
  intros x chunkId docId w pr Hvalid Hd Hf Hr.
  assert (Hsame : upserts pr x = validated_upserts pr x).
  { unfold validateExtraction, upserts, validated_upserts in *.
    destruct (entities x) as [es|]; [|discriminate].
    destruct (relationships x) as [rs|]; [|discriminate].
    apply andb_true_iff in Hvalid as [He Hrs]. cbn [default].
    now rewrite (filter_all _ _ He), (filter_all _ _ Hrs). }
  assert (Htyped : forallb typed_relationship (default [] (relationships x)) = true).
  { unfold validateExtraction in Hvalid.
    destruct (entities x) as [es|]; [|discriminate].
    destruct (relationships x) as [rs|]; [|discriminate].
    apply andb_true_iff in Hvalid as [_ Hrs]. now apply valid_relationships_typed. }
  eexists. split; [|split].
  - rewrite <- Hsame. apply storeExtraction_accepted; auto.
    fold pr. rewrite Hsame. exact Hr.
  - apply sent_frame.
  - rewrite <- Hsame. unfold upserts. rewrite length_app.
    cbn [n_entities n_relationships].
    unfold validateExtraction in Hvalid.
    destruct (entities x) as [es|]; [|discriminate].
    destruct (relationships x) as [rs|]; [|discriminate].
    apply andb_true_iff in Hvalid as [He Hrs]. cbn [default] in *.
    now rewrite (valid_entities_upserted pr es He),
      (typed_relationships_upserted pr rs Htyped).
Qed.

(** A valid extraction of two entities and one relationship. *)
Lemma validated_extraction_stored_as_specified_witness :
  exists counts,
    storeExtraction valid_extraction "c1" "d1" (sample_world empty_graph [] [])
    = (Ok counts,
       sent (validated_upserts sample_provenance valid_extraction)
            (sample_world empty_graph [] []))
    /\ issued (sent (validated_upserts sample_provenance valid_extraction)
                    (sample_world empty_graph [] []))
       = [MergeNode "Person" (Some "Sam Altman") sample_provenance;
          MergeNode "Company" (Some "OpenAI") sample_provenance;
          MergeRelationship "Person" "Company" "CEO_OF" (Some "Sam Altman")
            (Some "OpenAI") sample_provenance]
    /\ 3 = n_entities counts + n_relationships counts.
Proof.
  apply (@validated_extraction_stored_as_specified valid_extraction "c1" "d1"
           (sample_world empty_graph [] [])).
  - reflexivity.
  - reflexivity.
  - reflexivity.
  - intros q Hq. cbn in Hq.
    destruct Hq as [<-|[<-|[<-|[]]]]; reflexivity.
Defined.

(** The scenario of the specification.  With two semantic matches that
    mention Sam Altman and depth 2, the traversal reaches OpenAI in one hop
    and Microsoft in two, and the passages linked to them are appended to the
    two semantic ones. *)
Example altman_scenario :
  exists r w',
    hybridRetrieval "How is Sam Altman related to Microsoft?" (depth_options 2)
      scenario_world = (Ok r, w')
    /\ vectorChunks r = [altman_passage; altman_interview]
    /\ allChunks r = [altman_passage; altman_interview; openai_passage; microsoft_passage]
    /\ graphPaths r
       = [{| gp_from := Some "Sam Altman"; gp_to := Some "OpenAI"; gp_depth := 1 |};
          {| gp_from := Some "Sam Altman"; gp_to := Some "Microsoft"; gp_depth := 2 |}]
    /\ formatGraphPaths (graphPaths r)
       = ["Sam Altman → OpenAI (1 hop)"; "Sam Altman → Microsoft (2 hops)"].
Proof. eexists. eexists. split; [lazy; reflexivity | repeat split]. Qed.

(** ** Frames: what the computations leave alone *)

Section Frames.

Variable R : World -> World -> Prop.
Hypothesis R_refl : forall w, R w w.
Hypothesis R_trans : forall w1 w2 w3, R w1 w2 -> R w2 w3 -> R w1 w3.

Lemma respects_ret {A} (a : A) : respects R (ret a).
Proof. intros w. apply R_refl. Qed.

Lemma respects_throw {A} (e : exn) : respects R (@throw A e).
Proof. intros w. apply R_refl. Qed.

Lemma respects_lift {A} (r : Result A) : respects R (lift r).
Proof. intros w. apply R_refl. Qed.

Lemma respects_bind {A B} (m : M A) (k : A -> M B) :
  respects R m -> (forall a, respects R (k a)) -> respects R (bind m k).
Proof.
  intros Hm Hk w. unfold bind. specialize (Hm w).
  destruct (m w) as [[e|a] w1]; cbn [snd] in *; [exact Hm|].
  eapply R_trans; [exact Hm | apply Hk].
Qed.

Lemma respects_try_catch {A} (body : M A) (handler : exn -> M A) :
  respects R body -> (forall e, respects R (handler e)) ->
  respects R (try_catch body handler).
Proof.
  intros Hb Hh w. unfold try_catch. specialize (Hb w).
  destruct (body w) as [[e|a] w1]; cbn [snd] in *; [|exact Hb].
  eapply R_trans; [exact Hb | apply Hh].
Qed.

Lemma respects_try_finally {A} (body : M A) (cleanup : M unit) :
  respects R body -> respects R cleanup -> respects R (try_finally body cleanup).
Proof.
  intros Hb Hc w. unfold try_finally. specialize (Hb w).
  destruct (body w) as [r w1]; cbn [snd] in *. specialize (Hc w1).
  destruct (cleanup w1) as [[e|u] w2]; cbn [snd] in *;
    eapply R_trans; eauto.
Qed.

End Frames.

Lemma logged_nil (w : World) : logged [] w = w.
Proof. destruct w. unfold logged, with_neo4j. cbn. now rewrite app_nil_r. Qed.

Lemma logged_logged (qs1 qs2 : list Cypher) (w : World) :
  logged qs2 (logged qs1 w) = logged (qs1 ++ qs2) w.
Proof. unfold logged, with_neo4j. cbn. now rewrite app_assoc. Qed.

Lemma reads_refl (w : World) : reads w w.
Proof. exists []. split; [symmetry; apply logged_nil | reflexivity]. Qed.

Lemma reads_trans (w1 w2 w3 : World) : reads w1 w2 -> reads w2 w3 -> reads w1 w3.
Proof.
  intros (qs1 & -> & H1) (qs2 & -> & H2). exists (qs1 ++ qs2).
  split; [apply logged_logged | now rewrite forallb_app, H1, H2].
Qed.

Lemma same_contents_refl (w : World) : same_contents w w.
Proof. now split. Qed.

Lemma same_contents_trans (w1 w2 w3 : World) :
  same_contents w1 w2 -> same_contents w2 w3 -> same_contents w1 w3.
Proof. intros [H1 H2] [H3 H4]. split; congruence. Qed.

Lemma same_client_refl (w : World) : same_client w w.
Proof. now repeat split. Qed.

Lemma same_client_trans (w1 w2 w3 : World) :
  same_client w1 w2 -> same_client w2 w3 -> same_client w1 w3.
Proof. intros (H1 & H2 & H3) (H4 & H5 & H6). repeat split; congruence. Qed.

Lemma reads_same_contents (w w' : World) : reads w w' -> same_contents w w'.
Proof. intros (qs & -> & _). now split. Qed.

Lemma reads_same_client (w w' : World) : reads w w' -> same_client w w'.
Proof. intros (qs & -> & _). now repeat split. Qed.

Lemma queried_refl (w : World) : queried w w.
Proof.
  exists (graph w), []. destruct w. unfold with_neo4j. cbn. now rewrite app_nil_r.
Qed.

Lemma queried_trans (w1 w2 w3 : World) : queried w1 w2 -> queried w2 w3 -> queried w1 w3.
Proof.
  intros (g1 & qs1 & ->) (g2 & qs2 & ->). exists g2, (qs1 ++ qs2).
  unfold with_neo4j. cbn. now rewrite app_assoc.
Qed.

Lemma reads_queried (w w' : World) : reads w w' -> queried w w'.
Proof. intros (qs & -> & _). now exists (graph w), qs. Qed.

Lemma queried_same_client (w w' : World) : queried w w' -> same_client w w'.
Proof. intros (g & qs & ->). now repeat split. Qed.

(** Queries leave the chunk store, the connections, the models and the log
    of prompts alone. *)
Lemma queried_frame (w w' : World) :
  queried w w' ->
  collection w' = collection w /\ driver w' = driver w
  /\ client w' = client w /\ db w' = db w
  /\ invocations w' = invocations w /\ answer_model w' = answer_model w
  /\ exists qs, issued w' = issued w ++ qs.
Proof. intros (g & qs & ->). repeat split. now exists qs. Qed.

Lemma plain_default (n : nat) (depth : option Value) :
  plain_depth depth = true -> plain (spliced (default (number n) depth)) = true.
Proof. destruct depth as [v|]; [intros H; exact H | intros _; apply plain_number]. Qed.

Lemma respects_weaken {A} (R1 R2 : World -> World -> Prop) (m : M A) :
  (forall w w', R1 w w' -> R2 w w') -> respects R1 m -> respects R2 m.
Proof. intros H Hm w. apply H, Hm. Qed.

Ltac frame_side :=
  first [ exact reads_refl | exact reads_trans
        | exact queried_refl | exact queried_trans
        | exact same_contents_refl | exact same_contents_trans
        | exact same_client_refl | exact same_client_trans ].

Ltac frame_step :=
  first
    [ frame_side
    | lazymatch goal with
      | |- respects _ (ret _) => apply respects_ret
      | |- respects _ (throw _) => apply respects_throw
      | |- respects _ (lift _) => apply respects_lift
      | |- respects _ (bind _ _) => apply respects_bind
      | |- respects _ (try_catch _ _) => apply respects_try_catch
      | |- respects _ (try_finally _ _) => apply respects_try_finally
      | |- forall _, _ => intro
      end ].

Ltac frame := repeat frame_step.

Lemma getSession_reads : respects reads getSession.
Proof. intros w. unfold getSession. destruct (driver w); apply reads_refl. Qed.

Lemma session_run_reads (q : Cypher) :
  is_read q = true -> respects reads (session_run q).
Proof.
  intros Hq w. exists [q]. split; [|cbn; now rewrite Hq].
  unfold session_run, logged.
  destruct (neo4j_fault w); [reflexivity|].
  destruct (rejects w q); [reflexivity|].
  destruct q as [| |name depth limit|]; try discriminate; [|reflexivity].
  cbn [is_read] in Hq. unfold plain in Hq.
  destruct (range_of depth) as [range|] eqn:Hrange; [|discriminate].
  now rewrite (@execute_plain _ _ _ _ _ _ Hrange).
Qed.

Lemma session_run_queried (q : Cypher) : respects queried (session_run q).
Proof.
  intros w. unfold session_run.
  destruct (neo4j_fault w); [now exists (graph w), [q]|].
  destruct (rejects w q); [now exists (graph w), [q]|].
  destruct (execute (foreign w) q (graph w)) as [g records]. now exists g, [q].
Qed.

Lemma getSession_queried : respects queried getSession.
Proof. intros w. unfold getSession. destruct (driver w); apply queried_refl. Qed.

Lemma findRelatedEntities_reads (name : option string) (depth : option Value) :
  plain_depth depth = true ->
  respects reads (findRelatedEntities name depth).
Proof.
  intros Hplain.
  unfold findRelatedEntities. frame; [apply getSession_reads|].
  apply session_run_reads. cbn [is_read].
  destruct depth as [v|]; [exact Hplain | apply plain_number].
Qed.

Lemma findRelatedEntities_queried (name : option string) (depth : option Value) :
  respects queried (findRelatedEntities name depth).
Proof.
  unfold findRelatedEntities. frame; [apply getSession_queried|].
  apply session_run_queried.
Qed.

Lemma expand_each_reads (names : list (option string)) (depth : Value) :
  plain (spliced depth) = true ->
  forall st, respects reads (expand_each names depth st).
Proof.
  intros Hplain.
  induction names as [|name names IH]; intros st; cbn [expand_each]; frame.
  - now apply findRelatedEntities_reads.
  - apply IH.
Qed.

Lemma expand_each_queried (names : list (option string)) (depth : Value) :
  forall st, respects queried (expand_each names depth st).
Proof.
  induction names as [|name names IH]; intros st; cbn [expand_each]; frame.
  - apply findRelatedEntities_queried.
  - apply IH.
Qed.

Lemma extractEntityNamesFromChunks_reads (chunks : list Chunk) :
  respects reads (extractEntityNamesFromChunks chunks).
Proof.
  unfold extractEntityNamesFromChunks.
  destruct (fold_left names_of_extraction chunks []) as [|n ns];
    [destruct chunks as [|c cs]|]; frame; [apply getSession_reads|].
  now apply session_run_reads.
Qed.

Lemma getCollection_reads : respects reads getCollection.
Proof. intros w. unfold getCollection. destruct (db w); apply reads_refl. Qed.

Lemma cursor_toArray_reads (docs : list Chunk) : respects reads (cursor_toArray docs).
Proof. intros w. unfold cursor_toArray. destruct (mongo_fault w); apply reads_refl. Qed.

Lemma vectorSearch_reads (emb : Embedding) (limit : option Value) :
  respects reads (vectorSearch emb limit).
Proof.
  intros w. destruct (vectorSearch emb limit w) as [r w1] eqn:E.
  apply vectorSearch_world in E. subst. apply reads_refl.
Qed.

Lemma getChunksByIds_reads (ids : list string) : respects reads (getChunksByIds ids).
Proof.
  unfold getChunksByIds. frame; [apply getCollection_reads|].
  apply cursor_toArray_reads.
Qed.

Lemma generateEmbedding_reads (q : string) : respects reads (generateEmbedding q).
Proof.
  intros w. destruct (generateEmbedding q w) as [r w1] eqn:E.
  apply generateEmbedding_world in E. subst. apply reads_refl.
Qed.

Lemma hybridRetrieval_reads (q : string) (options : RetrievalOptions) :
  plain_depth (opt_graphDepth options) = true ->
  respects reads (hybridRetrieval q options).
Proof.
  intros Hplain w. unfold hybridRetrieval.
  match goal with |- reads w (snd (?m w)) =>
    enough (H : respects reads m) by exact (H w) end.
  apply respects_bind; [frame_side | apply generateEmbedding_reads |].
  intros emb.
  apply respects_bind; [frame_side | apply vectorSearch_reads |].
  intros [|c vres]; [frame|].
  apply respects_bind;
    [frame_side | apply extractEntityNamesFromChunks_reads |].
  intros names.
  apply respects_bind; [frame_side | |].
  { apply expand_each_reads.
    destruct (opt_graphDepth options) as [v|]; [exact Hplain | apply plain_number]. }
  intros expansion.
  apply respects_bind; [frame_side | | frame].
  destruct (collect_chunk_ids _); [frame | apply getChunksByIds_reads].
Qed.

Lemma hybridRetrieval_queried (q : string) (options : RetrievalOptions) :
  respects queried (hybridRetrieval q options).
Proof.
  intros w. unfold hybridRetrieval.
  match goal with |- queried w (snd (?m w)) =>
    enough (H : respects queried m) by exact (H w) end.
  apply respects_bind; [frame_side | |].
  { apply (respects_weaken (R1 := reads)); [apply reads_queried|].
    apply generateEmbedding_reads. }
  intros emb.
  apply respects_bind; [frame_side | |].
  { apply (respects_weaken (R1 := reads)); [apply reads_queried|].
    apply vectorSearch_reads. }
  intros [|c vres]; [frame|].
  apply respects_bind; [frame_side | |].
  { apply (respects_weaken (R1 := reads)); [apply reads_queried|].
    apply extractEntityNamesFromChunks_reads. }
  intros names.
  apply respects_bind; [frame_side | apply expand_each_queried |].
  intros expansion.
  apply respects_bind; [frame_side | | frame].
  apply (respects_weaken (R1 := reads)); [apply reads_queried|].
  destruct (collect_chunk_ids _); [frame | apply getChunksByIds_reads].
Qed.

(** Retrieval writes nothing.  Whatever hybridRetrieval returns or throws, it
    leaves the collection and the connections as they were and sends no
    prompt to a chat model (the embedding of the query is the one call to a
    model it makes); and when the depth is spliced into the traversal as a
    numeral or as nothing, it leaves the graph as it was and sends the graph
    store nothing but the listing of the names and traversals of the
    pattern. *)
Theorem hybridRetrieval_read_only :
  forall (q : string) (options : RetrievalOptions) (w : World),
    let w' := snd (hybridRetrieval q options w) in
    collection w' = collection w
    /\ driver w' = driver w /\ client w' = client w /\ db w' = db w
    /\ invocations w' = invocations w
    /\ (plain_depth (opt_graphDepth options) = true ->
        graph w' = graph w
        /\ exists qs, issued w' = issued w ++ qs /\ forallb is_read qs = true).
Proof.
  intros q options w w'. subst w'.
  destruct (queried_frame (hybridRetrieval_queried q options w))
    as (Hc & Hd & Hcl & Hdb & Hi & _).
  repeat (split; [assumption|]).
  intros Hplain.
  destruct (hybridRetrieval_reads q options Hplain w) as (qs & -> & Hqs).
  split; [reflexivity|]. exists qs. now split.
Qed.

(** Depth 2 on the sample corpus: the listing of the names is not needed,
    and one traversal is sent. *)
Lemma hybridRetrieval_read_only_witness :
  let w' := snd (hybridRetrieval "How is Sam Altman related to Microsoft?"
                   (depth_options 2) altman_world) in
  collection w' = collection altman_world
  /\ invocations w' = []
  /\ graph w' = altman_graph
  /\ issued w' = [MatchNames; MatchRelated (Some "Sam Altman") "2" 50].
Proof.
  intros w'.
  destruct (@hybridRetrieval_read_only "How is Sam Altman related to Microsoft?"
              (depth_options 2) altman_world)
    as (Hc & _ & _ & _ & Hi & Hread).
  destruct (Hread eq_refl) as (Hg & _).
  split; [exact Hc|]. split; [exact Hi|]. split; [exact Hg|].
  vm_compute. reflexivity.
Defined.

(** ** When retrieval and the query pipeline return *)

Lemma generateEmbedding_ok (q : string) (w : World) (emb : Embedding) :
  embedQuery w q = Ok emb -> generateEmbedding q w = (Ok emb, w).
Proof. intros H. unfold generateEmbedding, try_catch, lift. now rewrite H. Qed.

Lemma vectorSearch_ok (emb : Embedding) (limit : option Value) (w : World)
    (found : list Chunk) :
  db w = true -> mongo_fault w = None ->
  nearest w emb (search_limit limit w) (collection w) = Ok found ->
  vectorSearch emb limit w = (Ok (map project found), w).
Proof.
  intros Hdb Hf Hfound.
  unfold vectorSearch, bind, getCollection, cursor_toArray, lift, ret.
  now rewrite Hdb, Hf, Hfound.
Qed.

Lemma getChunksByIds_ok (ids : list string) (w : World) :
  db w = true -> mongo_fault w = None ->
  exists docs, getChunksByIds ids w = (Ok docs, w).
Proof.
  intros Hdb Hf. unfold getChunksByIds, bind, getCollection, cursor_toArray.
  rewrite Hdb, Hf. eexists. reflexivity.
Qed.

Lemma vectorSearch_needs (emb : Embedding) (limit : option Value) (w w' : World)
    (docs : list Chunk) :
  vectorSearch emb limit w = (Ok docs, w') ->
  db w = true /\ mongo_fault w = None
  /\ exists found,
       nearest w emb (search_limit limit w) (collection w) = Ok found
       /\ docs = map project found.
Proof.
  unfold vectorSearch, bind, getCollection, cursor_toArray, lift, ret.
  destruct (db w); [|discriminate].
  destruct (mongo_fault w); [discriminate|].
  destruct (nearest w emb _ _) as [e|found]; [discriminate|].
  intros [= <- _]. repeat split. now exists found.
Qed.

Lemma generateEmbedding_needs (q : string) (w w' : World) (emb : Embedding) :
  generateEmbedding q w = (Ok emb, w') -> embedQuery w q = Ok emb.
Proof.
  unfold generateEmbedding, try_catch, lift, throw.
  destruct (embedQuery w q); intros H; now inversion H.
Qed.

Lemma hybridRetrieval_returns_cases (q : string) (options : RetrievalOptions)
    (w : World) :
  (exists r w', hybridRetrieval q options w = (Ok r, w'))
  <-> (db w = true /\ mongo_fault w = None
       /\ searchable q (Some (default (number (topK (config w))) (opt_topK options))) w).
Proof.
  split.
  - intros (r & w' & H). apply hybridRetrieval_shape in H.
    destruct H as ((emb & Hemb & Hsearch) & _).
    apply generateEmbedding_needs in Hemb. apply vectorSearch_needs in Hsearch.
    destruct Hsearch as (Hdb & Hf & found & Hfound & _).
    repeat split; auto. now exists emb, found.
  - intros (Hdb & Hf & emb & found & Hemb & Hfound).
    unfold hybridRetrieval. unfold bind at 1.
    rewrite (generateEmbedding_ok _ _ Hemb).
    unfold bind at 1. unfold default in Hfound.
    rewrite (@vectorSearch_ok _ _ _ _ Hdb Hf Hfound).
    destruct (map project found) as [|c docs]; [eexists; eexists; reflexivity|].
    unfold bind at 1.
    destruct (extractEntityNamesFromChunks_returns (c :: docs) w)
      as (names & w3 & E3).
    pose proof (extractEntityNamesFromChunks_reads (c :: docs) w) as R3.
    rewrite E3 in *. cbn [snd] in R3. apply reads_queried in R3.
    unfold bind at 1. unfold expandViaGraph.
    match goal with |- context [expand_each names ?d ?st w3] =>
      destruct (expand_each_returns names d st w3) as (st' & w4 & E4);
      pose proof (expand_each_queried names d st w3) as R4
    end.
    rewrite E4 in *. cbn [snd] in R4.
    pose proof (queried_same_client (queried_trans R3 R4)) as (_ & Hdb4 & Hf4).
    rewrite Hdb in Hdb4. rewrite Hf in Hf4.
    unfold bind at 1.
    destruct (collect_chunk_ids (relatedEntities st')) as [|i ids].
    + eexists; eexists; reflexivity.
    + destruct (getChunksByIds_ok (i :: ids) w4 Hdb4 Hf4) as (fetched & ->).
      eexists; eexists; reflexivity.
Qed.

(** hybridRetrieval returns exactly when the embedding of the query is
    obtained, the chunk store is connected and reachable, and it accepts the
    search with the limit it is sent, the given topK or, when that is falsy,
    the configured one: no behaviour of the graph store makes it throw, and
    nothing else makes it return. *)
Theorem hybridRetrieval_returns_iff :
  forall (q : string) (options : RetrievalOptions) (w : World),
    let given := default (number (topK (config w))) (opt_topK options) in
    let k := if truthy_value given then given else number (topK (config w)) in
    (exists r w', hybridRetrieval q options w = (Ok r, w'))
    <-> (db w = true /\ mongo_fault w = None
         /\ exists emb found,
              embedQuery w q = Ok emb
              /\ nearest w emb k (collection w) = Ok found).
Proof.
  intros q options w given k. split.
  - intros H. now apply hybridRetrieval_returns_cases in H.
  - intros H. now apply hybridRetrieval_returns_cases.
Qed.

(** A store that accepts five, and a store that refuses 1001 results, of
    which it would have to consider 10010 candidates. *)
Lemma hybridRetrieval_returns_iff_witness :
  (exists r w',
      hybridRetrieval "How is Sam Altman related to Microsoft?"
        {| opt_topK := None; opt_graphDepth := None; opt_includeGraphPaths := None |}
        altman_world = (Ok r, w'))
  /\ fst (hybridRetrieval "How is Sam Altman related to Microsoft?"
            {| opt_topK := Some (number 1001); opt_graphDepth := None;
               opt_includeGraphPaths := None |}
            altman_world)
     = Throw (Error "numCandidates must be less than or equal to 10000").
Proof.
  split.
  - apply (proj2 (@hybridRetrieval_returns_iff
                    "How is Sam Altman related to Microsoft?"
                    {| opt_topK := None; opt_graphDepth := None;
                       opt_includeGraphPaths := None |} altman_world)).
    split; [reflexivity|]. split; [reflexivity|].
    eexists. eexists. split; vm_compute; reflexivity.
  - vm_compute. reflexivity.
Defined.

Lemma connectNeo4j_same_client : respects same_client connectNeo4j.
Proof.
  intros w. unfold connectNeo4j.
  destruct (driver w); [apply same_client_refl|].
  destruct (neo4j_fault w); now repeat split.
Qed.

Lemma connectNeo4j_same_contents : respects same_contents connectNeo4j.
Proof.
  intros w. unfold connectNeo4j.
  destruct (driver w); [apply same_contents_refl|].
  destruct (neo4j_fault w); now split.
Qed.

Lemma connectMongoDB_same_contents : respects same_contents connectMongoDB.
Proof.
  intros w. unfold connectMongoDB.
  destruct (client w); [apply same_contents_refl|].
  destruct (mongo_fault w); now split.
Qed.

Lemma closeMongoDB_same_contents : respects same_contents closeMongoDB.
Proof. intros w. unfold closeMongoDB. destruct (client w); now split. Qed.

Lemma closeNeo4j_same_contents : respects same_contents closeNeo4j.
Proof. intros w. unfold closeNeo4j. destruct (driver w); now split. Qed.

Lemma invoke_answer_model_same_client (prompt : string) :
  respects same_client (invoke_answer_model prompt).
Proof. intros w. now repeat split. Qed.

Lemma invoke_answer_model_same_contents (prompt : string) :
  respects same_contents (invoke_answer_model prompt).
Proof. intros w. now split. Qed.

Lemma hybridRetrieval_same_client (q : string) (options : RetrievalOptions) :
  respects same_client (hybridRetrieval q options).
Proof.
  apply (respects_weaken (R1 := queried)); [apply queried_same_client|].
  apply hybridRetrieval_queried.
Qed.

Lemma hybridRetrieval_same_contents (q : string) (options : RetrievalOptions) :
  plain_depth (opt_graphDepth options) = true ->
  respects same_contents (hybridRetrieval q options).
Proof.
  intros Hplain.
  apply (respects_weaken (R1 := reads)); [apply reads_same_contents|].
  now apply hybridRetrieval_reads.
Qed.

Lemma connectMongoDB_sets_client (w : World) : client (snd (connectMongoDB w)) = true.
Proof.
  unfold connectMongoDB. destruct (client w) eqn:E; [exact E|].
  destruct (mongo_fault w); reflexivity.
Qed.

Lemma client_set_after_connect {A} (m : M A) (w : World) :
  respects same_client m ->
  client (snd (try_catch (connectMongoDB ;; m) (fun error => throw error) w)) = true.
Proof.
  intros Hm. unfold try_catch, bind, throw.
  pose proof (connectMongoDB_sets_client w) as Hc.
  destruct (connectMongoDB w) as [[e|u] w1]; cbn [snd] in *; [exact Hc|].
  destruct (Hm w1) as (Hc1 & _).
  destruct (m w1) as [[e|a] w2]; cbn [snd] in *; congruence.
Qed.

Lemma same_collection_refl (w : World) : same_collection w w.
Proof. reflexivity. Qed.

Lemma same_collection_trans (w1 w2 w3 : World) :
  same_collection w1 w2 -> same_collection w2 w3 -> same_collection w1 w3.
Proof. unfold same_collection. congruence. Qed.

Lemma connectMongoDB_same_collection : respects same_collection connectMongoDB.
Proof.
  intros w. unfold connectMongoDB, same_collection.
  destruct (client w); [reflexivity|]. destruct (mongo_fault w); reflexivity.
Qed.

Lemma connectNeo4j_same_collection : respects same_collection connectNeo4j.
Proof.
  intros w. unfold connectNeo4j, same_collection.
  destruct (driver w); [reflexivity|]. destruct (neo4j_fault w); reflexivity.
Qed.

Lemma hybridRetrieval_same_collection (q : string) (options : RetrievalOptions) :
  respects same_collection (hybridRetrieval q options).
Proof.
  intros w. now destruct (queried_frame (hybridRetrieval_queried q options w)).
Qed.

Lemma invoke_answer_model_same_collection (prompt : string) :
  respects same_collection (invoke_answer_model prompt).
Proof. intros w. reflexivity. Qed.

Ltac frame_query :=
  repeat
    first
      [ exact same_collection_refl | exact same_collection_trans
      | frame_step ];
  first [ apply connectMongoDB_same_contents
        | apply connectNeo4j_same_contents
        | apply connectNeo4j_same_client
        | apply connectMongoDB_same_collection
        | apply connectNeo4j_same_collection
        | apply hybridRetrieval_same_collection
        | apply hybridRetrieval_same_contents; assumption
        | apply hybridRetrieval_same_client
        | destruct (allChunks _);
          repeat
            first
              [ exact same_collection_refl | exact same_collection_trans
              | frame_step ];
          first [ apply invoke_answer_model_same_contents
                | apply invoke_answer_model_same_client
                | apply invoke_answer_model_same_collection ] ].

Lemma queryGraphRAG_cleanup (q : string) (options : QueryOptions) (w : World) :
  let w' := snd (queryGraphRAG q options w) in
  client w' = false /\ db w' = false /\ driver w' = false
  /\ collection w' = collection w
  /\ (plain_depth (q_graphDepth options) = true -> graph w' = graph w).
Proof.
  intros w'. subst w'. unfold queryGraphRAG, try_finally.
  pose proof (@plain_default (graphTraversalDepth (config w)) (q_graphDepth options))
    as Hdepth.
  match goal with |- context [try_catch (connectMongoDB ;; ?m) ?h w] =>
    assert (Hclient : respects same_client m);
    [|assert (Hcoll : respects same_collection (try_catch (connectMongoDB ;; m) h));
      [|assert (Hcontents : plain_depth (q_graphDepth options) = true ->
                            respects same_contents (try_catch (connectMongoDB ;; m) h));
        [|pose proof (client_set_after_connect w Hclient) as Hset;
          specialize (Hcoll w);
          assert (Hsame : plain_depth (q_graphDepth options) = true ->
                          graph (snd (try_catch (connectMongoDB ;; m) h w)) = graph w)
            by (intros Hp; now destruct (Hcontents Hp w));
          clear Hcontents;
          destruct (try_catch (connectMongoDB ;; m) h w) as [r w1]]]]
  end.
  - frame_query.
  - frame_query.
  - intros Hplain. specialize (Hdepth Hplain). frame_query.
  - cbn [snd] in Hset, Hsame, Hcoll. unfold same_collection in Hcoll.
    unfold bind, closeMongoDB, closeNeo4j. rewrite Hset.
    cbn [driver with_mongo].
    destruct (driver w1) eqn:Hd; destruct r; cbn; rewrite ?Hd; auto.
Qed.

(** queryGraphRAG always cleans up.  Whether it returns an answer or throws,
    and whatever the stores and the models do, both connections are closed
    when it ends (client, db and driver are unset, also when they were set
    before the call) and the collection is what it was; and when the depth is
    spliced into the traversal as a numeral or as nothing, the graph is what
    it was, too. *)
Theorem queryGraphRAG_disconnects_and_preserves :
  forall (q : string) (options : QueryOptions) (w : World),
    let w' := snd (queryGraphRAG q options w) in
    client w' = false /\ db w' = false /\ driver w' = false
    /\ collection w' = collection w
    /\ (plain_depth (q_graphDepth options) = true -> graph w' = graph w).
Proof. intros q options w. exact (queryGraphRAG_cleanup q options w). Qed.

(** A query on the sample corpus, with the configured depth. *)
Lemma queryGraphRAG_disconnects_and_preserves_witness :
  let w' := snd (queryGraphRAG "How is Sam Altman related to Microsoft?"
                   default_query slow_world) in
  client w' = false /\ db w' = false /\ driver w' = false
  /\ collection w' = collection slow_world
  /\ graph w' = altman_graph
  /\ issued w' = [MatchNames; MatchRelated (Some "Sam Altman") "2" 50].
Proof.
  intros w'.
  destruct (@queryGraphRAG_disconnects_and_preserves
              "How is Sam Altman related to Microsoft?" default_query slow_world)
    as (Hc & Hdb & Hd & Hcoll & Hg).
  repeat (split; [assumption|]).
  split; [exact (Hg eq_refl) | vm_compute; reflexivity].
Defined.

Lemma answer_always_returned (q : string) (depth : Value) (r : Retrieval) (w : World) :
  exists a w',
    match allChunks r with
    | [] =>
        ret {| a_query := q; answer := no_information; citations := [];
               a_graphPaths := []; retrievalResults := r |}
    | _ :: _ =>
        answer <- try_catch
                    (invoke_answer_model
                       (constructGraphAwarePrompt q r
                          {| includeChunkText := None;
                             includeGraphPaths := Some (above_zero depth);
                             includeProvenance := Some false;
                             maxChunks := Some 2;
                             maxGraphPaths := Some 3 |}))
                    (fun _ => ret fallback_answer) ;;
        ret {| a_query := q; answer := answer;
               citations := extractCitations (allChunks r);
               a_graphPaths := graphPaths r;
               retrievalResults := r |}
    end w = (Ok a, w').
Proof.
  destruct (allChunks r); [eexists; eexists; reflexivity|].
  unfold bind, try_catch, invoke_answer_model, ret.
  destruct (client_invoke _ _); eexists; eexists; reflexivity.
Qed.

Lemma connected_pipeline_returns_iff {A} (q : string) (options : RetrievalOptions)
    (k : Retrieval -> M A) (w : World) :
  (forall r w1, exists a w', k r w1 = (Ok a, w')) ->
  (exists a w',
      (connectMongoDB ;; connectNeo4j ;; r <- hybridRetrieval q options ;; k r) w
      = (Ok a, w'))
  <-> (mongo_fault w = None
       /\ (client w = true -> db w = true)
       /\ (driver w = true \/ neo4j_fault w = None)
       /\ searchable q (Some (default (number (topK (config w))) (opt_topK options))) w).
Proof.
  intros Hk. unfold bind at 1. unfold connectMongoDB.
  destruct (client w) eqn:Ec.
  - unfold bind at 1. unfold connectNeo4j.
    destruct (driver w) eqn:Ed.
    + unfold bind.
      pose proof (hybridRetrieval_returns_cases q options w) as Hiff.
      destruct (hybridRetrieval q options w) as [[e|r] w1].
      * split.
        -- intros (a & w' & H). discriminate H.
        -- intros (Hf & Hdb & _ & Hemb).
           destruct (proj2 Hiff) as (r & w' & H); [auto|]. discriminate H.
      * destruct (proj1 Hiff) as (Hdb & Hf & Hemb); [eauto|].
        split; [intros _; auto | intros _; apply Hk].
    + destruct (neo4j_fault w) eqn:En.
      * split; [intros (a & w' & H); discriminate H|].
        intros (_ & _ & [H|H] & _); discriminate H.
      * unfold bind.
        pose proof (hybridRetrieval_returns_cases q options
                      (with_neo4j true (graph w) (issued w) w)) as Hiff.
        change (searchable q ?l (with_neo4j true (graph w) (issued w) w))
          with (searchable q l w) in Hiff.
        cbn [db mongo_fault config with_neo4j] in Hiff.
        destruct (hybridRetrieval q options _) as [[e|r] w1].
        -- split.
           ++ intros (a & w' & H). discriminate H.
           ++ intros (Hf & Hdb & _ & Hemb).
              destruct (proj2 Hiff) as (r & w' & H); [auto|]. discriminate H.
        -- destruct (proj1 Hiff) as (Hdb & Hf & Hemb); [eauto|].
           split; [intros _; auto | intros _; apply Hk].
  - destruct (mongo_fault w) eqn:Ef.
    + split; [intros (a & w' & H); discriminate H|].
      intros (H & _). discriminate H.
    + unfold bind at 1. unfold connectNeo4j. cbn [driver with_mongo].
      destruct (driver w) eqn:Ed.
      * unfold bind.
        pose proof (hybridRetrieval_returns_cases q options (with_mongo true true w))
          as Hiff.
        change (searchable q ?l (with_mongo true true w))
          with (searchable q l w) in Hiff.
        cbn [db mongo_fault config with_mongo] in Hiff. rewrite Ef in Hiff.
        destruct (hybridRetrieval q options _) as [[e|r] w1].
        -- split.
           ++ intros (a & w' & H). discriminate H.
           ++ intros (_ & _ & _ & Hemb).
              destruct (proj2 Hiff) as (r & w' & H); [auto|]. discriminate H.
        -- destruct (proj1 Hiff) as (_ & _ & Hemb); [eauto|].
           split; [intros _; repeat split; auto; discriminate | intros _; apply Hk].
      * cbn [neo4j_fault graph issued with_mongo].
        destruct (neo4j_fault w) eqn:En.
        -- split; [intros (a & w' & H); discriminate H|].
           intros (_ & _ & [H|H] & _); discriminate H.
        -- unfold bind.
           pose proof (hybridRetrieval_returns_cases q options
                         (with_neo4j true (graph w) (issued w)
                            (with_mongo true true w))) as Hiff.
           change (searchable q ?l (with_neo4j true (graph w) (issued w)
                                      (with_mongo true true w)))
             with (searchable q l w) in Hiff.
           cbn [db mongo_fault config with_neo4j with_mongo] in Hiff.
           rewrite Ef in Hiff.
           destruct (hybridRetrieval q options _) as [[e|r] w1].
           ++ split.
              ** intros (a & w' & H). discriminate H.
              ** intros (_ & _ & _ & Hemb).
                 destruct (proj2 Hiff) as (r & w' & H); [auto|]. discriminate H.
           ++ destruct (proj1 Hiff) as (_ & _ & Hemb); [eauto|].
              split; [intros _; repeat split; auto; discriminate
                     | intros _; apply Hk].
Qed.

Lemma queryGraphRAG_returns_cases (q : string) (options : QueryOptions) (w : World) :
  (exists a w', queryGraphRAG q options w = (Ok a, w'))
  <-> (mongo_fault w = None
       /\ (client w = true -> db w = true)
       /\ (driver w = true \/ neo4j_fault w = None)
       /\ searchable q (Some (default (number (topK (config w))) (q_topK options))) w).
Proof.
  unfold queryGraphRAG, try_finally, try_catch.
  match goal with |- context [bind (hybridRetrieval q ?opts) ?k] =>
    pose proof (@connected_pipeline_returns_iff _ q opts k w) as Hiff
  end.
  match type of Hiff with ?P -> _ =>
    assert (Hk : P) by (intros r w1; apply answer_always_returned)
  end.
  specialize (Hiff Hk). clear Hk. cbn [opt_topK default] in Hiff.
  match goal with |- context [bind connectMongoDB ?m w] =>
    destruct (bind connectMongoDB m w) as [[e|a] w1]
  end.
  - unfold throw.
    destruct (close_both w1) as (w2 & -> & _).
    split; [intros (a & w' & H); discriminate H|].
    intros H. destruct (proj2 Hiff H) as (a & w' & H'). discriminate H'.
  - destruct (close_both w1) as (w2 & -> & _).
    split; [intros _; apply Hiff; eauto | intros _; eauto].
Qed.

(** What makes a query fail.  queryGraphRAG returns an answer exactly when the
    chunk store is reachable, no client without database is left over from an
    earlier failed connection, the graph store is reachable or its driver is
    already set, the embedding of the query is obtained, and the chunk store
    accepts the search with the limit it is sent, the given topK or, when that
    is falsy, the configured one.  Nothing the graph store does after the
    connection and nothing the answer model does makes the call throw. *)
Theorem queryGraphRAG_returns_iff :
  forall (q : string) (options : QueryOptions) (w : World),
    let given := default (number (topK (config w))) (q_topK options) in
    let k := if truthy_value given then given else number (topK (config w)) in
    (exists a w', queryGraphRAG q options w = (Ok a, w'))
    <-> (mongo_fault w = None
         /\ (client w = true -> db w = true)
         /\ (driver w = true \/ neo4j_fault w = None)
         /\ exists emb found,
              embedQuery w q = Ok emb
              /\ nearest w emb k (collection w) = Ok found).
Proof.
  intros q options w given k. split.
  - intros H. now apply queryGraphRAG_returns_cases in H.
  - intros H. now apply queryGraphRAG_returns_cases.
Qed.

(** With the configured topK the sample store answers; asked for the 1001
    best passages it refuses, and the call throws. *)
Lemma queryGraphRAG_returns_iff_witness :
  (exists a w',
      queryGraphRAG "How is Sam Altman related to Microsoft?" default_query slow_world
      = (Ok a, w'))
  /\ fst (queryGraphRAG "How is Sam Altman related to Microsoft?"
            {| q_topK := Some (number 1001); q_graphDepth := None;
               q_verbose := Some false |} slow_world)
     = Throw (Error "numCandidates must be less than or equal to 10000").
Proof.
  split.
  - apply (proj2 (@queryGraphRAG_returns_iff
                    "How is Sam Altman related to Microsoft?" default_query
                    slow_world)).
    split; [reflexivity|]. split; [discriminate|]. split; [now right|].
    eexists. eexists. split; vm_compute; reflexivity.
  - vm_compute. reflexivity.
Defined.

(** ** What the traversal reports is in the graph *)

Lemma option_eqb_eq (x y : option string) : option_eqb x y = true <-> x = y.
Proof.
  destruct x as [a|], y as [b|]; cbn; try (split; congruence).
  rewrite String.eqb_eq. split; congruence.
Qed.

Lemma incident_sound (es : list Edge) :
  forall i0 v used i u,
    In (i, u) (incident es i0 v used) -> exists e, In e es /\ hop e v u.
Proof.
  induction es as [|e es IH]; intros i0 v used i u H; cbn in H; [contradiction|].
  assert (Hrest : In (i, u) (incident es (S i0) v used) ->
                  exists e', In e' (e :: es) /\ hop e' v u).
  { intros H'. destruct (IH _ _ _ _ _ H') as (e' & He' & Hh).
    exists e'. split; [now right | exact Hh]. }
  destruct (existsb (Nat.eqb i0) used); [now apply Hrest|].
  destruct (Nat.eqb (e_src e) v) eqn:Es.
  - destruct H as [H|H]; [|now apply Hrest].
    inversion H; subst. apply Nat.eqb_eq in Es.
    exists e. split; [now left | left; now split].
  - destruct (Nat.eqb (e_dst e) v) eqn:Ed; [|now apply Hrest].
    destruct H as [H|H]; [|now apply Hrest].
    inversion H; subst. apply Nat.eqb_eq in Ed.
    exists e. split; [now left | right; now split].
Qed.

Lemma expand_sound (g : Graph) :
  forall hops v used len u l,
    In (u, l) (expand g hops v used len) ->
    exists k, l = len + k /\ 1 <= k <= hops /\ joined g v u k.
Proof.
  induction hops as [|h IH]; intros v used len u l H; cbn in H; [contradiction|].
  apply in_flat_map in H. destruct H as ([i x] & Hin & H).
  destruct (incident_sound _ _ _ _ _ _ Hin) as (e & He & Hh).
  destruct H as [H|H].
  - inversion H; subst. exists 1. repeat split; try lia.
    eapply joined_hop; eassumption.
  - destruct (IH _ _ _ _ _ H) as (k & -> & Hk & Hj).
    exists (S k). repeat split; try lia.
    eapply joined_more; eassumption.
Qed.

Lemma positions_sound (p : Node -> bool) (ns : list Node) :
  forall i0 i, In i (positions p ns i0) ->
    exists n, nth_error ns (i - i0) = Some n /\ p n = true /\ i0 <= i.
Proof.
  induction ns as [|n ns IH]; intros i0 i H; cbn in H; [contradiction|].
  assert (Hrest : In i (positions p ns (S i0)) ->
                  exists n', nth_error (n :: ns) (i - i0) = Some n'
                             /\ p n' = true /\ i0 <= i).
  { intros H'. destruct (IH _ _ H') as (n' & Hn & Hp & Hle).
    exists n'. replace (i - i0) with (S (i - S i0)) by lia.
    repeat split; [exact Hn | exact Hp | lia]. }
  destruct (p n) eqn:Ep; [|now apply Hrest].
  destruct H as [<-|H]; [|now apply Hrest].
  exists n. rewrite Nat.sub_diag. now repeat split.
Qed.

Lemma match_related_sound (name : option string) (depth limit : nat) (g : Graph)
    (row : Row) :
  In row (match_related name depth limit g) ->
  exists nt k,
    row = RowRelated nt k /\ In nt (nodes g)
    /\ joins g name (n_name nt) k /\ 1 <= k <= depth.
Proof.
  unfold match_related. intros H.
  assert (H' : In row
            (flat_map (fun s => flat_map (related_row g) (expand g depth s [] 0))
               (positions (fun n => option_eqb name (n_name n)) (nodes g) 0))).
  { rewrite <- (firstn_skipn limit). apply in_or_app. now left. }
  clear H. apply in_flat_map in H'. destruct H' as (s & Hs & H).
  apply in_flat_map in H. destruct H as ([t l] & Hexp & H).
  destruct (positions_sound _ _ _ _ Hs) as (ns & Hns & Hname & _).
  rewrite Nat.sub_0_r in Hns. apply option_eqb_eq in Hname.
  destruct (expand_sound _ _ _ _ _ _ _ Hexp) as (k & -> & Hk & Hj).
  unfold related_row in H. cbn [fst snd] in H.
  destruct (nth_error (nodes g) t) as [nt|] eqn:Hnt; [|contradiction].
  destruct H as [<-|[]].
  exists nt, k. split; [reflexivity|].
  split; [eapply nth_error_In; eassumption|].
  split; [|exact Hk].
  exists s, ns, t, nt. repeat split; auto.
Qed.

Lemma findRelatedEntities_sound (name : option string) (depth : option Value)
    (range : Range) (w w' : World) (rels : list Related) (rel : Related) :
  range_of (spliced (default (number 1) depth)) = Some range ->
  findRelatedEntities name depth w = (Ok rels, w') -> In rel rels ->
  In (entity rel) (nodes (graph w))
  /\ type rel = hd_error (labels (entity rel))
  /\ joins (graph w) name (n_name (entity rel)) (path rel)
  /\ 1 <= path rel <= max_hops range (graph w).
Proof.
  intros Hrange Hrun Hin.
  destruct (@findRelatedEntities_cases name depth range w Hrange) as [[e He] | Hok];
    rewrite Hrun in *; cbn [fst] in *; [discriminate He|].
  inversion Hok; subst rels.
  apply in_flat_map in Hin. destruct Hin as (row & Hrow & Hin).
  destruct (@match_related_sound _ _ _ _ _ Hrow) as (nt & k & -> & Hnt & Hj & Hk).
  destruct Hin as [<-|[]]. cbn. auto.
Qed.

Lemma record_related_sound (g : Graph) (d : nat) (name : option string)
    (st : Expansion) (rel : Related) :
  expansion_sound g d st ->
  In (entity rel) (nodes g) -> type rel = hd_error (labels (entity rel)) ->
  joins g name (n_name (entity rel)) (path rel) -> 1 <= path rel <= d ->
  expansion_sound g d (record_related name st rel).
Proof.
  intros [Hp He] Hin Hty Hj Hk. split.
  - intros p H. cbn in H. apply in_app_or in H. destruct H as [H|[<-|[]]].
    + now apply Hp.
    + cbn. now split.
  - intros e H. cbn in H.
    destruct (negb _); [|now apply He].
    apply in_app_or in H. destruct H as [H|[<-|[]]]; [now apply He|].
    exists (entity rel). cbn. now repeat split.
Qed.

Lemma fold_record_related_sound (g : Graph) (d : nat) (name : option string)
    (rels : list Related) :
  forall st,
    expansion_sound g d st ->
    (forall rel, In rel rels ->
       In (entity rel) (nodes g) /\ type rel = hd_error (labels (entity rel))
       /\ joins g name (n_name (entity rel)) (path rel) /\ 1 <= path rel <= d) ->
    expansion_sound g d (fold_left (record_related name) rels st).
Proof.
  induction rels as [|rel rels IH]; intros st Hst Hall; cbn; [exact Hst|].
  apply IH.
  - destruct (Hall rel (or_introl eq_refl)) as (H1 & H2 & H3 & H4).
    now apply record_related_sound.
  - intros rel' H. apply Hall. now right.
Qed.

Lemma expand_each_sound (names : list (option string)) (d : Value) (range : Range) :
  range_of (spliced d) = Some range ->
  forall st w st' w',
    expansion_sound (graph w) (max_hops range (graph w)) st ->
    expand_each names d st w = (Ok st', w') ->
    expansion_sound (graph w) (max_hops range (graph w)) st'.
Proof.
  intros Hrange.
  assert (Hplain : plain_depth (Some d) = true)
    by (cbn [plain_depth]; unfold plain; now rewrite Hrange).
  induction names as [|name names IH]; intros st w st' w' Hst Hrun;
    cbn [expand_each] in Hrun.
  - unfold ret in Hrun. now inversion Hrun; subst.
  - unfold bind at 1 in Hrun. unfold try_catch in Hrun. unfold bind at 1 in Hrun.
    pose proof (@findRelatedEntities_reads name (Some d) Hplain w) as Hr.
    destruct (findRelatedEntities name (Some d) w) as [[e|rels] w1] eqn:Efind;
      cbn [snd] in Hr; apply reads_same_contents in Hr; destruct Hr as [Hg _];
      unfold ret in Hrun.
    + rewrite <- Hg. eapply IH; [|exact Hrun]. now rewrite Hg.
    + rewrite <- Hg. eapply IH; [|exact Hrun]. rewrite Hg.
      apply fold_record_related_sound; [exact Hst|].
      intros rel Hin.
      exact (@findRelatedEntities_sound _ (Some d) _ _ _ _ _ Hrange Efind Hin).
Qed.

Lemma hybridRetrieval_expansion (q : string) (options : RetrievalOptions)
    (w w' : World) (r : Retrieval) :
  hybridRetrieval q options w = (Ok r, w') ->
  (graphEntities r = [] /\ graphPaths r = [])
  \/ exists names w3 st w4,
       extractEntityNamesFromChunks (vectorChunks r) w = (Ok names, w3)
       /\ expand_each names
            (default (number (graphTraversalDepth (config w))) (opt_graphDepth options))
            {| relatedEntities := []; paths := []; seenEntities := [] |} w3
          = (Ok st, w4)
       /\ graphEntities r = relatedEntities st
       /\ graphPaths r = (if default true (opt_includeGraphPaths options)
                          then paths st else []).
Proof.
  intros H. unfold hybridRetrieval in H.
  bind_inv H emb w1 Eemb.
  pose proof (generateEmbedding_world _ _ Eemb) as ->.
  bind_inv H vres w2 Esearch.
  pose proof (vectorSearch_world _ _ _ Esearch) as ->.
  destruct vres as [|c vres].
  - unfold ret in H. inversion H; subst. left. now split.
  - bind_inv H names w3 Enames.
    bind_inv H expansion w4 Eexp.
    bind_inv H fetched w5 Efetch.
    unfold ret in H. inversion H; subst; clear H.
    right. exists names, w3, expansion, w4. cbn.
    repeat split; first [reflexivity | eassumption].
Qed.

(** What retrieval reports from the graph is in the graph, when the depth is
    spliced into the traversal as a numeral or as nothing.  Every
    relationship path of a result joins a node named as its start to a node
    named as its end by as many relationships of the graph as its depth says,
    at least one, and at most d when the depth is spliced as the numeral of
    d; every graph entity is a node of the graph, with its first label as
    type and its provenance. *)
Theorem hybridRetrieval_reports_graph_facts :
  forall (q : string) (options : RetrievalOptions) (w w' : World) (r : Retrieval),
    plain_depth (opt_graphDepth options) = true ->
    hybridRetrieval q options w = (Ok r, w') ->
    (forall p, In p (graphPaths r) ->
       joins (graph w) (gp_from p) (gp_to p) (gp_depth p) /\ 1 <= gp_depth p)
    /\ (forall d,
          spliced (default (number (graphTraversalDepth (config w)))
                     (opt_graphDepth options)) = js_num d ->
          forall p, In p (graphPaths r) -> gp_depth p <= d)
    /\ (forall e, In e (graphEntities r) -> of_node (graph w) e).
Proof.
  intros q options w w' r Hplain H.
  destruct (@hybridRetrieval_expansion _ _ _ _ _ H)
    as [[He Hp] | (names & w3 & st & w4 & Enames & Eexp & He & Hp)].
  - rewrite He, Hp. split; [intros x []|]. split; [intros d _ x [] | intros x []].
  - pose proof (extractEntityNamesFromChunks_reads (vectorChunks r) w) as Hr.
    rewrite Enames in Hr. cbn [snd] in Hr.
    apply reads_same_contents in Hr. destruct Hr as [Hg _].
    pose proof (plain_default (graphTraversalDepth (config w)) _ Hplain) as Hdepth.
    unfold plain in Hdepth.
    destruct (range_of _) as [range|] eqn:Hrange; [|discriminate].
    assert (Hsound : expansion_sound (graph w3) (max_hops range (graph w3)) st).
    { eapply (@expand_each_sound names _ range Hrange); [|exact Eexp].
      split; intros x []. }
    rewrite Hg in Hsound. destruct Hsound as [Hpaths Hents].
    rewrite He, Hp. split; [|split; [|exact Hents]].
    + destruct (default true (opt_includeGraphPaths options)); [|intros x []].
      intros p Hin. destruct (Hpaths p Hin) as (Hj & Hk & _). now split.
    + intros d Hd. rewrite Hd, range_of_numeral in Hrange.
      injection Hrange as <-. cbn [max_hops] in Hpaths.
      destruct (default true (opt_includeGraphPaths options)); [|intros x []].
      intros p Hin. now destruct (Hpaths p Hin) as (_ & _ & Hk).
Qed.

(** A traversal of depth 2 from Sam Altman: two paths, both in the graph. *)
Lemma hybridRetrieval_reports_graph_facts_witness :
  exists r w',
    hybridRetrieval "How is Sam Altman related to Microsoft?" (depth_options 2)
      altman_world = (Ok r, w')
    /\ map gp_depth (graphPaths r) = [1; 2]
    /\ (forall p, In p (graphPaths r) ->
          joins altman_graph (gp_from p) (gp_to p) (gp_depth p) /\ 1 <= gp_depth p)
    /\ (forall p, In p (graphPaths r) -> gp_depth p <= 2)
    /\ (forall e, In e (graphEntities r) -> of_node altman_graph e).
Proof.
  eexists. eexists. split; [vm_compute; reflexivity|].
  split; [reflexivity|].
  match goal with |- (forall p, In p (graphPaths ?r) -> _) /\ _ =>
    destruct (@hybridRetrieval_reports_graph_facts
                "How is Sam Altman related to Microsoft?" (depth_options 2)
                altman_world _ r eq_refl eq_refl) as (Hj & Hd & He)
  end.
  split; [exact Hj|]. split; [exact (Hd 2 eq_refl) | exact He].
Defined.

(** ** Where the traversal starts *)

Lemma names_of_projected (cs : list Chunk) :
  forall acc, fold_left names_of_extraction (map project cs) acc = acc.
Proof. induction cs as [|c cs IH]; intros acc; cbn; [reflexivity | apply IH]. Qed.

Lemma vectorSearch_projected (emb : Embedding) (limit : option Value) (w w1 : World)
    (docs : list Chunk) :
  vectorSearch emb limit w = (Ok docs, w1) -> exists cs, docs = map project cs.
Proof.
  intros H. apply vectorSearch_needs in H.
  destruct H as (_ & _ & found & _ & ->). now exists found.
Qed.

Lemma Set_has_false (x : option string) (s : list (option string)) :
  Set_has x s = false -> ~ In x s.
Proof.
  unfold Set_has. intros H Hin.
  assert (existsb (option_eqb x) s = true); [|congruence].
  apply existsb_exists. exists x. split; [exact Hin | now apply option_eqb_eq].
Qed.

Lemma Set_add_NoDup (x : option string) (s : list (option string)) :
  NoDup s -> NoDup (Set_add x s).
Proof.
  intros H. unfold Set_add. destruct (Set_has x s) eqn:E; [exact H|].
  apply Set_has_false in E.
  apply NoDup_rev in H. rewrite <- (rev_involutive (s ++ [x])).
  apply NoDup_rev. rewrite rev_app_distr. cbn. constructor; [|exact H].
  now rewrite <- in_rev.
Qed.

Lemma Set_add_In (x y : option string) (s : list (option string)) :
  In y (Set_add x s) -> In y s \/ y = x.
Proof.
  unfold Set_add. destruct (Set_has x s); [now left|].
  intros H. apply in_app_or in H. destruct H as [H|[<-|[]]]; auto.
Qed.

Lemma scan_names_resolved (known : list string) (chunks : list Chunk)
    (c : Chunk) (t : string) (candidates : list string) :
  In c chunks -> text c = Some t ->
  forall acc,
    (forall s, In s candidates -> In s known) ->
    resolved known chunks acc ->
    resolved known chunks
      (fold_left (fun s entityName =>
                    if includes (toLowerCase entityName) (toLowerCase t)
                    then Set_add (Some entityName) s else s)
                 candidates acc).
Proof.
  intros Hc Ht. induction candidates as [|n ns IH]; intros acc Hknown Hacc; cbn;
    [exact Hacc|].
  apply IH; [intros s H; apply Hknown; now right|].
  destruct (includes (toLowerCase n) (toLowerCase t)) eqn:E; [|exact Hacc].
  destruct Hacc as [Hnd Hall]. split; [now apply Set_add_NoDup|].
  intros name H. apply Set_add_In in H. destruct H as [H | ->]; [now apply Hall|].
  exists n. split; [reflexivity|]. split; [apply Hknown; now left|].
  exists c, t. now repeat split.
Qed.

Lemma names_in_texts_resolved (known : list string) (all : list Chunk)
    (candidates : list string) :
  (forall s, In s candidates -> In s known) ->
  forall chunks acc,
    (forall c, In c chunks -> In c all) ->
    resolved known all acc ->
    resolved known all (names_in_texts chunks candidates acc).
Proof.
  intros Hknown. induction chunks as [|c chunks IH]; intros acc Hsub Hacc; cbn;
    [exact Hacc|].
  destruct (text c) as [t|] eqn:Et; [|exact Hacc].
  apply IH; [intros c' H; apply Hsub; now right|].
  eapply scan_names_resolved; eauto. apply Hsub. now left.
Qed.

Lemma distinct_subset (l : list string) :
  forall seen x, In x (distinct seen l) -> In x l.
Proof.
  induction l as [|y l IH]; intros seen x H; cbn in H; [contradiction|].
  destruct (existsb (String.eqb y) seen).
  - right. eapply IH; eassumption.
  - destruct H as [->|H]; [now left | right; eapply IH; eassumption].
Qed.

Lemma match_names_known (g : Graph) (s : string) :
  In s (flat_map row_name (match_names g)) -> In s (node_names g).
Proof.
  unfold match_names. intros H. apply in_flat_map in H.
  destruct H as (row & Hrow & H). apply in_map_iff in Hrow.
  destruct Hrow as (s' & <- & Hs'). destruct H as [<-|[]].
  eapply distinct_subset; eassumption.
Qed.

(** Where the traversal starts.  The passages of vectorSearch never carry an
    extraction (the projection leaves the field out), so the names found for
    them are never read from stored extractions: each is the name of a node of
    the graph that occurs, letter case apart, in the text of one of the
    passages, and no name is found twice. *)
Theorem starting_names_are_mentioned_nodes :
  forall (emb : Embedding) (limit : option Value) (w w1 w2 : World)
         (docs : list Chunk) (names : list (option string)),
    vectorSearch emb limit w = (Ok docs, w1) ->
    extractEntityNamesFromChunks docs w1 = (Ok names, w2) ->
    NoDup names
    /\ forall name, In name names ->
         exists s, name = Some s /\ In s (node_names (graph w))
                   /\ mentioned_in docs s.
Proof.
  intros emb limit w w1 w2 docs names Hsearch Hnames.
  pose proof (vectorSearch_world _ _ _ Hsearch) as ->.
  destruct (vectorSearch_projected _ _ _ Hsearch) as (cs & Hdocs).
  change (resolved (node_names (graph w)) docs names).
  assert (Hnone : resolved (node_names (graph w)) docs []).
  { split; [constructor | intros x []]. }
  unfold extractEntityNamesFromChunks in Hnames.
  rewrite Hdocs, names_of_projected in Hnames. rewrite <- Hdocs in Hnames.
  destruct docs as [|c docs'].
  { unfold ret in Hnames. inversion Hnames; subst; exact Hnone. }
  unfold try_catch, bind, getSession, session_run, ret in Hnames.
  destruct (driver w); [|inversion Hnames; subst; exact Hnone].
  destruct (neo4j_fault w); [inversion Hnames; subst; exact Hnone|].
  destruct (rejects w MatchNames); [inversion Hnames; subst; exact Hnone|].
  cbn [execute] in Hnames. injection Hnames as <- _.
  exact (@names_in_texts_resolved (node_names (graph w)) (c :: docs')
           (flat_map row_name (match_names (graph w)))
           (@match_names_known (graph w)) (c :: docs') []
           (fun _ H => H) Hnone).
Qed.

(** The passage about Sam Altman mentions one node of the sample graph. *)
Lemma starting_names_are_mentioned_nodes_witness :
  exists docs names w1 w2,
    vectorSearch (EmbeddingOf "Sam Altman") (Some (number 2)) altman_world
    = (Ok docs, w1)
    /\ extractEntityNamesFromChunks docs w1 = (Ok names, w2)
    /\ names = [Some "Sam Altman"]
    /\ NoDup names
    /\ forall name, In name names ->
         exists s, name = Some s /\ In s (node_names altman_graph)
                   /\ mentioned_in docs s.
Proof.
  eexists. eexists. eexists. eexists.
  split; [lazy; reflexivity|]. split; [lazy; reflexivity|].
  split; [reflexivity|].
  exact (@starting_names_are_mentioned_nodes
           (EmbeddingOf "Sam Altman") (Some (number 2)) altman_world _ _ _ _
           eq_refl eq_refl).
Defined.

(** Letter case apart, for every letter that a code unit below 256 holds:
    toLowerCase lowers the capital E acute as it lowers the letters A to Z,
    and leaves the multiplication sign (215) between the capitals alone. *)
Example toLowerCase_lowers_latin1 :
  toLowerCase (String (ascii_of_nat 201) "COLE Normale")
  = String (ascii_of_nat 233) "cole normale"
  /\ toLowerCase (String (ascii_of_nat 215) (String (ascii_of_nat 222) EmptyString))
     = String (ascii_of_nat 215) (String (ascii_of_nat 254) EmptyString).
Proof. split; reflexivity. Qed.

(** The node named in lower case is found in the passage that has the name
    in capitals. *)
Example capital_name_is_found :
  exists w',
    extractEntityNamesFromChunks [ecole_passage] ecole_world
    = (Ok [Some ecole_name], w').
Proof. eexists. vm_compute. reflexivity. Qed.

(** ** MERGE: what a second upsert does *)

Lemma node_matches_bare (l : string) (nm : option string) :
  node_matches l nm (bare_node l nm) = true.
Proof.
  unfold node_matches, has_label, bare_node. cbn.
  rewrite String.eqb_refl. cbn. now apply option_eqb_eq.
Qed.

Lemma node_matches_bare_inv (l l' : string) (nm nm' : option string) :
  node_matches l nm (bare_node l' nm') = true -> l = l' /\ nm = nm'.
Proof.
  unfold node_matches, has_label, bare_node. cbn. rewrite orb_false_r.
  intros H. apply andb_prop in H. destruct H as [H1 H2].
  apply String.eqb_eq in H1. apply option_eqb_eq in H2. now split.
Qed.

Lemma positions_app (p : Node -> bool) (a b : list Node) :
  forall i, positions p (a ++ b) i = positions p a i ++ positions p b (length a + i).
Proof.
  induction a as [|n a IH]; intros i; cbn; [reflexivity|].
  rewrite IH. replace (length a + S i) with (S (length a + i)) by lia.
  now destruct (p n).
Qed.

Lemma positions_map (p : Node -> bool) (f : Node -> Node) (ns : list Node) :
  (forall n, p (f n) = p n) ->
  forall i, positions p (map f ns) i = positions p ns i.
Proof.
  intros Hf. induction ns as [|n ns IH]; intros i; cbn; [reflexivity|].
  now rewrite Hf, IH.
Qed.

Lemma present_map (p : Node -> bool) (f : Node -> Node) (ns : list Node) :
  (forall n, p (f n) = p n) -> existsb p (map f ns) = existsb p ns.
Proof.
  intros Hf. induction ns as [|n ns IH]; cbn; [reflexivity|]. now rewrite Hf, IH.
Qed.

Lemma merge_pattern_nodes (l : string) (nm : option string) (g : Graph) :
  nodes (merge_pattern l nm g)
  = nodes g ++ (if present l nm g then [] else [bare_node l nm]).
Proof.
  unfold merge_pattern, present.
  destruct (existsb _ _); cbn; now rewrite ?app_nil_r.
Qed.

Lemma merge_pattern_edges (l : string) (nm : option string) (g : Graph) :
  edges (merge_pattern l nm g) = edges g.
Proof. unfold merge_pattern. now destruct (existsb _ _). Qed.

Lemma merge_pattern_settled (l : string) (nm : option string) (g : Graph) :
  present l nm g = true -> merge_pattern l nm g = g.
Proof. unfold merge_pattern, present. now intros ->. Qed.

Lemma present_merge_pattern (l : string) (nm : option string) (g : Graph) :
  present l nm (merge_pattern l nm g) = true.
Proof.
  unfold present. rewrite merge_pattern_nodes, existsb_app.
  destruct (present l nm g) eqn:E; [exact (orb_true_intro _ _ (or_introl E))|].
  cbn. now rewrite node_matches_bare, orb_true_r.
Qed.

Lemma present_kept (l l' : string) (nm nm' : option string) (g : Graph) :
  present l nm g = true -> present l nm (merge_pattern l' nm' g) = true.
Proof.
  unfold present at 2. rewrite merge_pattern_nodes, existsb_app.
  unfold present. now intros ->.
Qed.

(** A pattern that is in the graph is not what a MERGE of another pattern
    creates. *)
Lemma created_not_matching (l l' : string) (nm nm' : option string) (g : Graph) (n : Node) :
  present l nm g = true ->
  In n (if present l' nm' g then [] else [bare_node l' nm']) ->
  node_matches l nm n = false.
Proof.
  intros Hp Hin. destruct (present l' nm' g) eqn:E; [contradiction|].
  destruct Hin as [<-|[]].
  destruct (node_matches l nm (bare_node l' nm')) eqn:M; [|reflexivity].
  apply node_matches_bare_inv in M. destruct M; subst. congruence.
Qed.

Lemma positions_merge_pattern (l l' : string) (nm nm' : option string) (g : Graph) :
  present l nm g = true ->
  positions (node_matches l nm) (nodes (merge_pattern l' nm' g)) 0
  = positions (node_matches l nm) (nodes g) 0.
Proof.
  intros Hp. rewrite merge_pattern_nodes, positions_app.
  pose proof (@created_not_matching l l' nm nm' g) as Hc.
  destruct (present l' nm' g); cbn; [now rewrite app_nil_r|].
  rewrite (Hc (bare_node l' nm') Hp (or_introl eq_refl)). now rewrite app_nil_r.
Qed.

Lemma edge_matches_key (s d : nat) (l : string) (e : Edge) :
  edge_matches s l d e = true -> edge_key e = (s, l, d).
Proof.
  unfold edge_matches, edge_key. intros H.
  apply andb_prop in H. destruct H as [H H3].
  apply andb_prop in H. destruct H as [H1 H2].
  apply Nat.eqb_eq in H1, H3. apply String.eqb_eq in H2. congruence.
Qed.

Lemma edge_matches_by_key (s d : nat) (l : string) (e e' : Edge) :
  edge_key e = edge_key e' -> edge_matches s l d e = edge_matches s l d e'.
Proof. unfold edge_matches, edge_key. intros H. inversion H. congruence. Qed.

Lemma linked_by_keys (l : string) (pair : nat * nat) (es es' : list Edge) :
  map edge_key es = map edge_key es' -> linked l es pair = linked l es' pair.
Proof.
  unfold linked. revert es'.
  induction es as [|e es IH]; intros [|e' es'] H; try discriminate; cbn;
    [reflexivity|].
  assert (Hk : edge_key e = edge_key e') by (cbn in H; congruence).
  assert (Ht : map edge_key es = map edge_key es') by (cbn in H; congruence).
  rewrite (IH es' Ht).
  now rewrite (@edge_matches_by_key _ _ _ e e' Hk).
Qed.

Lemma merge_edge_keys (l : string) (pr : Provenance) (es : list Edge) (pair : nat * nat) :
  linked l es pair = true -> map edge_key (merge_edge l pr es pair) = map edge_key es.
Proof.
  destruct pair as [s d]. unfold linked, merge_edge. cbn [fst snd]. intros ->.
  rewrite map_map. apply map_ext_in. intros e _.
  destruct (edge_matches s l d e) eqn:E; [|reflexivity].
  now rewrite (edge_matches_key _ _ _ _ E).
Qed.

Lemma merge_edge_links_self (l : string) (pr : Provenance) (es : list Edge)
    (pair : nat * nat) :
  linked l (merge_edge l pr es pair) pair = true.
Proof.
  destruct (linked l es pair) eqn:E.
  - now rewrite (linked_by_keys _ _ _ _ (merge_edge_keys _ pr _ _ E)).
  - destruct pair as [s d]. unfold linked, merge_edge in *. cbn [fst snd] in *.
    rewrite E, existsb_app. cbn. unfold edge_matches at 2. cbn.
    now rewrite !Nat.eqb_refl, String.eqb_refl, orb_true_r.
Qed.

Lemma merge_edge_links_kept (l l' : string) (pr : Provenance) (es : list Edge)
    (pair pair' : nat * nat) :
  linked l es pair = true -> linked l (merge_edge l' pr es pair') pair = true.
Proof.
  intros H. destruct (linked l' es pair') eqn:E.
  - now rewrite (linked_by_keys _ _ _ _ (merge_edge_keys _ pr _ _ E)).
  - destruct pair' as [s d]. unfold linked, merge_edge in *. cbn [fst snd] in *.
    rewrite E, existsb_app, H. reflexivity.
Qed.

Lemma fold_merge_edge_links_kept (l l' : string) (pr : Provenance) (pair : nat * nat)
    (pairs : list (nat * nat)) :
  forall es,
    linked l es pair = true ->
    linked l (fold_left (merge_edge l' pr) pairs es) pair = true.
Proof.
  induction pairs as [|p pairs IH]; intros es H; cbn; [exact H|].
  apply IH. now apply merge_edge_links_kept.
Qed.

Lemma fold_merge_edge_links (l : string) (pr : Provenance) (pairs : list (nat * nat)) :
  forall es pair,
    In pair pairs -> linked l (fold_left (merge_edge l pr) pairs es) pair = true.
Proof.
  induction pairs as [|p pairs IH]; intros es pair H; cbn; [contradiction|].
  destruct H as [->|H]; [|now apply IH].
  apply fold_merge_edge_links_kept, merge_edge_links_self.
Qed.

Lemma fold_merge_edge_keys (l : string) (pr : Provenance) (pairs : list (nat * nat)) :
  forall es,
    forallb (linked l es) pairs = true ->
    map edge_key (fold_left (merge_edge l pr) pairs es) = map edge_key es.
Proof.
  induction pairs as [|p pairs IH]; intros es H; cbn in *; [reflexivity|].
  apply andb_prop in H. destruct H as [Hp Hps].
  rewrite IH; [now apply merge_edge_keys|].
  apply forallb_forall. intros pair Hin.
  apply merge_edge_links_kept. rewrite forallb_forall in Hps. now apply Hps.
Qed.

Lemma execute_present (other : Foreign) (l : string) (nm : option string)
    (q : Cypher) (g : Graph) :
  is_upsert q = true ->
  present l nm g = true -> present l nm (fst (execute other q g)) = true.
Proof.
  intros Hq H.
  destruct q as [l' nm' pr | fl tl rl fn tn pr | |]; try discriminate Hq; cbn.
  - unfold present. cbn.
    rewrite present_map by (intros n; now destruct (node_matches l' nm' n)).
    now apply present_kept.
  - unfold present. cbn. now apply present_kept, present_kept.
Qed.

Lemma execute_positions (other : Foreign) (l : string) (nm : option string)
    (q : Cypher) (g : Graph) :
  is_upsert q = true ->
  present l nm g = true ->
  positions (node_matches l nm) (nodes (fst (execute other q g))) 0
  = positions (node_matches l nm) (nodes g) 0.
Proof.
  intros Hq H.
  destruct q as [l' nm' pr | fl tl rl fn tn pr | |]; try discriminate Hq; cbn.
  - rewrite positions_map by (intros n; now destruct (node_matches l' nm' n)).
    now apply positions_merge_pattern.
  - rewrite positions_merge_pattern by now apply present_kept.
    now apply positions_merge_pattern.
Qed.

Lemma execute_linked (other : Foreign) (l : string) (pair : nat * nat)
    (q : Cypher) (g : Graph) :
  is_upsert q = true ->
  linked l (edges g) pair = true ->
  linked l (edges (fst (execute other q g))) pair = true.
Proof.
  intros Hq H.
  destruct q as [l' nm' pr | fl tl rl fn tn pr | |]; try discriminate Hq; cbn.
  - now rewrite merge_pattern_edges.
  - apply fold_merge_edge_links_kept. now rewrite !merge_pattern_edges.
Qed.

(** Once settled, an upsert stays settled whatever is upserted after it. *)
Lemma settled_kept (other : Foreign) (q q' : Cypher) (g : Graph) :
  is_upsert q' = true ->
  settled q g = true -> settled q (fst (execute other q' g)) = true.
Proof.
  intros Hq'.
  destruct q as [l nm pr | fl tl rl fn tn pr | |]; cbn [settled]; auto.
  - now apply execute_present.
  - intros H. apply andb_prop in H. destruct H as [H Hl].
    apply andb_prop in H. destruct H as [Hf Ht].
    rewrite !execute_present, !execute_positions by assumption. cbn.
    apply forallb_forall. intros pair Hin. apply execute_linked; [exact Hq'|].
    rewrite forallb_forall in Hl. now apply Hl.
Qed.

(** An upsert is settled once it has run. *)
Lemma settled_after (other : Foreign) (q : Cypher) (g : Graph) :
  settled q (fst (execute other q g)) = true.
Proof.
  destruct q as [l nm pr | fl tl rl fn tn pr | |]; cbn [settled]; auto.
  - unfold present. cbn.
    rewrite present_map
      by (intros n; destruct (node_matches l nm n) eqn:E; exact E).
    apply present_merge_pattern.
  - cbn [execute merge_relationship fst nodes edges]. unfold present at 1 2.
    cbn [nodes].
    assert (Hf : present fl fn (merge_pattern tl tn (merge_pattern fl fn g)) = true)
      by apply present_kept, present_merge_pattern.
    assert (Ht : present tl tn (merge_pattern tl tn (merge_pattern fl fn g)) = true)
      by apply present_merge_pattern.
    unfold present in Hf, Ht. rewrite Hf, Ht. cbn.
    apply forallb_forall. intros pair Hin. now apply fold_merge_edge_links.
Qed.

(** A settled upsert changes provenance at most. *)
Lemma settled_keys (other : Foreign) (q : Cypher) (g : Graph) :
  is_upsert q = true ->
  settled q g = true ->
  map node_key (nodes (fst (execute other q g))) = map node_key (nodes g)
  /\ map edge_key (edges (fst (execute other q g))) = map edge_key (edges g).
Proof.
  intros Hq.
  destruct q as [l nm pr | fl tl rl fn tn pr | |]; try discriminate Hq;
    cbn [settled].
  - intros H. cbn. rewrite (merge_pattern_settled _ _ _ H). split; [|reflexivity].
    rewrite map_map. apply map_ext. intros n. now destruct (node_matches l nm n).
  - intros H. apply andb_prop in H. destruct H as [H Hl].
    apply andb_prop in H. destruct H as [Hf Ht].
    cbn. rewrite (merge_pattern_settled _ _ _ Hf), (merge_pattern_settled _ _ _ Ht).
    split; [reflexivity|]. now apply fold_merge_edge_keys.
Qed.

Lemma settled_restamp (pr : Provenance) (q : Cypher) (g : Graph) :
  settled (restamp pr q) g = settled q g.
Proof. now destruct q. Qed.

Lemma is_upsert_restamp (pr : Provenance) (q : Cypher) :
  is_upsert (restamp pr q) = is_upsert q.
Proof. now destruct q. Qed.

Lemma run_app (other : Foreign) (qs1 qs2 : list Cypher) (g : Graph) :
  run other (qs1 ++ qs2) g = run other qs2 (run other qs1 g).
Proof. apply fold_left_app. Qed.

Lemma settled_run (other : Foreign) (q : Cypher) (qs : list Cypher) :
  forallb is_upsert qs = true ->
  forall g, settled q g = true -> settled q (run other qs g) = true.
Proof.
  induction qs as [|q' qs IH]; intros Hqs g H; [exact H|].
  cbn [forallb] in Hqs. apply andb_prop in Hqs. destruct Hqs as [Hq' Hqs].
  change (run other (q' :: qs) g) with (run other qs (fst (execute other q' g))).
  apply IH; [exact Hqs|]. now apply settled_kept.
Qed.

Lemma run_settles (other : Foreign) (qs : list Cypher) :
  forallb is_upsert qs = true ->
  forall g q, In q qs -> settled q (run other qs g) = true.
Proof.
  induction qs as [|q' qs IH]; intros Hqs g q H; [contradiction|].
  cbn [forallb] in Hqs. apply andb_prop in Hqs. destruct Hqs as [Hq' Hqs].
  change (run other (q' :: qs) g) with (run other qs (fst (execute other q' g))).
  destruct H as [->|H]; [|now apply IH].
  apply settled_run; [exact Hqs | apply settled_after].
Qed.

Lemma run_settled_keys (other : Foreign) (qs : list Cypher) :
  forallb is_upsert qs = true ->
  forall g,
    (forall q, In q qs -> settled q g = true) ->
    map node_key (nodes (run other qs g)) = map node_key (nodes g)
    /\ map edge_key (edges (run other qs g)) = map edge_key (edges g).
Proof.
  induction qs as [|q qs IH]; intros Hqs g H; [now split|].
  cbn [forallb] in Hqs. apply andb_prop in Hqs. destruct Hqs as [Hq Hqs].
  change (run other (q :: qs) g) with (run other qs (fst (execute other q g))).
  destruct (@settled_keys other q g Hq (H q (or_introl eq_refl))) as [Hn He].
  destruct (IH Hqs (fst (execute other q g))) as [Hn' He'].
  - intros q' Hq'. apply settled_kept; [exact Hq|]. apply H. now right.
  - split; etransitivity; eassumption.
Qed.

Lemma foreign_sent (qs : list Cypher) : forall w, foreign (sent qs w) = foreign w.
Proof.
  unfold sent. induction qs as [|q qs IH]; intros w; cbn; [reflexivity|].
  now rewrite IH.
Qed.

Lemma graph_sent (qs : list Cypher) :
  forall w, graph (sent qs w) = run (foreign w) qs (graph w).
Proof.
  unfold sent, run. induction qs as [|q qs IH]; intros w; cbn; [reflexivity|].
  now rewrite IH.
Qed.

(** Running the same upserts again, under any provenance, creates nothing. *)
Lemma run_again (other : Foreign) (pr : Provenance) (qs : list Cypher) (g : Graph) :
  forallb is_upsert qs = true ->
  map node_key (nodes (run other (map (restamp pr) qs) (run other qs g)))
  = map node_key (nodes (run other qs g))
  /\ map edge_key (edges (run other (map (restamp pr) qs) (run other qs g)))
     = map edge_key (edges (run other qs g)).
Proof.
  intros Hqs. apply run_settled_keys.
  - apply forallb_forall. intros q H. apply in_map_iff in H.
    destruct H as (q0 & <- & H0). rewrite is_upsert_restamp.
    rewrite forallb_forall in Hqs. now apply Hqs.
  - intros q H. apply in_map_iff in H.
    destruct H as (q0 & <- & H0). rewrite settled_restamp. now apply run_settles.
Qed.

Lemma upserts_are_upserts (pr : Provenance) (x : Extraction) :
  forallb is_upsert (upserts pr x) = true.
Proof.
  apply forallb_forall. intros q H. unfold upserts in H.
  apply in_app_or in H. destruct H as [H|H];
    apply in_flat_map in H; destruct H as (item & _ & H).
  - unfold entity_upsert in H. destruct (e_type item) as [t|]; [|contradiction].
    destruct (existsb (String.eqb t) fixed_types); [|contradiction].
    destruct H as [<-|[]]. reflexivity.
  - unfold relationship_upsert in H.
    destruct (r_from_type item), (r_to_type item), (r_type item);
      try contradiction.
    destruct H as [<-|[]]. reflexivity.
Qed.

Lemma upserts_restamp (pr pr' : Provenance) (x : Extraction) :
  upserts pr' x = map (restamp pr') (upserts pr x).
Proof.
  unfold upserts. rewrite map_app. f_equal.
  - induction (default [] (entities x)) as [|e es IH]; cbn; [reflexivity|].
    rewrite map_app, <- IH. f_equal. unfold entity_upsert.
    destruct (e_type e) as [t|]; [|reflexivity].
    now destruct (existsb (String.eqb t) fixed_types).
  - induction (default [] (relationships x)) as [|r rs IH]; cbn; [reflexivity|].
    rewrite map_app, <- IH. f_equal. unfold relationship_upsert.
    now destruct (r_from_type r), (r_to_type r), (r_type r).
Qed.

(** Storing an extraction twice.  When the store accepts the upserts, a
    second storeExtraction of the same extraction, for any chunk and document,
    creates no node and no relationship: the graph has the same nodes (labels
    and names) and the same relationships (ends and type) as after the first
    call; the counts it returns are nevertheless those of the first call. *)
Theorem storeExtraction_again_creates_nothing :
  forall (x : Extraction) (chunk1 doc1 chunk2 doc2 : string) (w : World),
    let pr1 := {| p_chunk_id := chunk1; p_doc_id := doc1; p_extracted_at := now w |} in
    let pr2 := {| p_chunk_id := chunk2; p_doc_id := doc2; p_extracted_at := now w |} in
    driver w = true ->
    neo4j_fault w = None ->
    forallb typed_relationship (default [] (relationships x)) = true ->
    (forall q, In q (upserts pr1 x) -> rejects w q = None) ->
    (forall q, In q (upserts pr2 x) -> rejects w q = None) ->
    exists counts w1 w2,
      storeExtraction x chunk1 doc1 w = (Ok counts, w1)
      /\ storeExtraction x chunk2 doc2 w1 = (Ok counts, w2)
      /\ map node_key (nodes (graph w2)) = map node_key (nodes (graph w1))
      /\ map edge_key (edges (graph w2)) = map edge_key (edges (graph w1)).
Proof.
  intros x chunk1 doc1 chunk2 doc2 w pr1 pr2 Hd Hf Ht Hr1 Hr2.
  pose proof (@storeExtraction_accepted x chunk1 doc1 w Hd Hf Ht Hr1) as H1.
  destruct (sent_frame (upserts pr1 x) w) as (Hd1 & Hf1 & Hrej1 & Hnow & _).
  pose proof (@storeExtraction_accepted x chunk2 doc2 (sent (upserts pr1 x) w)) as H2.
  cbv zeta in H1, H2. rewrite Hnow in H2. fold pr1 in H1. fold pr1 pr2 in H2.
  assert (Hr2' : forall q, In q (upserts pr2 x) ->
                   rejects (sent (upserts pr1 x) w) q = None)
    by (intros q Hq; rewrite Hrej1; now apply Hr2).
  specialize (H2 (eq_trans Hd1 Hd) (eq_trans Hf1 Hf) Ht Hr2').
  eexists. eexists. eexists. split; [exact H1|]. split; [exact H2|].
  rewrite !graph_sent, foreign_sent. rewrite (upserts_restamp pr1 pr2).
  apply run_again, upserts_are_upserts.
Qed.

(** The same extraction stored for chunk c1 and then for chunk c2. *)
Lemma storeExtraction_again_creates_nothing_witness :
  exists counts w1 w2,
    storeExtraction valid_extraction "c1" "d1" (sample_world empty_graph [] [])
    = (Ok counts, w1)
    /\ storeExtraction valid_extraction "c2" "d2" w1 = (Ok counts, w2)
    /\ map node_key (nodes (graph w2)) = map node_key (nodes (graph w1))
    /\ map edge_key (edges (graph w2)) = map edge_key (edges (graph w1)).
Proof.
  apply (@storeExtraction_again_creates_nothing valid_extraction
           "c1" "d1" "c2" "d2" (sample_world empty_graph [] [])).
  - reflexivity.
  - reflexivity.
  - reflexivity.
  - intros q Hq. cbn in Hq.
    destruct Hq as [<-|[<-|[<-|[]]]]; reflexivity.
  - intros q Hq. cbn in Hq.
    destruct Hq as [<-|[<-|[<-|[]]]]; reflexivity.
Defined.

(** ** MERGE: whose provenance a node carries *)

Lemma stamped_after (other : Foreign) (l : string) (nm : option string)
    (pr : Provenance) (g : Graph) :
  stamped l nm pr (fst (execute other (MergeNode l nm pr) g)).
Proof.
  split; [exact (settled_after other (MergeNode l nm pr) g)|].
  cbn. intros n Hin Hm. apply in_map_iff in Hin.
  destruct Hin as (n0 & <- & _).
  destruct (node_matches l nm n0) eqn:E; [reflexivity | congruence].
Qed.

Lemma stamped_kept (other : Foreign) (l : string) (nm : option string)
    (pr : Provenance) (q : Cypher) (g : Graph) :
  stamped l nm pr g -> stamps_with pr q ->
  stamped l nm pr (fst (execute other q g)).
Proof.
  intros [Hp Hall] Hq.
  assert (Hup : is_upsert q = true) by (destruct q; auto; contradiction).
  split; [now apply execute_present|].
  destruct q as [l' nm' pr' | fl tl rl fn tn pr' | |]; try discriminate Hup; cbn.
  - cbn in Hq. subst pr'. intros n Hin Hm. apply in_map_iff in Hin.
    destruct Hin as (n0 & <- & Hin0).
    assert (Hm0 : node_matches l nm n0 = true)
      by (destruct (node_matches l' nm' n0); exact Hm).
    rewrite merge_pattern_nodes in Hin0. apply in_app_or in Hin0.
    destruct Hin0 as [Hin0|Hin0].
    + destruct (node_matches l' nm' n0); [reflexivity | now apply Hall].
    + rewrite (created_not_matching _ _ _ _ _ _ Hp Hin0) in Hm0. discriminate.
  - intros n Hin Hm. rewrite !merge_pattern_nodes in Hin.
    apply in_app_or in Hin. destruct Hin as [Hin|Hin].
    + apply in_app_or in Hin. destruct Hin as [Hin|Hin]; [now apply Hall|].
      rewrite (created_not_matching _ _ _ _ _ _ Hp Hin) in Hm. discriminate.
    + assert (Hp1 : present l nm (merge_pattern fl fn g) = true)
        by now apply present_kept.
      rewrite (created_not_matching _ _ _ _ _ _ Hp1 Hin) in Hm. discriminate.
Qed.

Lemma stamped_run (other : Foreign) (l : string) (nm : option string)
    (pr : Provenance) (qs : list Cypher) :
  forall g,
    stamped l nm pr g -> (forall q, In q qs -> stamps_with pr q) ->
    stamped l nm pr (run other qs g).
Proof.
  induction qs as [|q qs IH]; intros g H Hqs; [exact H|].
  change (run other (q :: qs) g) with (run other qs (fst (execute other q g))).
  apply IH.
  - apply stamped_kept; [exact H | apply Hqs; now left].
  - intros q' Hq'. apply Hqs. now right.
Qed.

Lemma upserts_stamp (pr : Provenance) (x : Extraction) (q : Cypher) :
  In q (upserts pr x) -> stamps_with pr q.
Proof.
  unfold upserts. intros H. apply in_app_or in H. destruct H as [H|H];
    apply in_flat_map in H; destruct H as (item & _ & H).
  - unfold entity_upsert in H. destruct (e_type item) as [t|]; [|contradiction].
    destruct (existsb (String.eqb t) fixed_types); [|contradiction].
    destruct H as [<-|[]]. reflexivity.
  - unfold relationship_upsert in H.
    destruct (r_from_type item), (r_to_type item), (r_type item);
      try contradiction.
    destruct H as [<-|[]]. exact I.
Qed.

(** The last chunk wins.  After storeExtraction has stored an extraction for a
    chunk, every node that has the type and the name of one of its entities of
    the fixed types carries the identifiers of this chunk and this document,
    whatever it carried before: a node keeps the provenance of the chunk that
    mentioned it last, not of all the chunks that mention it. *)
Theorem storeExtraction_last_chunk_wins :
  forall (x : Extraction) (chunkId docId : string) (w : World),
    let pr := {| p_chunk_id := chunkId; p_doc_id := docId; p_extracted_at := now w |} in
    driver w = true ->
    neo4j_fault w = None ->
    forallb typed_relationship (default [] (relationships x)) = true ->
    (forall q, In q (upserts pr x) -> rejects w q = None) ->
    exists counts w',
      storeExtraction x chunkId docId w = (Ok counts, w')
      /\ forall entity t,
           In entity (default [] (entities x)) ->
           e_type entity = Some t -> In t fixed_types ->
           stamped t (e_name entity) pr (graph w').
Proof.
  intros x chunkId docId w pr Hd Hf Ht Hr.
  eexists. eexists. split; [now apply storeExtraction_accepted|].
  intros entity t Hin Hty Hfixed. fold pr. rewrite graph_sent.
  assert (Hq : In (MergeNode t (e_name entity) pr) (upserts pr x)).
  { unfold upserts. apply in_or_app. left. apply in_flat_map.
    exists entity. split; [exact Hin|]. unfold entity_upsert. rewrite Hty.
    assert (E : existsb (String.eqb t) fixed_types = true).
    { apply existsb_exists. exists t. split; [exact Hfixed | apply String.eqb_refl]. }
    rewrite E. now left. }
  pose proof (@upserts_stamp pr x) as Hstamp.
  apply in_split in Hq. destruct Hq as (qs1 & qs2 & Hsplit).
  rewrite Hsplit in *. rewrite run_app.
  change (run (foreign w) (MergeNode t (e_name entity) pr :: qs2)
            (run (foreign w) qs1 (graph w)))
    with (run (foreign w) qs2
            (fst (execute (foreign w) (MergeNode t (e_name entity) pr)
                    (run (foreign w) qs1 (graph w))))).
  apply stamped_run; [apply stamped_after|].
  intros q Hq. apply Hstamp, in_or_app. right. now right.
Qed.

(** Sam Altman, first stored for another chunk, then for chunk c2. *)
Lemma storeExtraction_last_chunk_wins_witness :
  exists counts w',
    storeExtraction valid_extraction "c2" "d2" (sample_world altman_graph [] [])
    = (Ok counts, w')
    /\ forall entity t,
         In entity (default [] (entities valid_extraction)) ->
         e_type entity = Some t -> In t fixed_types ->
         stamped t (e_name entity)
           {| p_chunk_id := "c2"; p_doc_id := "d2";
              p_extracted_at := "2024-01-01T00:00:00.000Z" |}
           (graph w').
Proof.
  apply (@storeExtraction_last_chunk_wins valid_extraction "c2" "d2"
           (sample_world altman_graph [] [])).
  - reflexivity.
  - reflexivity.
  - reflexivity.
  - intros q Hq. cbn in Hq.
    destruct Hq as [<-|[<-|[<-|[]]]]; reflexivity.
Defined.

(** ** The extraction pipeline *)

Section InvocationFrames.

Lemma ignores_ret {A} (a : A) : ignores_invocations (ret a).
Proof. intros ps w. reflexivity. Qed.

Lemma ignores_throw {A} (e : exn) : ignores_invocations (@throw A e).
Proof. intros ps w. reflexivity. Qed.

Lemma ignores_lift {A} (r : Result A) : ignores_invocations (lift r).
Proof. intros ps w. reflexivity. Qed.

Lemma ignores_bind {A B} (m : M A) (k : A -> M B) :
  ignores_invocations m -> (forall a, ignores_invocations (k a)) ->
  ignores_invocations (bind m k).
Proof.
  intros Hm Hk ps w. unfold bind. rewrite Hm.
  destruct (m w) as [[e|a] w1]; cbn [fst snd]; [reflexivity | apply Hk].
Qed.

Lemma ignores_try_catch {A} (body : M A) (handler : exn -> M A) :
  ignores_invocations body -> (forall e, ignores_invocations (handler e)) ->
  ignores_invocations (try_catch body handler).
Proof.
  intros Hb Hh ps w. unfold try_catch. rewrite Hb.
  destruct (body w) as [[e|a] w1]; cbn [fst snd]; [apply Hh | reflexivity].
Qed.

Lemma ignores_try_finally {A} (body : M A) (cleanup : M unit) :
  ignores_invocations body -> ignores_invocations cleanup ->
  ignores_invocations (try_finally body cleanup).
Proof.
  intros Hb Hc ps w. unfold try_finally. rewrite Hb.
  destruct (body w) as [r w1]; cbn [fst snd]. rewrite Hc.
  destruct (cleanup w1) as [[e|u] w2]; reflexivity.
Qed.

End InvocationFrames.

Ltac ignores_step :=
  lazymatch goal with
  | |- ignores_invocations (ret _) => apply ignores_ret
  | |- ignores_invocations (throw _) => apply ignores_throw
  | |- ignores_invocations (lift _) => apply ignores_lift
  | |- ignores_invocations (bind _ _) => apply ignores_bind
  | |- ignores_invocations (try_catch _ _) => apply ignores_try_catch
  | |- ignores_invocations (try_finally _ _) => apply ignores_try_finally
  | |- forall _, _ => intro
  end.

Lemma ignores_getSession : ignores_invocations getSession.
Proof. intros ps w. unfold getSession. cbn. now destruct (driver w). Qed.

Lemma ignores_session_run (q : Cypher) : ignores_invocations (session_run q).
Proof.
  intros ps w. unfold session_run. cbn.
  destruct (neo4j_fault w); [reflexivity|].
  destruct (rejects w q); [reflexivity|].
  now destruct (execute (foreign w) q (graph w)).
Qed.

Lemma ignores_create_node (label : string) (name : option string) (pr : Provenance) :
  ignores_invocations
    (getSession ;;
     try_finally
       (result <- session_run (MergeNode label name pr) ;; ret (first_node result))
       session_close).
Proof.
  repeat ignores_step; first [apply ignores_getSession | apply ignores_session_run
          | exact (ignores_ret tt)].
Qed.

Lemma ignores_createRelationship (ft fn rt tt tn : option string) (pr : Provenance) :
  ignores_invocations (createRelationship ft fn rt tt tn pr).
Proof.
  unfold createRelationship, session_close.
  repeat ignores_step; first [apply ignores_getSession | apply ignores_session_run
          | exact (ignores_ret tt)].
Qed.

Lemma ignores_store_entity (pr : Provenance) (entity : Entity) :
  ignores_invocations (store_entity pr entity).
Proof.
  unfold store_entity. destruct (e_type entity) as [t|]; [|apply ignores_ret].
  repeat match goal with
         | |- ignores_invocations (if ?b then _ else _) => destruct b
         end;
    repeat ignores_step; apply ignores_create_node.
Qed.

Lemma ignores_store_entities (pr : Provenance) (es : list Entity) :
  forall results, ignores_invocations (store_entities pr es results).
Proof.
  induction es as [|e es IH]; intros results; cbn [store_entities];
    repeat ignores_step; [apply ignores_store_entity | apply IH].
Qed.

Lemma ignores_store_relationships (pr : Provenance) (rs : list Relationship) :
  forall results, ignores_invocations (store_relationships pr rs results).
Proof.
  induction rs as [|r rs IH]; intros results; cbn [store_relationships];
    repeat ignores_step; [apply ignores_createRelationship | apply IH].
Qed.

Lemma ignores_storeExtraction (x : Extraction) (chunkId docId : string) :
  ignores_invocations (storeExtraction x chunkId docId).
Proof.
  intros ps w. unfold storeExtraction. cbn [now with_invocations].
  match goal with |- ?m (with_invocations ps w) = _ =>
    enough (H : ignores_invocations m) by apply H end.
  ignores_step.
  - destruct (entities x); [apply ignores_store_entities | apply ignores_ret].
  - intros results.
    destruct (relationships x); [apply ignores_store_relationships | apply ignores_ret].
Qed.

Lemma ignores_store_each (extracted : list Chunk) :
  forall totals, ignores_invocations (store_each extracted totals).
Proof.
  induction extracted as [|c cs IH]; intros totals; cbn [store_each];
    [apply ignores_ret|].
  destruct (extraction c) as [x|]; [|apply IH].
  destruct (worth_storing c); [|apply IH].
  repeat ignores_step; [apply ignores_storeExtraction | apply IH].
Qed.




Lemma same_but_invocations_refl (w : World) : same_but_invocations w w.
Proof. reflexivity. Qed.

Lemma same_but_invocations_trans (w1 w2 w3 : World) :
  same_but_invocations w1 w2 -> same_but_invocations w2 w3 ->
  same_but_invocations w1 w3.
Proof. unfold same_but_invocations. congruence. Qed.

Lemma same_but_invocations_set (ps : list string) (w : World) :
  same_but_invocations (with_invocations ps w) w.
Proof. reflexivity. Qed.

Lemma with_own_invocations (w : World) : with_invocations (invocations w) w = w.
Proof. now destruct w. Qed.


Lemma same_extractor_refl (w : World) : same_extractor w w.
Proof. reflexivity. Qed.

Lemma same_extractor_trans (w1 w2 w3 : World) :
  same_extractor w1 w2 -> same_extractor w2 w3 -> same_extractor w1 w3.
Proof. unfold same_extractor. congruence. Qed.

Ltac extractor_side := first [exact same_extractor_refl | exact same_extractor_trans].

Ltac extractor_frame :=
  repeat first
    [ extractor_side
    | lazymatch goal with
      | |- respects _ (ret _) => apply respects_ret
      | |- respects _ (throw _) => apply respects_throw
      | |- respects _ (lift _) => apply respects_lift
      | |- respects _ (bind _ _) => apply respects_bind
      | |- respects _ (try_catch _ _) => apply respects_try_catch
      | |- respects _ (try_finally _ _) => apply respects_try_finally
      | |- forall _, _ => intro
      end ].

Lemma getSession_same_extractor : respects same_extractor getSession.
Proof. intros w. unfold getSession. now destruct (driver w). Qed.

Lemma session_run_same_extractor (q : Cypher) : respects same_extractor (session_run q).
Proof.
  intros w. unfold session_run.
  destruct (neo4j_fault w); [reflexivity|].
  destruct (rejects w q); [reflexivity|].
  now destruct (execute (foreign w) q (graph w)).
Qed.

Lemma create_node_same_extractor (label : string) (name : option string)
    (pr : Provenance) :
  respects same_extractor
    (getSession ;;
     try_finally
       (result <- session_run (MergeNode label name pr) ;; ret (first_node result))
       session_close).
Proof.
  extractor_frame;
    first [apply getSession_same_extractor | apply session_run_same_extractor].
Qed.

Lemma storeExtraction_same_extractor (x : Extraction) (chunkId docId : string) :
  respects same_extractor (storeExtraction x chunkId docId).
Proof.
  intros w. unfold storeExtraction.
  match goal with |- same_extractor w (snd (?m w)) =>
    enough (H : respects same_extractor m) by exact (H w) end.
  apply respects_bind; [extractor_side | |].
  - destruct (entities x) as [es|]; [|extractor_frame].
    generalize {| n_entities := 0; n_relationships := 0 |}.
    induction es as [|e es IH]; intros results; cbn [store_entities];
      [extractor_frame|].
    apply respects_bind; [extractor_side | | intros _; apply IH].
    unfold store_entity. destruct (e_type e) as [t|]; [|extractor_frame].
    repeat match goal with
           | |- respects _ (if ?b then _ else _) => destruct b
           end;
      extractor_frame; apply create_node_same_extractor.
  - intros results0. destruct (relationships x) as [rs|]; [|extractor_frame].
    revert results0.
    induction rs as [|r rs IH]; intros results; cbn [store_relationships];
      [extractor_frame|].
    apply respects_bind; [extractor_side | | intros _; apply IH].
    unfold createRelationship, session_close. extractor_frame;
      first [apply getSession_same_extractor | apply session_run_same_extractor
            | exact same_extractor_refl].
Qed.

Lemma store_each_same_extractor (extracted : list Chunk) :
  forall totals, respects same_extractor (store_each extracted totals).
Proof.
  induction extracted as [|c cs IH]; intros totals; cbn [store_each];
    [extractor_frame|].
  destruct (extraction c) as [x|]; [|apply IH].
  destruct (worth_storing c); [|apply IH].
  apply respects_bind;
    [extractor_side | apply storeExtraction_same_extractor | intros r; apply IH].
Qed.

Lemma bind_bind {A B C} (m : M A) (k : A -> M B) (h : B -> M C) (w : World) :
  (b <- (a <- m ;; k a) ;; h b) w = (a <- m ;; b <- k a ;; h b) w.
Proof. unfold bind. now destruct (m w) as [[e|a] w1]. Qed.

Lemma store_each_app (a b : list Chunk) :
  forall totals w,
    store_each (a ++ b) totals w
    = (totals' <- store_each a totals ;; store_each b totals') w.
Proof.
  induction a as [|c a IH]; intros totals w; cbn [app store_each].
  - reflexivity.
  - destruct (extraction c) as [x|]; [|apply IH].
    destruct (worth_storing c); [|apply IH].
    rewrite bind_bind. unfold bind at 1 2.
    destruct (storeExtraction x (chunk_id c) (doc_id c) w) as [[e|r] w1];
      [reflexivity | apply IH].
Qed.

Lemma connect_both (w : World) :
  mongo_fault w = None ->
  (client w = true -> db w = true) ->
  (driver w = true \/ neo4j_fault w = None) ->
  (connectMongoDB ;; connectNeo4j) w = (Ok tt, after_connecting w).
Proof.
  intros Hf Hdb Hd. unfold bind, connectMongoDB, connectNeo4j, after_connecting.
  destruct w; cbn in *. subst.
  destruct client0; [rewrite (Hdb eq_refl)|];
    cbn; destruct driver0; cbn; try reflexivity;
    destruct Hd as [Hd|Hd]; try discriminate; now subst.
Qed.

Section PipelineProperties.

Variable JSON_parse : string -> Result Parsed.

Lemma extract_each_world (chunks : list Chunk) :
  forall acc w,
    extract_each JSON_parse chunks acc w
    = (Ok (acc ++ attached_all JSON_parse (extraction_model w)
                    (length (invocations w)) chunks),
       with_invocations (invocations w ++ flat_map prompt_of chunks) w).
Proof.
  induction chunks as [|c chunks IH]; intros acc w.
  - cbn. now rewrite !app_nil_r, with_own_invocations.
  - cbn [extract_each attached_all flat_map]. unfold bind at 1, try_catch.
    unfold attached, prompt_of. destruct (text c) as [t|] eqn:Et.
    + unfold bind at 1. rewrite extractEntitiesAndRelationships_run. unfold ret.
      cbn [default]. rewrite IH.
      cbn [extraction_model invocations with_invocations].
      rewrite length_app. cbn [length]. now rewrite <- !app_assoc.
    + unfold bind at 1, extractEntitiesAndRelationships, bind, lift.
      cbn [createExtractionPrompt]. unfold ret. rewrite IH.
      cbn [length app]. now rewrite Nat.add_0_r, <- !app_assoc.
Qed.

Lemma attached_all_app (model : nat -> string -> Invocation) (a b : list Chunk) :
  forall calls,
    attached_all JSON_parse model calls (a ++ b)
    = attached_all JSON_parse model calls a
      ++ attached_all JSON_parse model
           (calls + length (flat_map prompt_of a)) b.
Proof.
  induction a as [|c a IH]; intros calls; cbn [app attached_all flat_map].
  - now rewrite Nat.add_0_r.
  - rewrite IH, length_app, Nat.add_assoc. reflexivity.
Qed.

(** With a batch size of 0 every batch is empty and the index stays 0. *)
Lemma zero_batch_loop (c : Chunk) (chunks : list Chunk) (totals : Counts) (w : World) :
  forall fuel,
    process_batches JSON_parse fuel (c :: chunks) (Int 0) (Int 0) totals w
    = (Ok None, w).
Proof.
  induction fuel as [|fuel IH]; [reflexivity|].
  cbn [process_batches].
  replace (num_lt (Int 0) (length (c :: chunks))) with true by reflexivity.
  change (num_add (Int 0) (Int 0)) with (Int 0).
  change (slice (c :: chunks) (Int 0) (Int 0)) with (@nil Chunk).
  exact IH.
Qed.

(** A batch size of 0 (extract-entities.js --batch=0): when there are chunks
    to process, extractEntitiesFromChunks never returns.  However many
    iterations the loop is given, it has not ended; no chunk has been sent to
    the model, nothing has been written to the graph, and the connections
    opened at the start are still open. *)
Theorem zero_batch_never_ends :
  forall (fuel : nat) (options : PipelineOptions) (w : World),
    po_batchSize options = Some (Int 0) ->
    mongo_fault w = None ->
    (client w = true -> db w = true) ->
    (driver w = true \/ neo4j_fault w = None) ->
    find_limited (po_docId options) (po_limit options) (collection w) <> [] ->
    extractEntitiesFromChunks JSON_parse fuel options w = (None, after_connecting w).
Proof.
  intros fuel options w Hb Hf Hdb Hd Hne.
  unfold extractEntitiesFromChunks, pipeline_body. rewrite Hb. cbn [default].
  rewrite <- bind_bind. unfold bind at 1. rewrite (connect_both w Hf Hdb Hd).
  unfold bind at 1, getCollection. cbn [db after_connecting with_neo4j with_mongo].
  unfold bind at 1, cursor_toArray.
  cbn [mongo_fault collection after_connecting with_neo4j with_mongo]. rewrite Hf.
  destruct (find_limited (po_docId options) (po_limit options) (collection w))
    as [|c chunks]; [contradiction|].
  unfold bind at 1. rewrite zero_batch_loop. reflexivity.
Qed.

Lemma num_lt_nat (i n : nat) : num_lt (Int (Z.of_nat i)) n = Nat.ltb i n.
Proof.
  unfold num_lt.
  destruct (Z.ltb_spec (Z.of_nat i) (Z.of_nat n)), (Nat.ltb_spec i n);
    try reflexivity; lia.
Qed.

Lemma num_add_nat (i b : nat) :
  num_add (Int (Z.of_nat i)) (Int (Z.of_nat b)) = Int (Z.of_nat (i + b)).
Proof. unfold num_add. now rewrite Nat2Z.inj_add. Qed.

(** From an index inside the array, a batch of [b] chunks is the next [b]
    chunks, or those that are left. *)
Lemma slice_batch (chunks : list Chunk) (b i : nat) :
  i < length chunks ->
  slice chunks (Int (Z.of_nat i)) (Int (Z.of_nat (i + b))) = firstn b (skipn i chunks).
Proof.
  intros Hi. unfold slice, slice_bound.
  destruct (Z.ltb_spec (Z.of_nat i) 0); [lia|].
  destruct (Z.ltb_spec (Z.of_nat (i + b)) 0); [lia|].
  rewrite !Nat2Z.id. rewrite (Nat.min_l i) by lia.
  destruct (Nat.le_ge_cases (i + b) (length chunks)).
  - rewrite Nat.min_l by lia. f_equal. lia.
  - rewrite Nat.min_r by lia.
    rewrite !firstn_all2; auto; rewrite length_skipn; lia.
Qed.

(** The batch loop, when the batch size is a positive integer and the loop is
    given enough iterations, does what storing the extractions of the
    remaining chunks one after the other does. *)
Lemma process_batches_canonical (chunks : list Chunk) (batchSize : nat) :
  0 < batchSize ->
  forall fuel i totals w,
    length chunks - i < fuel ->
    let extracted :=
      attached_all JSON_parse (extraction_model w) (length (invocations w))
        (skipn i chunks) in
    let loop :=
      process_batches JSON_parse fuel chunks (Int (Z.of_nat batchSize))
        (Int (Z.of_nat i)) totals w in
    fst loop = ended (fst (store_each extracted totals w))
    /\ same_but_invocations (snd loop) (snd (store_each extracted totals w))
    /\ (forall totals', fst (store_each extracted totals w) = Ok totals' ->
        invocations (snd loop)
        = invocations w ++ flat_map prompt_of (skipn i chunks)).
Proof.
  intros Hb. induction fuel as [|fuel IH]; intros i totals w Hfuel extracted loop;
    [lia|].
  subst loop.
  destruct (Nat.ltb i (length chunks)) eqn:Ei.
  - set (batch := firstn batchSize (skipn i chunks)).
    set (stored := attached_all JSON_parse (extraction_model w)
                     (length (invocations w)) batch).
    set (prompts := invocations w ++ flat_map prompt_of batch).
    assert (Hstep :
              process_batches JSON_parse (S fuel) chunks (Int (Z.of_nat batchSize))
                (Int (Z.of_nat i)) totals w
              = let '(r, w1) := store_each stored totals w in
                match r with
                | Throw e => (Throw e, with_invocations prompts w1)
                | Ok totals' =>
                    process_batches JSON_parse fuel chunks (Int (Z.of_nat batchSize))
                      (Int (Z.of_nat (i + batchSize))) totals'
                      (with_invocations prompts w1)
                end).
    { cbn [process_batches]. rewrite num_lt_nat, Ei, num_add_nat.
      rewrite slice_batch by (now apply Nat.ltb_lt).
      unfold bind, extractFromChunks.
      rewrite extract_each_world. cbn [app]. fold batch stored prompts.
      rewrite (ignores_store_each stored totals prompts w).
      now destruct (store_each stored totals w) as [[e|totals'] w1]. }
    rewrite Hstep. clear Hstep. apply Nat.ltb_lt in Ei.
    assert (Hsplit : skipn i chunks = batch ++ skipn (i + batchSize) chunks).
    { subst batch. rewrite <- (firstn_skipn batchSize (skipn i chunks)) at 1.
      now rewrite skipn_skipn, (Nat.add_comm batchSize i). }
    subst extracted. rewrite Hsplit, attached_all_app. fold stored.
    rewrite store_each_app. unfold bind.
    pose proof (store_each_same_extractor stored totals w) as Hmodel.
    destruct (store_each stored totals w) as [[e|totals'] w1]; cbn [fst snd] in *.
    + split; [reflexivity|]. split; [reflexivity | discriminate].
    + destruct (IH (i + batchSize) totals' (with_invocations prompts w1))
        as (Hr & Hw & Hi); [lia|].
      cbn [extraction_model invocations with_invocations] in Hr, Hw, Hi.
      unfold same_extractor in Hmodel. rewrite Hmodel in Hr, Hw, Hi.
      subst prompts. rewrite length_app in Hr, Hw, Hi.
      match type of Hr with
      | _ = ended (fst (store_each ?E _ _)) =>
          rewrite (ignores_store_each E totals' _ w1) in Hr, Hw, Hi
      end.
      cbn [fst snd] in Hr, Hw, Hi. split; [exact Hr|]. split.
      * eapply same_but_invocations_trans; [exact Hw|].
        apply same_but_invocations_set.
      * intros t Ht. rewrite (Hi t Ht), flat_map_app, app_assoc. reflexivity.
  - cbn [process_batches]. rewrite num_lt_nat, Ei. apply Nat.ltb_ge in Ei.
    subst extracted.
    rewrite (skipn_all2 chunks Ei). cbn. rewrite app_nil_r.
    repeat split; reflexivity.
Qed.





Lemma store_each_nothing (extracted : list Chunk) (totals : Counts) (w : World) :
  (forall c, In c extracted -> worth_storing c = false) ->
  store_each extracted totals w = (Ok totals, w).
Proof.
  induction extracted as [|c cs IH]; intros H; cbn [store_each]; [reflexivity|].
  rewrite (H c (or_introl eq_refl)).
  destruct (extraction c); apply IH; intros c' Hc'; apply H; now right.
Qed.

Lemma attached_all_timeouts (model : nat -> string -> Invocation) (chunks : list Chunk) :
  (forall calls prompt, N.ltb (elapsed (model calls prompt)) 45000 = false) ->
  forall calls c,
    In c (attached_all JSON_parse model calls chunks) -> worth_storing c = false.
Proof.
  intros Hslow. induction chunks as [|c0 chunks IH]; intros calls c H;
    cbn [attached_all] in H; [contradiction|].
  destruct H as [<-|H]; [|eapply IH; eassumption].
  unfold worth_storing, with_extraction, attached. cbn [extraction].
  destruct (text c0) as [t|]; [|reflexivity].
  unfold extraction_of, race. now rewrite Hslow.
Qed.

(** A run in which no extraction succeeds is reported as a success.  When
    the model never answers within the 45 seconds of the timer, the pipeline
    still sends every chunk that has a text to the model, writes nothing to
    the graph, and returns success: true with the number of chunks as
    chunks_processed and 0 entities and relationships. *)
Theorem timeouts_reported_as_success :
  forall (fuel : nat) (options : PipelineOptions) (w : World),
    let chunks := find_limited (po_docId options) (po_limit options) (collection w) in
    positive_size (default (Int 10) (po_batchSize options)) ->
    length chunks < fuel ->
    chunks <> [] ->
    mongo_fault w = None ->
    (client w = true -> db w = true) ->
    neo4j_fault w = None ->
    (forall calls prompt,
        N.ltb (elapsed (extraction_model w calls prompt)) 45000 = false) ->
    exists w',
      extractEntitiesFromChunks JSON_parse fuel options w
      = (Some (Ok {| success := true;
                     stats :=
                       Some {| chunks_processed := length chunks;
                               entities_extracted := 0;
                               relationships_extracted := 0;
                               graph_nodes := gs_nodes (graph_stats (graph w));
                               graph_relationships :=
                                 gs_relationships (graph_stats (graph w)) |} |}),
         w')
      /\ graph w' = graph w
      /\ issued w' = issued w
      /\ invocations w' = invocations w ++ flat_map prompt_of chunks.
Proof.
  intros fuel options w chunks Hsize Hfuel Hne Hf Hdb Hn Hslow.
  unfold extractEntitiesFromChunks, pipeline_body.
  rewrite <- bind_bind. unfold bind at 1.
  rewrite (connect_both w Hf Hdb (or_intror Hn)).
  unfold bind at 1, getCollection. cbn [db after_connecting with_neo4j with_mongo].
  unfold bind at 1, cursor_toArray.
  cbn [mongo_fault collection after_connecting with_neo4j with_mongo]. rewrite Hf.
  fold chunks. destruct chunks as [|c cs] eqn:Echunks; [contradiction|].
  set (t0 := {| n_entities := 0; n_relationships := 0 |}).
  destruct (default (Int 10) (po_batchSize options)) as [|size];
    [contradiction|]. cbn [positive_size] in Hsize.
  rewrite <- (Z2Nat.id size) by lia.
  destruct (@process_batches_canonical (c :: cs) (Z.to_nat size)
              ltac:(lia) fuel 0 t0 (after_connecting w)) as (Hr & Hw & Hi); [lia|].
  change (Int (Z.of_nat 0)) with (Int 0) in Hr, Hw, Hi.
  cbn [skipn extraction_model invocations after_connecting with_neo4j with_mongo] in Hr, Hw, Hi.
  rewrite store_each_nothing in Hr, Hw, Hi
    by (intros x Hx; eapply attached_all_timeouts; eassumption).
  cbn [fst snd ended] in Hr, Hw, Hi. specialize (Hi t0 eq_refl).
  unfold bind at 1.
  destruct (process_batches JSON_parse fuel (c :: cs) _ (Int 0) t0
              (after_connecting w)) as [r1 w1].
  cbn [fst snd] in Hr, Hw, Hi. subst r1.
  assert (Hw1 : w1 = with_invocations
                       (invocations w ++ flat_map prompt_of (c :: cs)) (after_connecting w)).
  { rewrite <- (with_own_invocations w1), Hi.
    change (with_invocations ?ps w1)
      with (with_invocations ps (with_invocations [] w1)).
    unfold same_but_invocations in Hw. now rewrite Hw. }
  subst w1. unfold bind, getGraphStats, getSession, try_finally, session_close, ret.
  cbn. rewrite Hn. cbn. eexists. split; [reflexivity|]. now repeat split.
Qed.

(** *** Batch sizes that are no positive integer *)

(** Counted from the end, a batch that ends where it starts, or before, is
    empty. *)
Lemma slice_backwards (chunks : list Chunk) (i b : Z) :
  (i < 0)%Z -> (b <= 0)%Z -> slice chunks (Int i) (Int (i + b)) = [].
Proof.
  intros Hi Hb. unfold slice, slice_bound.
  destruct (Z.ltb_spec i 0); [|lia]. destruct (Z.ltb_spec (i + b) 0); [|lia].
  replace (Z.to_nat (Z.max (Z.of_nat (length chunks) + (i + b)) 0)
           - Z.to_nat (Z.max (Z.of_nat (length chunks) + i) 0)) with 0 by lia.
  reflexivity.
Qed.

(** [chunks.slice(0, b)] for a negative [b] drops the last [-b] chunks: it
    is empty when there are no more than that. *)
Lemma slice_all_dropped (chunks : list Chunk) (b : Z) :
  (b < 0)%Z -> (Z.of_nat (length chunks) <= - b)%Z ->
  slice chunks (Int 0) (Int b) = [].
Proof.
  intros Hb Hlen. unfold slice, slice_bound.
  destruct (Z.ltb_spec 0 0); [lia|]. destruct (Z.ltb_spec b 0); [|lia].
  replace (Z.to_nat (Z.max (Z.of_nat (length chunks) + b) 0)) with 0 by lia.
  reflexivity.
Qed.

(** With a negative batch size the index only falls: from a negative index
    every batch is empty and the loop does not end. *)
Lemma negative_batch_loop (chunks : list Chunk) (b : Z) (totals : Counts) (w : World) :
  (b < 0)%Z ->
  forall fuel i, (i < 0)%Z ->
    process_batches JSON_parse fuel chunks (Int b) (Int i) totals w = (Ok None, w).
Proof.
  intros Hb. induction fuel as [|fuel IH]; intros i Hi; [reflexivity|].
  cbn [process_batches].
  replace (num_lt (Int i) (length chunks)) with true
    by (symmetry; apply Z.ltb_lt; lia).
  cbn [num_add]. rewrite slice_backwards by lia.
  apply IH. lia.
Qed.

(** extract-entities.js --batch=-N on no more than N chunks: the first batch
    is empty, the index becomes negative, and the run never returns; no chunk
    is sent to the model and nothing is written. *)
Lemma negative_batch_never_ends :
  forall (fuel : nat) (options : PipelineOptions) (b : Z) (w : World),
    let chunks := find_limited (po_docId options) (po_limit options) (collection w) in
    po_batchSize options = Some (Int b) ->
    (b < 0)%Z ->
    (Z.of_nat (length chunks) <= - b)%Z ->
    chunks <> [] ->
    mongo_fault w = None ->
    (client w = true -> db w = true) ->
    (driver w = true \/ neo4j_fault w = None) ->
    extractEntitiesFromChunks JSON_parse fuel options w = (None, after_connecting w).
Proof.
  intros fuel options b w chunks Hsize Hb Hlen Hne Hf Hdb Hd.
  unfold extractEntitiesFromChunks, pipeline_body. rewrite Hsize. cbn [default].
  rewrite <- bind_bind. unfold bind at 1. rewrite (connect_both w Hf Hdb Hd).
  unfold bind at 1, getCollection. cbn [db after_connecting with_neo4j with_mongo].
  unfold bind at 1, cursor_toArray.
  cbn [mongo_fault collection after_connecting with_neo4j with_mongo]. rewrite Hf.
  fold chunks. destruct chunks as [|c cs] eqn:Echunks; [contradiction|].
  unfold bind at 1.
  assert (Hloop : process_batches JSON_parse fuel (c :: cs) (Int b) (Int 0)
                    {| n_entities := 0; n_relationships := 0 |} (after_connecting w)
                  = (Ok None, after_connecting w)).
  { destruct fuel as [|fuel]; [reflexivity|]. cbn [process_batches].
    replace (num_lt (Int 0) (length (c :: cs))) with true by reflexivity.
    change (num_add (Int 0) (Int b)) with (Int b).
    rewrite slice_all_dropped by assumption.
    apply (@negative_batch_loop (c :: cs) b _ _ Hb fuel b Hb). }
  rewrite Hloop. reflexivity.
Qed.

(** extract-entities.js --batch=abc: parseInt gives NaN, the one batch is
    empty and the index is NaN after it, so the loop ends.  The run sends no
    chunk to the model, writes nothing, and reports success with all the
    chunks as processed. *)
Lemma nan_batch_extracts_nothing :
  forall (fuel : nat) (options : PipelineOptions) (w : World),
    let chunks := find_limited (po_docId options) (po_limit options) (collection w) in
    po_batchSize options = Some NaN ->
    1 < fuel ->
    chunks <> [] ->
    mongo_fault w = None ->
    (client w = true -> db w = true) ->
    neo4j_fault w = None ->
    exists w',
      extractEntitiesFromChunks JSON_parse fuel options w
      = (Some (Ok {| success := true;
                     stats :=
                       Some {| chunks_processed := length chunks;
                               entities_extracted := 0;
                               relationships_extracted := 0;
                               graph_nodes := gs_nodes (graph_stats (graph w));
                               graph_relationships :=
                                 gs_relationships (graph_stats (graph w)) |} |}),
         w')
      /\ graph w' = graph w
      /\ issued w' = issued w
      /\ invocations w' = invocations w.
Proof.
  intros fuel options w chunks Hsize Hfuel Hne Hf Hdb Hn.
  unfold extractEntitiesFromChunks, pipeline_body. rewrite Hsize. cbn [default].
  rewrite <- bind_bind. unfold bind at 1.
  rewrite (connect_both w Hf Hdb (or_intror Hn)).
  unfold bind at 1, getCollection. cbn [db after_connecting with_neo4j with_mongo].
  unfold bind at 1, cursor_toArray.
  cbn [mongo_fault collection after_connecting with_neo4j with_mongo]. rewrite Hf.
  fold chunks. destruct chunks as [|c cs] eqn:Echunks; [contradiction|].
  destruct fuel as [|[|fuel]]; [lia | lia |].
  unfold bind at 1.
  assert (Hloop : process_batches JSON_parse (S (S fuel)) (c :: cs) NaN (Int 0)
                    {| n_entities := 0; n_relationships := 0 |} (after_connecting w)
                  = (Ok (Some {| n_entities := 0; n_relationships := 0 |}),
                     after_connecting w)) by reflexivity.
  rewrite Hloop.
  unfold bind, getGraphStats, getSession, try_finally, session_close, ret.
  cbn. rewrite Hn. cbn. eexists. split; [reflexivity|]. now repeat split.
Qed.

End PipelineProperties.

(** extract-entities.js --all --batch=-5 and --batch=abc on three passages. *)
Example negative_batch_on_three_passages :
  forall fuel,
    extractEntitiesFromChunks altman_parse fuel (all_chunks (-5)) reader_world
    = (None, after_connecting reader_world).
Proof.
  intros fuel.
  apply (@negative_batch_never_ends altman_parse fuel (all_chunks (-5)) (-5)%Z
           reader_world).
  - reflexivity.
  - reflexivity.
  - cbn. lia.
  - cbn. discriminate.
  - reflexivity.
  - cbn. intros H. discriminate H.
  - right. reflexivity.
Qed.

Example nan_batch_on_three_passages :
  exists w',
    extractEntitiesFromChunks altman_parse 4
      {| po_limit := None; po_docId := None; po_batchSize := Some NaN |} reader_world
    = (Some (Ok {| success := true;
                   stats := Some {| chunks_processed := 3;
                                    entities_extracted := 0;
                                    relationships_extracted := 0;
                                    graph_nodes := 0;
                                    graph_relationships := 0 |} |}),
       w')
    /\ graph w' = empty_graph /\ invocations w' = [].
Proof. eexists. vm_compute. repeat split. Qed.

(** extract-entities.js --all --batch=0 on three passages. *)
Lemma zero_batch_never_ends_witness :
  extractEntitiesFromChunks altman_parse 1000 (all_chunks 0) reader_world
  = (None, after_connecting reader_world).
Proof.
  apply (@zero_batch_never_ends altman_parse 1000 (all_chunks 0) reader_world).
  - reflexivity.
  - reflexivity.
  - cbn. intros H. discriminate H.
  - right. reflexivity.
  - cbn. discriminate.
Defined.


(** Three passages and a model that needs a minute for each. *)
Lemma timeouts_reported_as_success_witness :
  exists w',
    extractEntitiesFromChunks altman_parse 4 (all_chunks 10) stalled_world
    = (Some (Ok {| success := true;
                   stats := Some {| chunks_processed := 3;
                                    entities_extracted := 0;
                                    relationships_extracted := 0;
                                    graph_nodes := 0;
                                    graph_relationships := 0 |} |}),
       w')
    /\ graph w' = empty_graph
    /\ issued w' = []
    /\ invocations w'
       = flat_map prompt_of [altman_passage; microsoft_passage; openai_passage].
Proof.
  apply (@timeouts_reported_as_success altman_parse 4 (all_chunks 10) stalled_world).
  - reflexivity.
  - cbn. lia.
  - cbn. discriminate.
  - reflexivity.
  - cbn. intros H. discriminate H.
  - reflexivity.
  - intros calls prompt. reflexivity.
Defined.

(** With a model that answers, the same three passages: the one node is
    counted three times, once for each passage that mentions it. *)
Example pipeline_counts_mentions :
  exists w',
    extractEntitiesFromChunks altman_parse 4 (all_chunks 2) reader_world
    = (Some (Ok {| success := true;
                   stats := Some {| chunks_processed := 3;
                                    entities_extracted := 3;
                                    relationships_extracted := 0;
                                    graph_nodes := 1;
                                    graph_relationships := 0 |} |}),
       w')
    /\ map n_chunk_id (nodes (graph w')) = [Some "c1"].
Proof. eexists. split; vm_compute; reflexivity. Qed.

(** ** The query endpoint *)

Lemma queryGraphRAG_stale_client (q : string) (options : QueryOptions) (w : World)
    (emb : Embedding) :
  client w = true -> db w = false ->
  (driver w = true \/ neo4j_fault w = None) ->
  embedQuery w q = Ok emb ->
  queryGraphRAG q options w
  = (Throw (Error "Database not connected. Call connectMongoDB() first."),
     with_neo4j false (graph w) (issued w) (with_mongo false false w)).
Proof.
  intros Hc Hdb Hd Hemb.
  unfold queryGraphRAG, try_finally, try_catch.
  unfold bind at 1. unfold connectMongoDB. rewrite Hc.
  unfold bind at 1.
  assert (Hconnect : exists w0,
             connectNeo4j w = (Ok tt, w0)
             /\ client w0 = true /\ db w0 = false /\ driver w0 = true
             /\ embedQuery w0 q = Ok emb
             /\ with_neo4j false (graph w0) (issued w0) (with_mongo false false w0)
                = with_neo4j false (graph w) (issued w) (with_mongo false false w)).
  { unfold connectNeo4j. destruct (driver w) eqn:Ed.
    - exists w. now repeat split.
    - destruct Hd as [Hd|Hd]; [discriminate|]. rewrite Hd.
      eexists. split; [reflexivity|]. now repeat split. }
  destruct Hconnect as (w0 & -> & Hc0 & Hdb0 & Hd0 & Hemb0 & Hw0).
  unfold bind at 1, hybridRetrieval. unfold bind at 1.
  rewrite (generateEmbedding_ok _ _ Hemb0).
  unfold bind at 1, vectorSearch. unfold bind at 1, getCollection. rewrite Hdb0.
  unfold throw, bind, closeMongoDB, closeNeo4j. rewrite Hc0.
  cbn [driver with_mongo]. rewrite Hd0. cbn [graph issued with_mongo].
  now rewrite <- Hw0.
Qed.

(** A failed first connection costs a second request.  When the chunk store
    cannot be reached, the first request fails with the error of the store
    and leaves a client without database behind.  Once the store is reachable
    again, the next request does not connect (connectMongoDB returns the
    client that is left) and fails with 'Database not connected. Call
    connectMongoDB() first.'; it is the request after that one which
    reaches the search, and it is answered exactly when the store accepts the
    search with the limit of the request. *)
Theorem request_after_failed_connection :
  forall (body : QueryBody) (c : ascii) (s m : string) (emb : Embedding) (w : World),
    b_query body = Some (String c s) ->
    client w = false -> db w = false -> driver w = false ->
    mongo_fault w = Some m -> neo4j_fault w = None ->
    embedQuery w (String c s) = Ok emb ->
    let given := default (number 2) (b_topK body) in
    let k := if truthy_value given then given else number (topK (config w)) in
    let first := post_query body false w in
    let second := post_query body (snd (fst first)) (repaired (snd first)) in
    let third := post_query body (snd (fst second)) (snd second) in
    fst (fst first) = Failure (message_or_default (Error m))
    /\ fst (fst second)
       = Failure "Database not connected. Call connectMongoDB() first."
    /\ ((exists data, fst (fst third) = Success data)
        <-> exists found, nearest w emb k (collection w) = Ok found).
Proof.
  intros body c s m emb w Hq Hc Hdb Hd Hf Hn Hemb given k first second third.
  assert (H1 : first = ((Failure (message_or_default (Error m)), false),
                        with_mongo true false w)).
  { subst first. unfold post_query, ensureConnected, bind, connectMongoDB.
    now rewrite Hc, Hf, Hdb. }
  assert (H2 : second
               = ((Failure "Database not connected. Call connectMongoDB() first.",
                   true),
                  with_neo4j false (graph w) (issued w)
                    (with_mongo false false (repaired w)))).
  { subst second. rewrite H1. cbn [fst snd].
    unfold post_query, ensureConnected. unfold bind at 1. unfold connectMongoDB.
    cbn [client repaired with_mongo]. unfold bind at 1. unfold connectNeo4j.
    cbn [driver neo4j_fault repaired with_mongo]. rewrite Hd, Hn. unfold ret.
    rewrite Hq.
    rewrite (@queryGraphRAG_stale_client (String c s) _ _ emb);
      [reflexivity | reflexivity | reflexivity | left; reflexivity | exact Hemb]. }
  split; [now rewrite H1|]. split; [now rewrite H2|].
  subst third. rewrite H2. cbn [fst snd].
  unfold post_query, ensureConnected, ret. rewrite Hq.
  match goal with |- context [queryGraphRAG ?q ?o ?w2] =>
    pose proof (queryGraphRAG_returns_cases q o w2) as Hcases
  end.
  split.
  - intros [data Hdata].
    destruct (proj1 Hcases) as (_ & _ & _ & emb' & found & Hemb' & Hfound).
    + destruct (queryGraphRAG _ _ _) as [[e|a] w']; [discriminate Hdata|].
      now exists a, w'.
    + exists found. cbn in Hemb'. rewrite Hemb in Hemb'.
      injection Hemb' as <-. exact Hfound.
  - intros [found Hfound].
    destruct (proj2 Hcases) as (a & w' & ->); [|eexists; reflexivity].
    split; [reflexivity|]. split; [intros H; discriminate H|].
    split; [now right|]. exists emb, found. split; [exact Hemb | exact Hfound].
Qed.

(** The sample corpus, with the chunk store down at the first request. *)
Lemma request_after_failed_connection_witness :
  let first := post_query altman_request false offline_world in
  let second := post_query altman_request (snd (fst first)) (repaired (snd first)) in
  let third := post_query altman_request (snd (fst second)) (snd second) in
  fst (fst first) = Failure "connect ECONNREFUSED 127.0.0.1:27017"
  /\ fst (fst second)
     = Failure "Database not connected. Call connectMongoDB() first."
  /\ exists data, fst (fst third) = Success data.
Proof.
  destruct (@request_after_failed_connection altman_request
              "H"%char "ow is Sam Altman related to Microsoft?"
              "connect ECONNREFUSED 127.0.0.1:27017"
              (EmbeddingOf "How is Sam Altman related to Microsoft?") offline_world)
    as (H1 & H2 & H3); try reflexivity.
  split; [exact H1|]. split; [exact H2|].
  apply (proj2 H3). eexists. vm_compute. reflexivity.
Defined.

Lemma cite_each_length (chunks : list Chunk) :
  forall cited seen,
    length (cite_each chunks cited seen) <= length cited + length chunks.
Proof.
  induction chunks as [|c chunks IH]; intros cited seen; cbn [cite_each length];
    [lia|].
  destruct (negb _).
  - etransitivity; [apply IH|]. rewrite length_app. cbn. lia.
  - etransitivity; [apply IH|]. lia.
Qed.

Lemma queryGraphRAG_answer (q : string) (options : QueryOptions) (w w' : World)
    (a : Answer) :
  queryGraphRAG q options w = (Ok a, w') ->
  a_query a = q
  /\ (citations a = [] \/ citations a = extractCitations (allChunks (retrievalResults a)))
  /\ (a_graphPaths a = [] \/ a_graphPaths a = graphPaths (retrievalResults a))
  /\ exists w0 w1,
       hybridRetrieval q
         {| opt_topK := Some (default (number (topK (config w))) (q_topK options));
            opt_graphDepth :=
              Some (default (number (graphTraversalDepth (config w))) (q_graphDepth options));
            opt_includeGraphPaths := None |} w0
       = (Ok (retrievalResults a), w1).
Proof.
  unfold queryGraphRAG, try_finally, try_catch. intros H.
  match type of H with context [bind connectMongoDB ?m w] =>
    destruct (bind connectMongoDB m w) as [[e|a0] w1] eqn:Ebody
  end.
  - unfold throw in H. destruct (close_both w1) as (w2 & Hclose & _).
    rewrite Hclose in H. discriminate H.
  - destruct (close_both w1) as (w2 & Hclose & _). rewrite Hclose in H.
    inversion H; subst a0 w2; clear H.
    bind_inv Ebody u wa Ea. bind_inv Ebody u' wb Eb. bind_inv Ebody r wc Er.
    destruct (allChunks r) as [|c cs] eqn:Eall.
    + unfold ret in Ebody. inversion Ebody; subst; clear Ebody. cbn.
      repeat split; auto. eauto.
    + bind_inv Ebody ans wd Et.
      unfold ret in Ebody. inversion Ebody; subst; clear Ebody. cbn.
      rewrite Eall. repeat split; auto. eauto.
Qed.

(** What a successful response holds.  Whenever the handler of POST
    /api/query answers with success, the response echoes the query of the
    request, its statistics add up (totalChunks is vectorChunks plus
    graphChunks), it cites at most one source per passage of the evidence
    set, and both store connections are closed again although [connected] is
    true; and when the graphDepth of the request (1 when it names none) is
    spliced into the traversal as the numeral of d, every relationship path
    it lists has at least one hop and at most d. *)
Theorem post_query_success_contract :
  forall (body : QueryBody) (connected connected' : bool) (w w' : World)
         (data : QueryData),
    post_query body connected w = ((Success data, connected'), w') ->
    Some (d_query data) = b_query body
    /\ s_totalChunks (d_stats data)
       = s_vectorChunks (d_stats data) + s_graphChunks (d_stats data)
    /\ length (d_citations data) <= s_totalChunks (d_stats data)
    /\ (forall d,
          spliced (default (number 1) (b_graphDepth body)) = js_num d ->
          forall p, In p (d_graphPaths data) -> 1 <= gp_depth p <= d)
    /\ connected' = true /\ client w' = false /\ driver w' = false.
Proof.
  intros body connected connected' w w' data H. unfold post_query in H.
  destruct (ensureConnected connected w) as [[e|flag] w1] eqn:Econn;
    [discriminate H|].
  assert (Hflag : flag = true).
  { unfold ensureConnected in Econn. destruct connected.
    - now inversion Econn.
    - unfold bind, ret in Econn.
      destruct (connectMongoDB w) as [[e|u] wa]; [discriminate|].
      destruct (connectNeo4j wa) as [[e|u'] wb]; [discriminate|].
      now inversion Econn. }
  destruct (b_query body) as [[|c s]|] eqn:Eq; try discriminate H.
  pose proof (queryGraphRAG_cleanup (String c s)
                {| q_topK := Some (default (number 2) (b_topK body));
                   q_graphDepth := Some (default (number 1) (b_graphDepth body));
                   q_verbose := Some true |} w1) as Hclean.
  destruct (queryGraphRAG (String c s) _ w1) as [[e|a] w2] eqn:Erun;
    [discriminate H|].
  inversion H; subst; clear H. cbn [snd] in Hclean.
  destruct Hclean as (Hc & _ & Hd & _).
  destruct (@queryGraphRAG_answer _ _ _ _ _ Erun)
    as (Ha & Hcit & Hpaths & w0 & w3 & Hret).
  cbn [d_query d_stats d_citations d_graphPaths s_totalChunks s_vectorChunks
       s_graphChunks q_topK q_graphDepth default] in *.
  pose proof (@hybridRetrieval_shape _ _ _ _ _ Hret) as (_ & Hall & _).
  split; [now rewrite Ha|].
  split; [now rewrite Hall, length_app|].
  split.
  { destruct Hcit as [-> | ->]; [cbn; lia|].
    unfold extractCitations. etransitivity; [apply cite_each_length | cbn; lia]. }
  split; [|now repeat split].
  intros d Hnumeral p Hp.
  destruct Hpaths as [Hp0 | Hp0]; rewrite Hp0 in Hp; [contradiction|].
  destruct (@hybridRetrieval_expansion _ _ _ _ _ Hret)
    as [[_ Hnone] | (names & wn & st & we & Enames & Eexp & _ & Hst)].
  - rewrite Hnone in Hp. contradiction.
  - rewrite Hst in Hp. cbn [opt_includeGraphPaths opt_graphDepth default] in Hp, Eexp.
    assert (Hrange : range_of (spliced (default (number 1) (b_graphDepth body)))
                     = Some (UpTo d))
      by (rewrite Hnumeral; apply range_of_numeral).
    assert (Hsound : expansion_sound (graph wn) (max_hops (UpTo d) (graph wn)) st).
    { eapply (@expand_each_sound names _ (UpTo d) Hrange); [|exact Eexp].
      split; intros x []. }
    now apply Hsound.
Qed.

(** A request answered with the fallback answer: the model is too slow, the
    statistics still add up. *)
Lemma post_query_success_contract_witness :
  exists data connected' w',
    post_query altman_request false slow_world = ((Success data, connected'), w')
    /\ d_answer data
       = "Unable to generate answer due to timeout. Try reducing graph depth or asking a simpler question."
    /\ Some (d_query data) = b_query altman_request
    /\ s_totalChunks (d_stats data)
       = s_vectorChunks (d_stats data) + s_graphChunks (d_stats data)
    /\ length (d_citations data) <= s_totalChunks (d_stats data)
    /\ (forall p, In p (d_graphPaths data) -> 1 <= gp_depth p <= 2)
    /\ connected' = true /\ client w' = false /\ driver w' = false.
Proof.
  eexists. eexists. eexists. split; [vm_compute; reflexivity|].
  split; [reflexivity|].
  match goal with |- Some (d_query ?d) = _ /\ _ =>
    destruct (@post_query_success_contract altman_request false _ slow_world _ d
                eq_refl) as (H1 & H2 & H3 & H4 & H5)
  end.
  split; [exact H1|]. split; [exact H2|]. split; [exact H3|].
  split; [exact (H4 2 eq_refl) | exact H5].
Defined.

(** ** What the prompt shows *)

Lemma forEach_append_ext {A} (line1 line2 : A -> nat -> string) (l : list A) :
  (forall x i, line1 x i = line2 x i) ->
  forall i prompt,
    forEach_append line1 l i prompt = forEach_append line2 l i prompt.
Proof.
  intros H. induction l as [|x l IH]; intros i prompt; cbn; [reflexivity|].
  now rewrite H, IH.
Qed.

Lemma marked_by_ids (chunk : Chunk) (gcs1 gcs2 : list Chunk) :
  map chunk_id gcs1 = map chunk_id gcs2 ->
  existsb (fun gc => String.eqb (chunk_id gc) (chunk_id chunk)) gcs1
  = existsb (fun gc => String.eqb (chunk_id gc) (chunk_id chunk)) gcs2.
Proof.
  revert gcs2. induction gcs1 as [|g gcs1 IH]; intros [|g' gcs2] H;
    try discriminate; cbn; [reflexivity|].
  cbn in H. injection H as Hid Hrest. now rewrite Hid, (IH gcs2 Hrest).
Qed.

(** The prompt shows the head of the evidence only.  constructGraphAwarePrompt
    reads of the evidence set its first maxChunks passages and of the
    relationship paths the first maxGraphPaths (and whether there is any); of
    the graph passages it reads the identifiers, and only when provenance is
    asked for.  Two retrieval results that agree on these give the same
    prompt, whatever else they hold. *)
Theorem prompt_shows_head_of_evidence :
  forall (q : string) (r1 r2 : Retrieval) (options : PromptOptions),
    firstn (default 3 (maxChunks options)) (allChunks r1)
    = firstn (default 3 (maxChunks options)) (allChunks r2) ->
    firstn (default 5 (maxGraphPaths options)) (graphPaths r1)
    = firstn (default 5 (maxGraphPaths options)) (graphPaths r2) ->
    (graphPaths r1 = [] <-> graphPaths r2 = []) ->
    (default false (includeProvenance options) = true ->
     map chunk_id (graphChunks r1) = map chunk_id (graphChunks r2)) ->
    constructGraphAwarePrompt q r1 options = constructGraphAwarePrompt q r2 options.
Proof.
  intros q r1 r2 options Hchunks Hpaths Hany Hmarks.
  unfold constructGraphAwarePrompt. rewrite Hchunks.
  assert (Hgraph :
            match default true (includeGraphPaths options), graphPaths r1 with
            | true, _ :: _ =>
                (forEach_append (fun path i => js_num (i + 1) ++ ". " ++ path ++ nl)
                   (formatGraphPaths
                      (firstn (default 5 (maxGraphPaths options)) (graphPaths r1)))
                   0
                   (("Answer using ONLY the information below. Be concise."
                     ++ nl ++ nl) ++ "KNOWLEDGE GRAPH:" ++ nl) ++ nl)%string
            | _, _ =>
                ("Answer using ONLY the information below. Be concise."
                 ++ nl ++ nl)%string
            end
            = match default true (includeGraphPaths options), graphPaths r2 with
              | true, _ :: _ =>
                  (forEach_append (fun path i => js_num (i + 1) ++ ". " ++ path ++ nl)
                     (formatGraphPaths
                        (firstn (default 5 (maxGraphPaths options)) (graphPaths r2)))
                     0
                     (("Answer using ONLY the information below. Be concise."
                       ++ nl ++ nl) ++ "KNOWLEDGE GRAPH:" ++ nl) ++ nl)%string
              | _, _ =>
                  ("Answer using ONLY the information below. Be concise."
                   ++ nl ++ nl)%string
              end).
  { rewrite Hpaths. destruct (default true (includeGraphPaths options));
      [|reflexivity].
    destruct (graphPaths r1) as [|p1 ps1], (graphPaths r2) as [|p2 ps2];
      try reflexivity.
    - destruct Hany as [Hany _]. discriminate (Hany eq_refl).
    - destruct Hany as [_ Hany]. discriminate (Hany eq_refl). }
  cbv zeta. rewrite Hgraph.
  destruct (default true (includeChunkText options)); [|reflexivity].
  f_equal. apply forEach_append_ext. intros chunk index.
  destruct (default false (includeProvenance options)); [|reflexivity].
  now rewrite (marked_by_ids chunk _ _ (Hmarks eq_refl)).
Qed.

(** With the options of queryGraphRAG (two passages), a third and a fourth
    passage of the evidence change nothing in the prompt. *)
Lemma prompt_shows_head_of_evidence_witness :
  constructGraphAwarePrompt "What does OpenAI develop?"
    (evidence "What does OpenAI develop?" cited_passages)
    (answer_prompt_options (number 2))
  = constructGraphAwarePrompt "What does OpenAI develop?"
      (evidence "What does OpenAI develop?" (firstn 2 cited_passages))
      (answer_prompt_options (number 2)).
Proof.
  apply (@prompt_shows_head_of_evidence "What does OpenAI develop?"
           (evidence "What does OpenAI develop?" cited_passages)
           (evidence "What does OpenAI develop?" (firstn 2 cited_passages))
           (answer_prompt_options (number 2))).
  - reflexivity.
  - reflexivity.
  - split; reflexivity.
  - intros H. discriminate H.
Defined.

(** ** The pipeline cleans up *)

Section StoreFrames.

Variable R : World -> World -> Prop.
Hypothesis R_refl : forall w, R w w.
Hypothesis R_trans : forall w1 w2 w3, R w1 w2 -> R w2 w3 -> R w1 w3.
Hypothesis R_getSession : respects R getSession.
Hypothesis R_session_run : forall q, respects R (session_run q).

Ltac store_frame :=
  repeat first
    [ exact R_refl | exact R_trans | exact R_getSession | apply R_session_run
    | lazymatch goal with
      | |- respects _ (ret _) => apply respects_ret
      | |- respects _ (throw _) => apply respects_throw
      | |- respects _ (lift _) => apply respects_lift
      | |- respects _ (bind _ _) => apply respects_bind
      | |- respects _ (try_catch _ _) => apply respects_try_catch
      | |- respects _ (try_finally _ _) => apply respects_try_finally
      | |- forall _, _ => intro
      end ].

Lemma create_node_respects (label : string) (name : option string) (pr : Provenance) :
  respects R
    (getSession ;;
     try_finally
       (result <- session_run (MergeNode label name pr) ;; ret (first_node result))
       session_close).
Proof. unfold session_close. store_frame. Qed.

Lemma store_entities_respects (pr : Provenance) (es : list Entity) :
  forall results, respects R (store_entities pr es results).
Proof.
  induction es as [|e es IH]; intros results; cbn [store_entities];
    [store_frame|].
  apply respects_bind; [exact R_trans | | intros _; apply IH].
  unfold store_entity. destruct (e_type e) as [t|]; [|store_frame].
  repeat match goal with
         | |- respects _ (if ?b then _ else _) => destruct b
         end;
    store_frame; apply create_node_respects.
Qed.

Lemma store_relationships_respects (pr : Provenance) (rs : list Relationship) :
  forall results, respects R (store_relationships pr rs results).
Proof.
  induction rs as [|r rs IH]; intros results; cbn [store_relationships];
    [store_frame|].
  apply respects_bind; [exact R_trans | | intros _; apply IH].
  unfold createRelationship, session_close. store_frame.
Qed.

Lemma storeExtraction_respects (x : Extraction) (chunkId docId : string) :
  respects R (storeExtraction x chunkId docId).
Proof.
  intros w. unfold storeExtraction.
  match goal with |- R w (snd (?m w)) =>
    enough (H : respects R m) by exact (H w) end.
  apply respects_bind; [exact R_trans | |].
  - destruct (entities x); [apply store_entities_respects | store_frame].
  - intros results.
    destruct (relationships x); [apply store_relationships_respects | store_frame].
Qed.

Lemma store_each_respects (extracted : list Chunk) :
  forall totals, respects R (store_each extracted totals).
Proof.
  induction extracted as [|c cs IH]; intros totals; cbn [store_each];
    [store_frame|].
  destruct (extraction c) as [x|]; [|apply IH].
  destruct (worth_storing c); [|apply IH].
  apply respects_bind;
    [exact R_trans | apply storeExtraction_respects | intros r; apply IH].
Qed.

End StoreFrames.

Lemma same_chunk_store_refl (w : World) : same_chunk_store w w.
Proof. now split. Qed.

Lemma same_chunk_store_trans (w1 w2 w3 : World) :
  same_chunk_store w1 w2 -> same_chunk_store w2 w3 -> same_chunk_store w1 w3.
Proof. intros [H1 H2] [H3 H4]. split; congruence. Qed.

Lemma getSession_same_chunk_store : respects same_chunk_store getSession.
Proof. intros w. unfold getSession. destruct (driver w); now split. Qed.

Lemma session_run_same_chunk_store (q : Cypher) :
  respects same_chunk_store (session_run q).
Proof.
  intros w. unfold session_run.
  destruct (neo4j_fault w); [now split|].
  destruct (rejects w q); [now split|].
  destruct (execute (foreign w) q (graph w)); now split.
Qed.

Section PipelineCleanup.

Variable JSON_parse : string -> Result Parsed.

Lemma process_batches_same_chunk_store (chunks : list Chunk) (batchSize : Num) :
  forall fuel i totals,
    respects same_chunk_store
      (process_batches JSON_parse fuel chunks batchSize i totals).
Proof.
  induction fuel as [|fuel IH]; intros i totals; cbn [process_batches].
  - intros w. apply same_chunk_store_refl.
  - destruct (num_lt i (length chunks)); [|intros w; apply same_chunk_store_refl].
    apply respects_bind; [exact same_chunk_store_trans | |].
    + intros w. unfold extractFromChunks. rewrite extract_each_world. now split.
    + intros extracted.
      apply respects_bind; [exact same_chunk_store_trans | |].
      * apply store_each_respects;
          [ exact same_chunk_store_refl | exact same_chunk_store_trans
          | exact getSession_same_chunk_store
          | exact session_run_same_chunk_store ].
      * intros totals'. apply IH.
Qed.

Lemma pipeline_body_chunk_store (fuel : nat) (options : PipelineOptions) (w : World) :
  client (snd (pipeline_body JSON_parse fuel options w)) = true
  /\ collection (snd (pipeline_body JSON_parse fuel options w)) = collection w.
Proof.
  unfold pipeline_body.
  match goal with |- context [bind connectMongoDB ?k w] =>
    assert (Hrest : respects same_chunk_store (k tt))
  end.
  { apply respects_bind; [exact same_chunk_store_trans | |].
    - intros w0. unfold connectNeo4j. destruct (driver w0); [now split|].
      destruct (neo4j_fault w0); now split.
    - intros _. apply respects_bind; [exact same_chunk_store_trans | |].
      + intros w0. unfold getCollection. destruct (db w0); now split.
      + intros docs. apply respects_bind; [exact same_chunk_store_trans | |].
        * intros w0. unfold cursor_toArray. destruct (mongo_fault w0); now split.
        * intros [|c chunks]; [intros w0; now split|].
          apply respects_bind; [exact same_chunk_store_trans | |].
          -- apply process_batches_same_chunk_store.
          -- intros [totals|]; [|intros w0; now split].
             apply respects_bind; [exact same_chunk_store_trans | |].
             ++ unfold getGraphStats, session_close.
                apply respects_bind;
                  [exact same_chunk_store_trans
                  | exact getSession_same_chunk_store |].
                intros _. apply respects_try_finally;
                  [exact same_chunk_store_trans | | intros w0; now split].
                intros w0. destruct (neo4j_fault w0); now split.
             ++ intros gs w0. now split. }
  pose proof (connectMongoDB_sets_client w) as Hc.
  pose proof (connectMongoDB_same_contents w) as [_ Hcoll].
  match goal with |- context [bind connectMongoDB ?k w] =>
    change (bind connectMongoDB k w)
      with (let '(r, w1) := connectMongoDB w in
            match r with
            | Throw e => (Throw e, w1)
            | Ok a => k a w1
            end)
  end.
  destruct (connectMongoDB w) as [[e|[]] wa]; cbn [snd] in *;
    [split; assumption|].
  destruct (Hrest wa) as [Hc' Hcoll']. split; congruence.
Qed.

(** The pipeline cleans up and leaves the collection alone.  Whenever
    extractEntitiesFromChunks ends, with a result or with an error, client,
    db and driver are unset, and the collection holds what it held: the
    extractions are written to the graph only, never to the chunks. *)
Theorem pipeline_ends_disconnected :
  forall (fuel : nat) (options : PipelineOptions) (w w' : World)
         (r : Result PipelineResult),
    extractEntitiesFromChunks JSON_parse fuel options w = (Some r, w') ->
    client w' = false /\ db w' = false /\ driver w' = false
    /\ collection w' = collection w.
Proof.
  intros fuel options w w' r H. unfold extractEntitiesFromChunks in H.
  destruct (pipeline_body_chunk_store fuel options w) as [Hc Hcoll].
  destruct (pipeline_body JSON_parse fuel options w) as [r1 w1].
  cbn [snd] in Hc, Hcoll.
  assert (Hclose : forall A (m : M A),
             snd (m w1) = w1 ->
             let w2 := snd (try_finally m (closeMongoDB ;; closeNeo4j) w1) in
             client w2 = false /\ db w2 = false /\ driver w2 = false
             /\ collection w2 = collection w).
  { intros A m Hm. unfold try_finally, bind, closeMongoDB, closeNeo4j.
    destruct (m w1) as [rm wm]. cbn [snd] in Hm. subst wm. rewrite Hc.
    cbn [driver with_mongo].
    destruct (driver w1) eqn:Hd; destruct rm; cbn; rewrite ?Hd; auto. }
  destruct r1 as [e|[result|]]; [| |discriminate H].
  - specialize (Hclose PipelineResult
                  (try_catch (throw e) (fun error => throw error)) eq_refl).
    destruct (try_finally _ _ w1) as [r2 w2]. inversion H; subst. exact Hclose.
  - specialize (Hclose PipelineResult (ret result) eq_refl).
    destruct (try_finally _ _ w1) as [r2 w2]. inversion H; subst. exact Hclose.
Qed.

End PipelineCleanup.

(** The run on three passages ends with both connections closed. *)
Lemma pipeline_ends_disconnected_witness :
  exists r w',
    extractEntitiesFromChunks altman_parse 4 (all_chunks 2) reader_world = (Some r, w')
    /\ client w' = false /\ db w' = false /\ driver w' = false
    /\ collection w' = collection reader_world.
Proof.
  eexists. eexists. split; [vm_compute; reflexivity|].
  eapply (@pipeline_ends_disconnected altman_parse 4 (all_chunks 2) reader_world).
  vm_compute. reflexivity.
Defined.

(** ** Nodes that relationships create *)

Lemma unstamped_kept (other : Foreign) (l : string) (nm : option string)
      (q : Cypher) (g : Graph) :
  unstamped l nm g -> upserts_other_node l nm q ->
  unstamped l nm (fst (execute other q g)).
Proof.
  intros Hu Hq.
  destruct q as [l' nm' pr | fl tl rl fn tn pr | name depth limit |];
    cbn in Hq |- *; try contradiction.
  -  intros n Hin Hm. apply in_map_iff in Hin.
    destruct Hin as (n0 & <- & Hin0).
    assert (Hm0 : node_matches l nm n0 = true)
      by (destruct (node_matches l' nm' n0); exact Hm).
    rewrite merge_pattern_nodes in Hin0. apply in_app_or in Hin0.
    assert (Hbare : n0 = bare_node l nm).
    { destruct Hin0 as [Hin0|Hin0]; [now apply Hu|].
      destruct (present l' nm' g); [contradiction|].
      destruct Hin0 as [<-|[]]. apply node_matches_bare_inv in Hm0.
      destruct Hm0; now subst. }
    destruct (node_matches l' nm' n0) eqn:E; [|exact Hbare].
    subst n0. apply node_matches_bare_inv in E. destruct E; subst.
    exfalso. apply Hq. now split.
  - intros n Hin Hm. rewrite !merge_pattern_nodes in Hin.
    assert (Hnew : forall l0 nm0 (b : bool),
               In n (if b then [] else [bare_node l0 nm0]) -> n = bare_node l nm).
    { intros l0 nm0 [|] H0; [contradiction|]. destruct H0 as [<-|[]].
      apply node_matches_bare_inv in Hm. destruct Hm; now subst. }
    apply in_app_or in Hin. destruct Hin as [Hin|Hin]; [|eapply Hnew; eassumption].
    apply in_app_or in Hin. destruct Hin as [Hin|Hin]; [now apply Hu|].
    eapply Hnew; eassumption.
Qed.

Lemma unstamped_run (other : Foreign) (l : string) (nm : option string)
      (qs : list Cypher) :
  forall g,
    unstamped l nm g -> (forall q, In q qs -> upserts_other_node l nm q) ->
    unstamped l nm (run other qs g).
Proof.
  induction qs as [|q qs IH]; intros g H Hqs; [exact H|].
  change (run other (q :: qs) g) with (run other qs (fst (execute other q g))).
  apply IH.
  - apply unstamped_kept; [exact H | apply Hqs; now left].
  - intros q' Hq'. apply Hqs. now right.
Qed.

(** An endpoint that is not an entity becomes a node without provenance.
    When a relationship of an extraction ends at a node that the graph does
    not hold and that none of the extraction's entities describes,
    storeExtraction creates that node, under the sanitized type and the name
    the relationship gives, and the node carries no chunk_id, no doc_id and
    no extracted_at: the graph can lead to it, but it points to no passage. *)
Theorem unlisted_endpoint_has_no_provenance :
  forall (x : Extraction) (chunkId docId : string) (w : World)
         (rel : Relationship) (toType : string),
    let pr := {| p_chunk_id := chunkId; p_doc_id := docId; p_extracted_at := now w |} in
    driver w = true ->
    neo4j_fault w = None ->
    forallb typed_relationship (default [] (relationships x)) = true ->
    (forall q, In q (upserts pr x) -> rejects w q = None) ->
    In rel (default [] (relationships x)) ->
    r_to_type rel = Some toType ->
    (forall entity, In entity (default [] (entities x)) ->
       ~ (e_type entity = Some (replace_non_word toType)
          /\ e_name entity = r_to rel)) ->
    present (replace_non_word toType) (r_to rel) (graph w) = false ->
    exists counts w',
      storeExtraction x chunkId docId w = (Ok counts, w')
      /\ present (replace_non_word toType) (r_to rel) (graph w') = true
      /\ forall n, In n (nodes (graph w')) ->
           node_matches (replace_non_word toType) (r_to rel) n = true ->
           n = bare_node (replace_non_word toType) (r_to rel).
Proof.
  intros x chunkId docId w rel toType pr Hd Hf Ht Hr Hrel Hto Hother Habsent.
  eexists. eexists. split; [now apply storeExtraction_accepted|].
  fold pr. rewrite graph_sent. split.
  - assert (Htyped : typed_relationship rel = true)
      by (rewrite forallb_forall in Ht; now apply Ht).
    unfold typed_relationship in Htyped. rewrite Hto in Htyped.
    destruct (r_from_type rel) as [ft|] eqn:Eft; [|discriminate].
    destruct (r_type rel) as [rt|] eqn:Ert; [|discriminate].
    assert (Hq : In (MergeRelationship (replace_non_word ft) (replace_non_word toType)
                       (replace_non_word rt) (r_from rel) (r_to rel) pr)
                    (upserts pr x)).
    { unfold upserts. apply in_or_app. right. apply in_flat_map.
      exists rel. split; [exact Hrel|]. unfold relationship_upsert.
      rewrite Eft, Hto, Ert. now left. }
    pose proof (@run_settles (foreign w) (upserts pr x)
                  (upserts_are_upserts pr x) (graph w) _ Hq) as Hs.
    cbn [settled] in Hs. apply andb_prop in Hs. destruct Hs as [Hs _].
    apply andb_prop in Hs. now destruct Hs.
  - apply unstamped_run.
    + intros n Hin Hm. unfold present in Habsent.
      assert (existsb (node_matches (replace_non_word toType) (r_to rel))
                (nodes (graph w)) = true); [|congruence].
      apply existsb_exists. now exists n.
    + intros q Hq. unfold upserts in Hq. apply in_app_or in Hq.
      destruct Hq as [Hq|Hq]; apply in_flat_map in Hq;
        destruct Hq as (item & Hitem & Hq).
      * unfold entity_upsert in Hq. destruct (e_type item) as [t|] eqn:Et;
          [|contradiction].
        destruct (existsb (String.eqb t) fixed_types); [|contradiction].
        destruct Hq as [<-|[]]. cbn. intros [H1 H2].
        apply (Hother item Hitem). split; congruence.
      * unfold relationship_upsert in Hq.
        destruct (r_from_type item), (r_to_type item), (r_type item);
          try contradiction.
        destruct Hq as [<-|[]]. exact I.
Qed.

(** Sam Altman is an entity of the extraction, OpenAI only the end of its
    relationship. *)
Lemma unlisted_endpoint_has_no_provenance_witness :
  exists counts w',
    storeExtraction
      {| entities := Some [an_entity "Sam Altman" "Person"];
         relationships :=
           Some [{| r_from := Some "Sam Altman"; r_from_type := Some "Person";
                    r_type := Some "CEO_OF";
                    r_to := Some "OpenAI"; r_to_type := Some "Company" |}];
         error := None |} "c1" "d1" (sample_world empty_graph [] [])
    = (Ok counts, w')
    /\ present "Company" (Some "OpenAI") (graph w') = true
    /\ forall n, In n (nodes (graph w')) ->
         node_matches "Company" (Some "OpenAI") n = true ->
         n = bare_node "Company" (Some "OpenAI").
Proof.
  apply (@unlisted_endpoint_has_no_provenance
           {| entities := Some [an_entity "Sam Altman" "Person"];
              relationships :=
                Some [{| r_from := Some "Sam Altman"; r_from_type := Some "Person";
                         r_type := Some "CEO_OF";
                         r_to := Some "OpenAI"; r_to_type := Some "Company" |}];
              error := None |} "c1" "d1" (sample_world empty_graph [] [])
           {| r_from := Some "Sam Altman"; r_from_type := Some "Person";
              r_type := Some "CEO_OF";
              r_to := Some "OpenAI"; r_to_type := Some "Company" |} "Company").
  - reflexivity.
  - reflexivity.
  - reflexivity.
  - intros q Hq. cbn in Hq. destruct Hq as [<-|[<-|[]]]; reflexivity.
  - now left.
  - reflexivity.
  - intros entity [<-|[]] [H _]. discriminate H.
  - reflexivity.
Defined.

(** ** topK 0 *)

Lemma bind_ext_when {A B} (m : M A) (k1 k2 : A -> M B) (w : World) :
  (forall a w1, m w = (Ok a, w1) -> k1 a w1 = k2 a w1) ->
  bind m k1 w = bind m k2 w.
Proof.
  intros H. unfold bind. destruct (m w) as [[e|a] w1]; [reflexivity|].
  now apply H.
Qed.

Lemma bind_cong_left {A B} (m1 m2 : M A) (k : A -> M B) (w : World) :
  m1 w = m2 w -> bind m1 k w = bind m2 k w.
Proof. intros H. unfold bind. now rewrite H. Qed.

Lemma try_catch_cong {A} (body1 body2 : M A) (handler : exn -> M A) (w : World) :
  body1 w = body2 w -> try_catch body1 handler w = try_catch body2 handler w.
Proof. intros H. unfold try_catch. now rewrite H. Qed.

Lemma try_finally_cong {A} (body1 body2 : M A) (cleanup : M unit) (w : World) :
  body1 w = body2 w -> try_finally body1 cleanup w = try_finally body2 cleanup w.
Proof. intros H. unfold try_finally. now rewrite H. Qed.

Lemma connect_config (w wa wb : World) (u u' : unit) :
  connectMongoDB w = (Ok u, wa) -> connectNeo4j wa = (Ok u', wb) ->
  config wb = config w.
Proof.
  intros Ea Eb.
  assert (H1 : config wa = config w).
  { unfold connectMongoDB in Ea. destruct (client w); [now inversion Ea|].
    destruct (mongo_fault w); now inversion Ea. }
  unfold connectNeo4j in Eb. destruct (driver wa); [inversion Eb; congruence|].
  destruct (neo4j_fault wa); inversion Eb; subst; exact H1.
Qed.

(** A topK of 0 is the default topK.  queryGraphRAG passes the 0 on, and
    vectorSearch reads it as absent ([limit || config.vectorSearch.topK]): the
    call does what it does without a topK. *)
Theorem topK_zero_is_default :
  forall (q : string) (graphDepth : option Value) (verbose : option bool) (w : World),
    queryGraphRAG q
      {| q_topK := Some (number 0); q_graphDepth := graphDepth;
         q_verbose := verbose |} w
    = queryGraphRAG q
        {| q_topK := None; q_graphDepth := graphDepth; q_verbose := verbose |} w.
Proof.
  intros q graphDepth verbose w.
  assert (Hsearch : forall emb w0,
             config w0 = config w ->
             vectorSearch emb (Some (number 0)) w0
             = vectorSearch emb (Some (number (topK (config w)))) w0).
  { intros emb w0 Hcfg. unfold vectorSearch. apply bind_ext_when.
    intros docs w1 Ecoll.
    assert (Hw1 : w1 = w0)
      by (unfold getCollection in Ecoll; destruct (db w0); now inversion Ecoll).
    subst w1. unfold search_limit. rewrite Hcfg.
    now destruct (truthy_value (number (topK (config w)))). }
  unfold queryGraphRAG. cbn [q_topK q_graphDepth default].
  apply try_finally_cong, try_catch_cong.
  apply bind_ext_when. intros u wa Ea.
  apply bind_ext_when. intros u' wb Eb.
  pose proof (@connect_config _ _ _ _ _ Ea Eb) as Hcfg.
  apply bind_cong_left.
  unfold hybridRetrieval. cbn [opt_topK opt_graphDepth].
  apply bind_ext_when. intros emb w1 Eemb.
  pose proof (generateEmbedding_world _ _ Eemb) as ->.
  apply bind_cong_left. now apply Hsearch.
Qed.

(** ** The traversal ignores direction *)

Lemma incident_complete (es : list Edge) (v u : nat) :
  forall i0 k e,
    nth_error es k = Some e -> hop e v u ->
    In (i0 + k, u) (incident es i0 v []).
Proof.
  induction es as [|e0 es IH]; intros i0 [|k] e Hk Hhop; cbn in Hk;
    try discriminate.
  - inversion Hk; subst e0. cbn. rewrite Nat.add_0_r.
    destruct Hhop as [[Hs Hd] | [Hd Hs]].
    + rewrite Hs, Nat.eqb_refl, <- Hd. now left.
    + destruct (Nat.eqb (e_src e) v) eqn:E.
      * apply Nat.eqb_eq in E. left. f_equal. congruence.
      * rewrite Hd, Nat.eqb_refl, <- Hs. now left.
  - cbn. replace (i0 + S k) with (S i0 + k) by lia.
    pose proof (IH (S i0) k e Hk Hhop) as Hin.
    destruct (Nat.eqb (e_src e0) v); [now right|].
    destruct (Nat.eqb (e_dst e0) v); [now right | exact Hin].
Qed.

Lemma positions_complete (p : Node -> bool) (ns : list Node) :
  forall i0 k n,
    nth_error ns k = Some n -> p n = true -> In (i0 + k) (positions p ns i0).
Proof.
  induction ns as [|n0 ns IH]; intros i0 [|k] n Hk Hp; cbn in Hk; try discriminate.
  - inversion Hk; subst n0. cbn. rewrite Hp, Nat.add_0_r. now left.
  - cbn. replace (i0 + S k) with (S i0 + k) by lia.
    pose proof (IH (S i0) k n Hk Hp) as Hin.
    destruct (p n0); [now right | exact Hin].
Qed.

Lemma related_rows_kept (rows : list Row) :
  (forall row, In row rows -> exists n k, row = RowRelated n k) ->
  length (flat_map related_of_row rows) = length rows.
Proof.
  induction rows as [|r rows IH]; intros H; cbn [flat_map length]; [reflexivity|].
  rewrite length_app, IH by (intros row Hrow; apply H; now right).
  destruct (H r (or_introl eq_refl)) as (n & k & ->). reflexivity.
Qed.

(** Relationships are followed in both directions.  When findRelatedEntities
    returns fewer than 50 entities, a node at the other end of any
    relationship of a node with the given name is among them, at one hop,
    whether the relationship starts or ends at the named node. *)
Theorem traversal_ignores_direction :
  forall (name : option string) (depth : nat) (w w' : World) (rels : list Related)
         (s u : nat) (ns nt : Node) (e : Edge),
    findRelatedEntities name (Some (number depth)) w = (Ok rels, w') ->
    0 < depth ->
    length rels < 50 ->
    nth_error (nodes (graph w)) s = Some ns -> n_name ns = name ->
    nth_error (nodes (graph w)) u = Some nt ->
    In e (edges (graph w)) -> hop e s u ->
    In {| entity := nt; type := hd_error (labels nt); path := 1 |} rels.
Proof.
  intros name depth w w' rels s u ns nt e Hrun Hdepth Hfew Hs Hname Hu He Hhop.
  destruct (@findRelatedEntities_cases name (Some (number depth)) (UpTo depth) w
              (range_of_numeral depth)) as [[e0 He0] | Hok];
    rewrite Hrun in *; cbn [fst default max_hops] in *; [discriminate He0|].
  injection Hok as Hrels.
  set (all := flat_map (fun s0 => flat_map (related_row (graph w))
                                    (expand (graph w) depth s0 [] 0))
                (positions (fun n => option_eqb name (n_name n))
                   (nodes (graph w)) 0)).
  assert (Hrow : In (RowRelated nt 1) all).
  { subst all. apply in_flat_map. exists s. split.
    - apply (positions_complete _ _ 0 s Hs). now apply option_eqb_eq.
    - apply in_flat_map. exists (u, 1). split.
      + destruct depth as [|h]; [lia|]. cbn [expand].
        apply In_nth_error in He. destruct He as (k & Hk).
        apply in_flat_map. exists (0 + k, u). split.
        * now apply (incident_complete _ 0 k Hk).
        * now left.
      + unfold related_row. cbn [fst snd]. rewrite Hu. now left. }
  assert (Hshape : forall row, In row all -> exists n k, row = RowRelated n k).
  { intros row H. subst all. apply in_flat_map in H. destruct H as (s0 & _ & H).
    apply in_flat_map in H. destruct H as (hit & _ & H). unfold related_row in H.
    destruct (nth_error (nodes (graph w)) (fst hit)); [|contradiction].
    destruct H as [<-|[]]. eauto. }
  assert (Hall : match_related name depth 50 (graph w) = all).
  { unfold match_related. fold all. apply firstn_all2.
    assert (Hlen : length (firstn 50 all) < 50).
    { rewrite <- (related_rows_kept (firstn 50 all)).
      - unfold match_related in Hrels. fold all in Hrels. now rewrite <- Hrels.
      - intros row H. apply Hshape.
        rewrite <- (firstn_skipn 50 all). apply in_or_app. now left. }
    rewrite length_firstn in Hlen. lia. }
  rewrite Hrels, Hall. apply in_flat_map. exists (RowRelated nt 1).
  split; [exact Hrow | now left].
Qed.

(** Sam Altman --CEO_OF--> OpenAI, asked from OpenAI. *)
Lemma traversal_ignores_direction_witness :
  exists rels w',
    findRelatedEntities (Some "OpenAI") (Some (number 1)) altman_world
    = (Ok rels, w')
    /\ In {| entity := linked_node "Person" "Sam Altman" "v1" "doc-altman";
             type := Some "Person"; path := 1 |} rels.
Proof.
  eexists. eexists. split; [lazy; reflexivity|].
  apply (@traversal_ignores_direction (Some "OpenAI") 1 altman_world _ _ 1 0
           (linked_node "Company" "OpenAI" "c1" "doc-openai")
           (linked_node "Person" "Sam Altman" "v1" "doc-altman")
           {| e_src := 0; e_label := "CEO_OF"; e_dst := 1;
              e_properties := sample_provenance |} eq_refl).
  - lia.
  - cbn. lia.
  - reflexivity.
  - reflexivity.
  - reflexivity.
  - now left.
  - right. now split.
Defined.

(** ** Vector-only queries *)

(** queryVectorOnly is vector-only in what it returns.  An answer of
    queryVectorOnly lists no relationship path, and its evidence holds no
    graph entity and no graph passage: the evidence set is the semantic
    result. *)
Theorem queryVectorOnly_is_vector_only :
  forall (q : string) (options : QueryOptions) (w w' : World) (a : Answer),
    queryVectorOnly q options w = (Ok a, w') ->
    a_graphPaths a = []
    /\ graphEntities (retrievalResults a) = []
    /\ graphChunks (retrievalResults a) = []
    /\ allChunks (retrievalResults a) = vectorChunks (retrievalResults a).
Proof.
  intros q options w w' a H. unfold queryVectorOnly in H.
  destruct (@queryGraphRAG_answer _ _ _ _ _ H) as (_ & _ & Hpaths & w0 & w1 & Hret).
  cbn [q_topK q_graphDepth default] in Hret.
  assert (Hnone : graphEntities (retrievalResults a) = []
                  /\ graphPaths (retrievalResults a) = []).
  { destruct (@hybridRetrieval_expansion _ _ _ _ _ Hret)
      as [Hnone | (names & wn & st & we & _ & Eexp & He & Hp)]; [exact Hnone|].
    cbn [opt_graphDepth opt_includeGraphPaths default] in Eexp, Hp.
    destruct (expand_each_zero names
                {| relatedEntities := []; paths := []; seenEntities := [] |} wn)
      as (we' & Ezero).
    rewrite Ezero in Eexp. inversion Eexp; subst st. now rewrite He, Hp. }
  destruct Hnone as [He Hp].
  pose proof (@hybridRetrieval_shape _ _ _ _ _ Hret) as (_ & Hall & Hgraph).
  rewrite He in Hgraph. cbn [collect_chunk_ids fold_left] in Hgraph.
  rewrite (filter_none (fun c => existsb (String.eqb (chunk_id c)) [])) in Hgraph
    by reflexivity.
  cbn [filter] in Hgraph.
  split; [destruct Hpaths as [Hq | Hq]; congruence|].
  split; [exact He|]. split; [exact Hgraph|].
  now rewrite Hall, Hgraph, app_nil_r.
Qed.

(** A vector-only query on the sample corpus: the semantic passage only. *)
Lemma queryVectorOnly_is_vector_only_witness :
  exists a w',
    queryVectorOnly "How is Sam Altman related to Microsoft?" default_query slow_world
    = (Ok a, w')
    /\ map chunk_id (allChunks (retrievalResults a)) = ["v1"]
    /\ a_graphPaths a = []
    /\ graphEntities (retrievalResults a) = []
    /\ graphChunks (retrievalResults a) = []
    /\ allChunks (retrievalResults a) = vectorChunks (retrievalResults a).
Proof.
  eexists. eexists. split; [lazy; reflexivity|].
  split; [reflexivity|].
  eapply (@queryVectorOnly_is_vector_only "How is Sam Altman related to Microsoft?"
            default_query slow_world).
  lazy. reflexivity.
Defined.

(** ** Deleting a document *)

Lemma deleteDocumentChunks_world (d : string) (w : World) :
  db w = true -> mongo_fault w = None ->
  snd (deleteDocumentChunks d w)
  = with_collection
      (filter (fun c => negb (String.eqb (doc_id c) d)) (collection w)) w.
Proof.
  intros Hdb Hf. unfold deleteDocumentChunks, bind, getCollection.
  now rewrite Hdb, Hf.
Qed.

Lemma no_chunk_of_deleted (d : string) (docs : list Chunk) :
  filter (fun c => String.eqb (doc_id c) d)
    (filter (fun c => negb (String.eqb (doc_id c) d)) docs) = [].
Proof.
  induction docs as [|c cs IH]; [reflexivity|]. cbn [filter].
  destruct (String.eqb (doc_id c) d) eqn:E; cbn [negb filter]; [exact IH|].
  now rewrite E.
Qed.

Lemma getChunksByDocId_found (d : string) (w : World) :
  db w = true -> mongo_fault w = None ->
  getChunksByDocId d w
  = (Ok (filter (fun c => String.eqb (doc_id c) d) (collection w)), w).
Proof.
  intros Hdb Hf. unfold getChunksByDocId, bind, getCollection, cursor_toArray.
  now rewrite Hdb, Hf.
Qed.

(** Deleting a document leaves its entities in the graph, without passages.
    deleteDocumentChunks removes the chunks of the document from the
    collection and nothing from the graph; afterwards getChunksByDocId finds
    no chunk of the document, and no graph passage of hybridRetrieval belongs
    to it, although the graph still holds the nodes extracted from it. *)
Theorem deleted_document_leaves_graph :
  forall (d q : string) (options : RetrievalOptions) (w w' : World) (r : Retrieval),
    db w = true -> mongo_fault w = None ->
    let w1 := snd (deleteDocumentChunks d w) in
    hybridRetrieval q options w1 = (Ok r, w') ->
    graph w1 = graph w
    /\ getChunksByDocId d w1 = (Ok [], w1)
    /\ forall c, In c (graphChunks r) -> doc_id c <> d.
Proof.
  intros d q options w w' r Hdb Hf w1 Hret. subst w1.
  rewrite (deleteDocumentChunks_world d w Hdb Hf) in *.
  split; [reflexivity|]. split.
  - rewrite getChunksByDocId_found by assumption.
    cbn [collection with_collection]. now rewrite no_chunk_of_deleted.
  - intros c Hc.
    pose proof (@hybridRetrieval_shape _ _ _ _ _ Hret) as (_ & _ & Hgraph).
    rewrite Hgraph in Hc. cbn [collection with_collection] in Hc.
    apply filter_In in Hc. destruct Hc as [Hc _].
    apply filter_In in Hc. destruct Hc as [Hc _].
    apply filter_In in Hc. destruct Hc as [_ Hc].
    intros Heq. rewrite Heq, String.eqb_refl in Hc. discriminate Hc.
Qed.

(** The passage about OpenAI is deleted; OpenAI stays in the graph and is
    still reached from Sam Altman, without its passage. *)
Lemma deleted_document_leaves_graph_witness :
  exists r w',
    hybridRetrieval "How is Sam Altman related to Microsoft?" (depth_options 2)
      (snd (deleteDocumentChunks "doc-openai" altman_world)) = (Ok r, w')
    /\ map ge_name (graphEntities r) = [Some "OpenAI"; Some "Microsoft"]
    /\ map chunk_id (graphChunks r) = ["c2"]
    /\ graph (snd (deleteDocumentChunks "doc-openai" altman_world)) = altman_graph
    /\ getChunksByDocId "doc-openai"
         (snd (deleteDocumentChunks "doc-openai" altman_world))
       = (Ok [], snd (deleteDocumentChunks "doc-openai" altman_world))
    /\ forall c, In c (graphChunks r) -> doc_id c <> "doc-openai".
Proof.
  eexists. eexists. split; [lazy; reflexivity|].
  split; [reflexivity|]. split; [reflexivity|].
  eapply (@deleted_document_leaves_graph "doc-openai"
            "How is Sam Altman related to Microsoft?" (depth_options 2)
            altman_world); [reflexivity | reflexivity |].
  lazy. reflexivity.
Defined.
